(** * DynamicEnvironmentMapManager

    A shallow embedding of
    [packages/engine/Source/Scene/DynamicEnvironmentMapManager.js]: the
    manager object, the command and texture objects it shares with the
    renderer, its four pipeline stages, the per-frame sequencer [update],
    invalidation ([_reset]) and teardown ([destroy]).

    Conventions.
    - A JavaScript number is an exact rational ([Q]); rounding is outside the
      model.  Counters, indices and lengths are [nat], the mip level count is
      [Z] (the constructor subtracts from it).
    - [undefined] is [None].  An array is a list of optional elements, a hole
      being [None]; reading past the end gives [None] and writing past the
      end extends the array, as in JavaScript.
    - Objects that are shared and mutated through several references
      (compute commands, textures, the counter captured by the convolution
      callbacks) live in stores of the [World]; a reference is an index into
      its store and allocation appends.  *)

From Stdlib Require Import QArith Qabs Qminmax Qpower Lqa ZArith Lia.
From stdpp Require Import base list.

Local Open Scope nat_scope.

(** ** Collaborators that are not part of the file under study *)

Module CesiumMath.

Definition EPSILON8 : Q := 1 # 100000000.

(** Modelled from the spec: [CesiumMath.equalsEpsilon] of [Core/Math.js],
    which is not among the sources.  The spec compares "with an epsilon
    tolerance": two numbers agree when their difference is at most the
    absolute tolerance, or at most the relative tolerance scaled by the
    larger magnitude. *)
Definition equalsEpsilon (left right relativeEpsilon absoluteEpsilon : Q) : bool :=
  let absDiff := Qabs (left - right) in
  Qle_bool absDiff absoluteEpsilon
  || Qle_bool absDiff (relativeEpsilon * Qmax (Qabs left) (Qabs right)).

End CesiumMath.

Module Cartesian2.
Record t : Type := Build { x : Q; y : Q }.
End Cartesian2.

Module Cartesian3.

Record t : Type := Build { x : Q; y : Q; z : Q }.

(** Modelled from the spec: [Cartesian3.equalsEpsilon] of
    [Core/Cartesian3.js], which is not among the sources.  The position is
    "compared with epsilon tolerance against the previous value": two
    present positions agree when every coordinate does.  The setter passes
    one tolerance, which serves as relative and absolute.  Of an absent
    position the spec says nothing: here two absent positions agree and an
    absent and a present one do not, and what is proved of the setter at an
    absent position is proved for a comparison given as a parameter
    ([position_set_by]) and not from these arms. *)
Definition equalsEpsilon (left right : option t) (epsilon : Q) : bool :=
  match left, right with
  | None, None => true
  | Some l, Some r =>
      CesiumMath.equalsEpsilon (x l) (x r) epsilon epsilon
      && CesiumMath.equalsEpsilon (y l) (y r) epsilon epsilon
      && CesiumMath.equalsEpsilon (z l) (z r) epsilon epsilon
  | _, _ => false
  end.

(** The square of the distance |p - q|. *)
Definition distanceSquared (p q : t) : Q :=
  (x p - x q) * (x p - x q) + (y p - y q) * (y p - y q)
  + (z p - z q) * (z p - z q).

(** Modelled from the spec: [Cartesian3.unpack] of [Core/Cartesian3.js],
    which is not among the sources: the vector made of the three
    consecutive array elements from [startingIndex] on ("each texel's first
    three channels").  Where the array is too short there is no vector of
    numbers to give, and the result is [None]. *)
Definition unpack (array : list Q) (startingIndex : nat) : option t :=
  match array !! startingIndex, array !! (startingIndex + 1),
        array !! (startingIndex + 2) with
  | Some a, Some b, Some c => Some (Build a b c)
  | _, _, _ => None
  end.

End Cartesian3.

Module JulianDate.

(** Modelled from the spec: [JulianDate] of [Core/JulianDate.js], which is
    not among the sources.  A date is the number of seconds that separates
    it from the default-constructed date, so that the difference of two
    dates in seconds is a subtraction. *)
Definition t : Type := Q.

(** [new JulianDate()] *)
Definition new : t := 0%Q.

Definition secondsDifference (left right : t) : Q := (left - right)%Q.

(** Modelled from the spec: [JulianDate.equalsEpsilon]: the two dates
    differ by at most [epsilon] seconds ("differs ... by more than the
    staleness threshold" is its negation). *)
Definition equalsEpsilon (left right : t) (epsilon : Q) : bool :=
  Qle_bool (Qabs (secondsDifference left right)) epsilon.

(** [JulianDate.clone(date, result)] *)
Definition clone (date : t) : t := date.

End JulianDate.

(** ** Arrays *)

(** [a[i]] *)
Definition array_get {A : Type} (a : list (option A)) (i : nat) : option A :=
  mjoin (a !! i).

(** [a[i] = v] *)
Definition array_set {A : Type} (a : list (option A)) (i : nat) (v : option A)
  : list (option A) :=
  if decide (i < length a) then <[i := v]> a
  else a ++ replicate (i - length a) None ++ [v].

(** [new Array(n)] *)
Definition new_Array {A : Type} (n : nat) : list (option A) := replicate n None.

(** [a.some(defined)] *)
Definition some_defined {A : Type} (a : list (option A)) : bool :=
  existsb (fun e => match e with Some _ => true | None => false end) a.

(** ** Renderer objects *)

Inductive Face : Type :=
  PositiveX | NegativeX | PositiveY | NegativeY | PositiveZ | NegativeZ.

Inductive PixelDatatype : Type := UNSIGNED_BYTE | FLOAT.

Inductive TextureMinificationFilter : Type := LINEAR_MIPMAP_LINEAR.

Module Texture.
(** A texture object: what [new Texture] is given, and whether [destroy]
    has released it. *)
Record t : Type := Build {
  width : Q;
  height : Q;
  pixelDatatype : PixelDatatype;
  destroyed : bool
}.
End Texture.

Module CubeMap.

(** The cube map object: its dimensions, how often [generateMipmap] ran,
    the face and mip level of every copy made into it, and the filter of
    the sampler installed on it, if any. *)
Record t : Type := Build {
  width : Q;
  height : Q;
  mipmapsGenerated : nat;
  copies : list (Face * nat);
  sampler : option TextureMinificationFilter
}.

(** Modelled from the spec: [CubeMap.faceNames] of [Renderer/CubeMap.js],
    which is not among the sources: the six faces of a cube map, in the
    order in which the stages walk them. *)
Definition faceNames : list Face :=
  [PositiveX; NegativeX; PositiveY; NegativeY; PositiveZ; NegativeZ].

(** [CubeMap.faceNames.entries()] *)
Definition entries : list (nat * Face) := imap pair faceNames.

Definition new (w h : Q) : t := Build w h 0 [] None.

Definition generateMipmap (c : t) : t :=
  Build (width c) (height c) (S (mipmapsGenerated c)) (copies c) (sampler c).

Definition copyFace (face : Face) (level : nat) (c : t) : t :=
  Build (width c) (height c) (mipmapsGenerated c) (copies c ++ [(face, level)])
        (sampler c).

Definition set_sampler (f : TextureMinificationFilter) (c : t) : t :=
  Build (width c) (height c) (mipmapsGenerated c) (copies c) (Some f).

End CubeMap.

Definition CommandRef : Type := nat.
Definition TextureRef : Type := nat.
Definition CounterRef : Type := nat.

(** The opaque objects the manager caches. *)
Inductive ShaderSource : Type := RadianceMapShader | IrradianceMapShader.
Inductive ShaderProgram : Type := ConvolveSpecularMapProgram.
Inductive VertexArray : Type := FaceVertexArray (face : Face).

(** The [uniformMap] of a command.  The atmosphere and frame transform of the
    radiance commands come from the frame state and the ellipsoid and are
    left out. *)
Inductive UniformMap : Type :=
| RadianceUniforms (u_faceDirection : Face) (u_positionWC : option Cartesian3.t)
| ConvolutionUniforms (u_roughness : Q) (u_faceDirection : Face)
| IrradianceUniforms.

(** The [postExecute] closure of a command, by the function that built it,
    with the variables it captured. *)
Inductive PostExecute : Type :=
| RadiancePostExecute (index : nat) (face : Face)
| ConvolutionPostExecute (facesCopied : CounterRef) (index : nat)
                         (texture : TextureRef) (face : Face) (level : nat)
| IrradiancePostExecute.

Module ComputeCommand.
Record t : Type := Build {
  outputTexture : TextureRef;
  uniformMap : UniformMap;
  persists : bool;
  canceled : bool;
  postExecute : PostExecute
}.

(** [command.canceled = true] *)
Definition cancel (c : t) : t :=
  Build (outputTexture c) (uniformMap c) (persists c) true (postExecute c).
End ComputeCommand.

(** ** The manager object *)

(** The fields the constructor creates, under their own names, and
    [_irradianceMapComputeCommand], a property that [_reset] and [destroy]
    read and that no function of the file assigns. *)
Record Manager : Type := Build_Manager {
  _position : option Cartesian3.t;
  _radianceCommandsDirty : bool;
  _radianceMapDirty : bool;
  _convolutionsCommandsDirty : bool;
  _irradianceCommandDirty : bool;
  _irradianceTextureDirty : bool;
  _sphericalHarmonicCoefficientsDirty : bool;
  _mipmapLevels : Z;
  _radianceMapComputeCommands : list (option CommandRef);
  _convolutionComputeCommands : list (option CommandRef);
  _irradianceComputeCommand : option CommandRef;
  _irradianceMapComputeCommand : option CommandRef;
  _radianceMapFS : option ShaderSource;
  _irradianceMapFS : option ShaderSource;
  _convolveSP : option ShaderProgram;
  _va : option VertexArray;
  _radianceMapTextures : list (option TextureRef);
  _specularMapTextures : list (option TextureRef);
  _radianceCubeMap : option CubeMap.t;
  _irradianceMapTexture : option TextureRef;
  _sphericalHarmonicCoefficients : list (option Cartesian3.t);
  _lastTime : JulianDate.t;
  _textureDimensions : Cartesian2.t;
  enabled : bool;
  maximumSecondsDifference : Q
}.

Definition set_position (v : option Cartesian3.t) (m : Manager) : Manager :=
  {| _position := v; _radianceCommandsDirty := _radianceCommandsDirty m;
     _radianceMapDirty := _radianceMapDirty m;
     _convolutionsCommandsDirty := _convolutionsCommandsDirty m;
     _irradianceCommandDirty := _irradianceCommandDirty m;
     _irradianceTextureDirty := _irradianceTextureDirty m;
     _sphericalHarmonicCoefficientsDirty := _sphericalHarmonicCoefficientsDirty m;
     _mipmapLevels := _mipmapLevels m;
     _radianceMapComputeCommands := _radianceMapComputeCommands m;
     _convolutionComputeCommands := _convolutionComputeCommands m;
     _irradianceComputeCommand := _irradianceComputeCommand m;
     _irradianceMapComputeCommand := _irradianceMapComputeCommand m;
     _radianceMapFS := _radianceMapFS m; _irradianceMapFS := _irradianceMapFS m;
     _convolveSP := _convolveSP m; _va := _va m; _radianceMapTextures := _radianceMapTextures m;
     _specularMapTextures := _specularMapTextures m; _radianceCubeMap := _radianceCubeMap m;
     _irradianceMapTexture := _irradianceMapTexture m;
     _sphericalHarmonicCoefficients := _sphericalHarmonicCoefficients m; _lastTime := _lastTime m;
     _textureDimensions := _textureDimensions m; enabled := enabled m;
     maximumSecondsDifference := maximumSecondsDifference m |}.

Definition set_radianceCommandsDirty (v : bool) (m : Manager) : Manager :=
  {| _position := _position m; _radianceCommandsDirty := v;
     _radianceMapDirty := _radianceMapDirty m;
     _convolutionsCommandsDirty := _convolutionsCommandsDirty m;
     _irradianceCommandDirty := _irradianceCommandDirty m;
     _irradianceTextureDirty := _irradianceTextureDirty m;
     _sphericalHarmonicCoefficientsDirty := _sphericalHarmonicCoefficientsDirty m;
     _mipmapLevels := _mipmapLevels m;
     _radianceMapComputeCommands := _radianceMapComputeCommands m;
     _convolutionComputeCommands := _convolutionComputeCommands m;
     _irradianceComputeCommand := _irradianceComputeCommand m;
     _irradianceMapComputeCommand := _irradianceMapComputeCommand m;
     _radianceMapFS := _radianceMapFS m; _irradianceMapFS := _irradianceMapFS m;
     _convolveSP := _convolveSP m; _va := _va m; _radianceMapTextures := _radianceMapTextures m;
     _specularMapTextures := _specularMapTextures m; _radianceCubeMap := _radianceCubeMap m;
     _irradianceMapTexture := _irradianceMapTexture m;
     _sphericalHarmonicCoefficients := _sphericalHarmonicCoefficients m; _lastTime := _lastTime m;
     _textureDimensions := _textureDimensions m; enabled := enabled m;
     maximumSecondsDifference := maximumSecondsDifference m |}.

Definition set_radianceMapDirty (v : bool) (m : Manager) : Manager :=
  {| _position := _position m; _radianceCommandsDirty := _radianceCommandsDirty m;
     _radianceMapDirty := v; _convolutionsCommandsDirty := _convolutionsCommandsDirty m;
     _irradianceCommandDirty := _irradianceCommandDirty m;
     _irradianceTextureDirty := _irradianceTextureDirty m;
     _sphericalHarmonicCoefficientsDirty := _sphericalHarmonicCoefficientsDirty m;
     _mipmapLevels := _mipmapLevels m;
     _radianceMapComputeCommands := _radianceMapComputeCommands m;
     _convolutionComputeCommands := _convolutionComputeCommands m;
     _irradianceComputeCommand := _irradianceComputeCommand m;
     _irradianceMapComputeCommand := _irradianceMapComputeCommand m;
     _radianceMapFS := _radianceMapFS m; _irradianceMapFS := _irradianceMapFS m;
     _convolveSP := _convolveSP m; _va := _va m; _radianceMapTextures := _radianceMapTextures m;
     _specularMapTextures := _specularMapTextures m; _radianceCubeMap := _radianceCubeMap m;
     _irradianceMapTexture := _irradianceMapTexture m;
     _sphericalHarmonicCoefficients := _sphericalHarmonicCoefficients m; _lastTime := _lastTime m;
     _textureDimensions := _textureDimensions m; enabled := enabled m;
     maximumSecondsDifference := maximumSecondsDifference m |}.

Definition set_convolutionsCommandsDirty (v : bool) (m : Manager) : Manager :=
  {| _position := _position m; _radianceCommandsDirty := _radianceCommandsDirty m;
     _radianceMapDirty := _radianceMapDirty m; _convolutionsCommandsDirty := v;
     _irradianceCommandDirty := _irradianceCommandDirty m;
     _irradianceTextureDirty := _irradianceTextureDirty m;
     _sphericalHarmonicCoefficientsDirty := _sphericalHarmonicCoefficientsDirty m;
     _mipmapLevels := _mipmapLevels m;
     _radianceMapComputeCommands := _radianceMapComputeCommands m;
     _convolutionComputeCommands := _convolutionComputeCommands m;
     _irradianceComputeCommand := _irradianceComputeCommand m;
     _irradianceMapComputeCommand := _irradianceMapComputeCommand m;
     _radianceMapFS := _radianceMapFS m; _irradianceMapFS := _irradianceMapFS m;
     _convolveSP := _convolveSP m; _va := _va m; _radianceMapTextures := _radianceMapTextures m;
     _specularMapTextures := _specularMapTextures m; _radianceCubeMap := _radianceCubeMap m;
     _irradianceMapTexture := _irradianceMapTexture m;
     _sphericalHarmonicCoefficients := _sphericalHarmonicCoefficients m; _lastTime := _lastTime m;
     _textureDimensions := _textureDimensions m; enabled := enabled m;
     maximumSecondsDifference := maximumSecondsDifference m |}.

Definition set_irradianceCommandDirty (v : bool) (m : Manager) : Manager :=
  {| _position := _position m; _radianceCommandsDirty := _radianceCommandsDirty m;
     _radianceMapDirty := _radianceMapDirty m;
     _convolutionsCommandsDirty := _convolutionsCommandsDirty m; _irradianceCommandDirty := v;
     _irradianceTextureDirty := _irradianceTextureDirty m;
     _sphericalHarmonicCoefficientsDirty := _sphericalHarmonicCoefficientsDirty m;
     _mipmapLevels := _mipmapLevels m;
     _radianceMapComputeCommands := _radianceMapComputeCommands m;
     _convolutionComputeCommands := _convolutionComputeCommands m;
     _irradianceComputeCommand := _irradianceComputeCommand m;
     _irradianceMapComputeCommand := _irradianceMapComputeCommand m;
     _radianceMapFS := _radianceMapFS m; _irradianceMapFS := _irradianceMapFS m;
     _convolveSP := _convolveSP m; _va := _va m; _radianceMapTextures := _radianceMapTextures m;
     _specularMapTextures := _specularMapTextures m; _radianceCubeMap := _radianceCubeMap m;
     _irradianceMapTexture := _irradianceMapTexture m;
     _sphericalHarmonicCoefficients := _sphericalHarmonicCoefficients m; _lastTime := _lastTime m;
     _textureDimensions := _textureDimensions m; enabled := enabled m;
     maximumSecondsDifference := maximumSecondsDifference m |}.

Definition set_irradianceTextureDirty (v : bool) (m : Manager) : Manager :=
  {| _position := _position m; _radianceCommandsDirty := _radianceCommandsDirty m;
     _radianceMapDirty := _radianceMapDirty m;
     _convolutionsCommandsDirty := _convolutionsCommandsDirty m;
     _irradianceCommandDirty := _irradianceCommandDirty m; _irradianceTextureDirty := v;
     _sphericalHarmonicCoefficientsDirty := _sphericalHarmonicCoefficientsDirty m;
     _mipmapLevels := _mipmapLevels m;
     _radianceMapComputeCommands := _radianceMapComputeCommands m;
     _convolutionComputeCommands := _convolutionComputeCommands m;
     _irradianceComputeCommand := _irradianceComputeCommand m;
     _irradianceMapComputeCommand := _irradianceMapComputeCommand m;
     _radianceMapFS := _radianceMapFS m; _irradianceMapFS := _irradianceMapFS m;
     _convolveSP := _convolveSP m; _va := _va m; _radianceMapTextures := _radianceMapTextures m;
     _specularMapTextures := _specularMapTextures m; _radianceCubeMap := _radianceCubeMap m;
     _irradianceMapTexture := _irradianceMapTexture m;
     _sphericalHarmonicCoefficients := _sphericalHarmonicCoefficients m; _lastTime := _lastTime m;
     _textureDimensions := _textureDimensions m; enabled := enabled m;
     maximumSecondsDifference := maximumSecondsDifference m |}.

Definition set_sphericalHarmonicCoefficientsDirty (v : bool) (m : Manager) : Manager :=
  {| _position := _position m; _radianceCommandsDirty := _radianceCommandsDirty m;
     _radianceMapDirty := _radianceMapDirty m;
     _convolutionsCommandsDirty := _convolutionsCommandsDirty m;
     _irradianceCommandDirty := _irradianceCommandDirty m;
     _irradianceTextureDirty := _irradianceTextureDirty m;
     _sphericalHarmonicCoefficientsDirty := v; _mipmapLevels := _mipmapLevels m;
     _radianceMapComputeCommands := _radianceMapComputeCommands m;
     _convolutionComputeCommands := _convolutionComputeCommands m;
     _irradianceComputeCommand := _irradianceComputeCommand m;
     _irradianceMapComputeCommand := _irradianceMapComputeCommand m;
     _radianceMapFS := _radianceMapFS m; _irradianceMapFS := _irradianceMapFS m;
     _convolveSP := _convolveSP m; _va := _va m; _radianceMapTextures := _radianceMapTextures m;
     _specularMapTextures := _specularMapTextures m; _radianceCubeMap := _radianceCubeMap m;
     _irradianceMapTexture := _irradianceMapTexture m;
     _sphericalHarmonicCoefficients := _sphericalHarmonicCoefficients m; _lastTime := _lastTime m;
     _textureDimensions := _textureDimensions m; enabled := enabled m;
     maximumSecondsDifference := maximumSecondsDifference m |}.

Definition set_radianceMapComputeCommands (v : list (option CommandRef)) (m : Manager) : Manager :=
  {| _position := _position m; _radianceCommandsDirty := _radianceCommandsDirty m;
     _radianceMapDirty := _radianceMapDirty m;
     _convolutionsCommandsDirty := _convolutionsCommandsDirty m;
     _irradianceCommandDirty := _irradianceCommandDirty m;
     _irradianceTextureDirty := _irradianceTextureDirty m;
     _sphericalHarmonicCoefficientsDirty := _sphericalHarmonicCoefficientsDirty m;
     _mipmapLevels := _mipmapLevels m; _radianceMapComputeCommands := v;
     _convolutionComputeCommands := _convolutionComputeCommands m;
     _irradianceComputeCommand := _irradianceComputeCommand m;
     _irradianceMapComputeCommand := _irradianceMapComputeCommand m;
     _radianceMapFS := _radianceMapFS m; _irradianceMapFS := _irradianceMapFS m;
     _convolveSP := _convolveSP m; _va := _va m; _radianceMapTextures := _radianceMapTextures m;
     _specularMapTextures := _specularMapTextures m; _radianceCubeMap := _radianceCubeMap m;
     _irradianceMapTexture := _irradianceMapTexture m;
     _sphericalHarmonicCoefficients := _sphericalHarmonicCoefficients m; _lastTime := _lastTime m;
     _textureDimensions := _textureDimensions m; enabled := enabled m;
     maximumSecondsDifference := maximumSecondsDifference m |}.

Definition set_convolutionComputeCommands (v : list (option CommandRef)) (m : Manager) : Manager :=
  {| _position := _position m; _radianceCommandsDirty := _radianceCommandsDirty m;
     _radianceMapDirty := _radianceMapDirty m;
     _convolutionsCommandsDirty := _convolutionsCommandsDirty m;
     _irradianceCommandDirty := _irradianceCommandDirty m;
     _irradianceTextureDirty := _irradianceTextureDirty m;
     _sphericalHarmonicCoefficientsDirty := _sphericalHarmonicCoefficientsDirty m;
     _mipmapLevels := _mipmapLevels m;
     _radianceMapComputeCommands := _radianceMapComputeCommands m;
     _convolutionComputeCommands := v; _irradianceComputeCommand := _irradianceComputeCommand m;
     _irradianceMapComputeCommand := _irradianceMapComputeCommand m;
     _radianceMapFS := _radianceMapFS m; _irradianceMapFS := _irradianceMapFS m;
     _convolveSP := _convolveSP m; _va := _va m; _radianceMapTextures := _radianceMapTextures m;
     _specularMapTextures := _specularMapTextures m; _radianceCubeMap := _radianceCubeMap m;
     _irradianceMapTexture := _irradianceMapTexture m;
     _sphericalHarmonicCoefficients := _sphericalHarmonicCoefficients m; _lastTime := _lastTime m;
     _textureDimensions := _textureDimensions m; enabled := enabled m;
     maximumSecondsDifference := maximumSecondsDifference m |}.

Definition set_irradianceComputeCommand (v : option CommandRef) (m : Manager) : Manager :=
  {| _position := _position m; _radianceCommandsDirty := _radianceCommandsDirty m;
     _radianceMapDirty := _radianceMapDirty m;
     _convolutionsCommandsDirty := _convolutionsCommandsDirty m;
     _irradianceCommandDirty := _irradianceCommandDirty m;
     _irradianceTextureDirty := _irradianceTextureDirty m;
     _sphericalHarmonicCoefficientsDirty := _sphericalHarmonicCoefficientsDirty m;
     _mipmapLevels := _mipmapLevels m;
     _radianceMapComputeCommands := _radianceMapComputeCommands m;
     _convolutionComputeCommands := _convolutionComputeCommands m; _irradianceComputeCommand := v;
     _irradianceMapComputeCommand := _irradianceMapComputeCommand m;
     _radianceMapFS := _radianceMapFS m; _irradianceMapFS := _irradianceMapFS m;
     _convolveSP := _convolveSP m; _va := _va m; _radianceMapTextures := _radianceMapTextures m;
     _specularMapTextures := _specularMapTextures m; _radianceCubeMap := _radianceCubeMap m;
     _irradianceMapTexture := _irradianceMapTexture m;
     _sphericalHarmonicCoefficients := _sphericalHarmonicCoefficients m; _lastTime := _lastTime m;
     _textureDimensions := _textureDimensions m; enabled := enabled m;
     maximumSecondsDifference := maximumSecondsDifference m |}.

Definition set_irradianceMapComputeCommand (v : option CommandRef) (m : Manager) : Manager :=
  {| _position := _position m; _radianceCommandsDirty := _radianceCommandsDirty m;
     _radianceMapDirty := _radianceMapDirty m;
     _convolutionsCommandsDirty := _convolutionsCommandsDirty m;
     _irradianceCommandDirty := _irradianceCommandDirty m;
     _irradianceTextureDirty := _irradianceTextureDirty m;
     _sphericalHarmonicCoefficientsDirty := _sphericalHarmonicCoefficientsDirty m;
     _mipmapLevels := _mipmapLevels m;
     _radianceMapComputeCommands := _radianceMapComputeCommands m;
     _convolutionComputeCommands := _convolutionComputeCommands m;
     _irradianceComputeCommand := _irradianceComputeCommand m; _irradianceMapComputeCommand := v;
     _radianceMapFS := _radianceMapFS m; _irradianceMapFS := _irradianceMapFS m;
     _convolveSP := _convolveSP m; _va := _va m; _radianceMapTextures := _radianceMapTextures m;
     _specularMapTextures := _specularMapTextures m; _radianceCubeMap := _radianceCubeMap m;
     _irradianceMapTexture := _irradianceMapTexture m;
     _sphericalHarmonicCoefficients := _sphericalHarmonicCoefficients m; _lastTime := _lastTime m;
     _textureDimensions := _textureDimensions m; enabled := enabled m;
     maximumSecondsDifference := maximumSecondsDifference m |}.

Definition set_radianceMapFS (v : option ShaderSource) (m : Manager) : Manager :=
  {| _position := _position m; _radianceCommandsDirty := _radianceCommandsDirty m;
     _radianceMapDirty := _radianceMapDirty m;
     _convolutionsCommandsDirty := _convolutionsCommandsDirty m;
     _irradianceCommandDirty := _irradianceCommandDirty m;
     _irradianceTextureDirty := _irradianceTextureDirty m;
     _sphericalHarmonicCoefficientsDirty := _sphericalHarmonicCoefficientsDirty m;
     _mipmapLevels := _mipmapLevels m;
     _radianceMapComputeCommands := _radianceMapComputeCommands m;
     _convolutionComputeCommands := _convolutionComputeCommands m;
     _irradianceComputeCommand := _irradianceComputeCommand m;
     _irradianceMapComputeCommand := _irradianceMapComputeCommand m; _radianceMapFS := v;
     _irradianceMapFS := _irradianceMapFS m; _convolveSP := _convolveSP m; _va := _va m;
     _radianceMapTextures := _radianceMapTextures m;
     _specularMapTextures := _specularMapTextures m; _radianceCubeMap := _radianceCubeMap m;
     _irradianceMapTexture := _irradianceMapTexture m;
     _sphericalHarmonicCoefficients := _sphericalHarmonicCoefficients m; _lastTime := _lastTime m;
     _textureDimensions := _textureDimensions m; enabled := enabled m;
     maximumSecondsDifference := maximumSecondsDifference m |}.

Definition set_irradianceMapFS (v : option ShaderSource) (m : Manager) : Manager :=
  {| _position := _position m; _radianceCommandsDirty := _radianceCommandsDirty m;
     _radianceMapDirty := _radianceMapDirty m;
     _convolutionsCommandsDirty := _convolutionsCommandsDirty m;
     _irradianceCommandDirty := _irradianceCommandDirty m;
     _irradianceTextureDirty := _irradianceTextureDirty m;
     _sphericalHarmonicCoefficientsDirty := _sphericalHarmonicCoefficientsDirty m;
     _mipmapLevels := _mipmapLevels m;
     _radianceMapComputeCommands := _radianceMapComputeCommands m;
     _convolutionComputeCommands := _convolutionComputeCommands m;
     _irradianceComputeCommand := _irradianceComputeCommand m;
     _irradianceMapComputeCommand := _irradianceMapComputeCommand m;
     _radianceMapFS := _radianceMapFS m; _irradianceMapFS := v; _convolveSP := _convolveSP m;
     _va := _va m; _radianceMapTextures := _radianceMapTextures m;
     _specularMapTextures := _specularMapTextures m; _radianceCubeMap := _radianceCubeMap m;
     _irradianceMapTexture := _irradianceMapTexture m;
     _sphericalHarmonicCoefficients := _sphericalHarmonicCoefficients m; _lastTime := _lastTime m;
     _textureDimensions := _textureDimensions m; enabled := enabled m;
     maximumSecondsDifference := maximumSecondsDifference m |}.

Definition set_convolveSP (v : option ShaderProgram) (m : Manager) : Manager :=
  {| _position := _position m; _radianceCommandsDirty := _radianceCommandsDirty m;
     _radianceMapDirty := _radianceMapDirty m;
     _convolutionsCommandsDirty := _convolutionsCommandsDirty m;
     _irradianceCommandDirty := _irradianceCommandDirty m;
     _irradianceTextureDirty := _irradianceTextureDirty m;
     _sphericalHarmonicCoefficientsDirty := _sphericalHarmonicCoefficientsDirty m;
     _mipmapLevels := _mipmapLevels m;
     _radianceMapComputeCommands := _radianceMapComputeCommands m;
     _convolutionComputeCommands := _convolutionComputeCommands m;
     _irradianceComputeCommand := _irradianceComputeCommand m;
     _irradianceMapComputeCommand := _irradianceMapComputeCommand m;
     _radianceMapFS := _radianceMapFS m; _irradianceMapFS := _irradianceMapFS m; _convolveSP := v;
     _va := _va m; _radianceMapTextures := _radianceMapTextures m;
     _specularMapTextures := _specularMapTextures m; _radianceCubeMap := _radianceCubeMap m;
     _irradianceMapTexture := _irradianceMapTexture m;
     _sphericalHarmonicCoefficients := _sphericalHarmonicCoefficients m; _lastTime := _lastTime m;
     _textureDimensions := _textureDimensions m; enabled := enabled m;
     maximumSecondsDifference := maximumSecondsDifference m |}.

Definition set_va (v : option VertexArray) (m : Manager) : Manager :=
  {| _position := _position m; _radianceCommandsDirty := _radianceCommandsDirty m;
     _radianceMapDirty := _radianceMapDirty m;
     _convolutionsCommandsDirty := _convolutionsCommandsDirty m;
     _irradianceCommandDirty := _irradianceCommandDirty m;
     _irradianceTextureDirty := _irradianceTextureDirty m;
     _sphericalHarmonicCoefficientsDirty := _sphericalHarmonicCoefficientsDirty m;
     _mipmapLevels := _mipmapLevels m;
     _radianceMapComputeCommands := _radianceMapComputeCommands m;
     _convolutionComputeCommands := _convolutionComputeCommands m;
     _irradianceComputeCommand := _irradianceComputeCommand m;
     _irradianceMapComputeCommand := _irradianceMapComputeCommand m;
     _radianceMapFS := _radianceMapFS m; _irradianceMapFS := _irradianceMapFS m;
     _convolveSP := _convolveSP m; _va := v; _radianceMapTextures := _radianceMapTextures m;
     _specularMapTextures := _specularMapTextures m; _radianceCubeMap := _radianceCubeMap m;
     _irradianceMapTexture := _irradianceMapTexture m;
     _sphericalHarmonicCoefficients := _sphericalHarmonicCoefficients m; _lastTime := _lastTime m;
     _textureDimensions := _textureDimensions m; enabled := enabled m;
     maximumSecondsDifference := maximumSecondsDifference m |}.

Definition set_radianceMapTextures (v : list (option TextureRef)) (m : Manager) : Manager :=
  {| _position := _position m; _radianceCommandsDirty := _radianceCommandsDirty m;
     _radianceMapDirty := _radianceMapDirty m;
     _convolutionsCommandsDirty := _convolutionsCommandsDirty m;
     _irradianceCommandDirty := _irradianceCommandDirty m;
     _irradianceTextureDirty := _irradianceTextureDirty m;
     _sphericalHarmonicCoefficientsDirty := _sphericalHarmonicCoefficientsDirty m;
     _mipmapLevels := _mipmapLevels m;
     _radianceMapComputeCommands := _radianceMapComputeCommands m;
     _convolutionComputeCommands := _convolutionComputeCommands m;
     _irradianceComputeCommand := _irradianceComputeCommand m;
     _irradianceMapComputeCommand := _irradianceMapComputeCommand m;
     _radianceMapFS := _radianceMapFS m; _irradianceMapFS := _irradianceMapFS m;
     _convolveSP := _convolveSP m; _va := _va m; _radianceMapTextures := v;
     _specularMapTextures := _specularMapTextures m; _radianceCubeMap := _radianceCubeMap m;
     _irradianceMapTexture := _irradianceMapTexture m;
     _sphericalHarmonicCoefficients := _sphericalHarmonicCoefficients m; _lastTime := _lastTime m;
     _textureDimensions := _textureDimensions m; enabled := enabled m;
     maximumSecondsDifference := maximumSecondsDifference m |}.

Definition set_specularMapTextures (v : list (option TextureRef)) (m : Manager) : Manager :=
  {| _position := _position m; _radianceCommandsDirty := _radianceCommandsDirty m;
     _radianceMapDirty := _radianceMapDirty m;
     _convolutionsCommandsDirty := _convolutionsCommandsDirty m;
     _irradianceCommandDirty := _irradianceCommandDirty m;
     _irradianceTextureDirty := _irradianceTextureDirty m;
     _sphericalHarmonicCoefficientsDirty := _sphericalHarmonicCoefficientsDirty m;
     _mipmapLevels := _mipmapLevels m;
     _radianceMapComputeCommands := _radianceMapComputeCommands m;
     _convolutionComputeCommands := _convolutionComputeCommands m;
     _irradianceComputeCommand := _irradianceComputeCommand m;
     _irradianceMapComputeCommand := _irradianceMapComputeCommand m;
     _radianceMapFS := _radianceMapFS m; _irradianceMapFS := _irradianceMapFS m;
     _convolveSP := _convolveSP m; _va := _va m; _radianceMapTextures := _radianceMapTextures m;
     _specularMapTextures := v; _radianceCubeMap := _radianceCubeMap m;
     _irradianceMapTexture := _irradianceMapTexture m;
     _sphericalHarmonicCoefficients := _sphericalHarmonicCoefficients m; _lastTime := _lastTime m;
     _textureDimensions := _textureDimensions m; enabled := enabled m;
     maximumSecondsDifference := maximumSecondsDifference m |}.

Definition set_radianceCubeMap (v : option CubeMap.t) (m : Manager) : Manager :=
  {| _position := _position m; _radianceCommandsDirty := _radianceCommandsDirty m;
     _radianceMapDirty := _radianceMapDirty m;
     _convolutionsCommandsDirty := _convolutionsCommandsDirty m;
     _irradianceCommandDirty := _irradianceCommandDirty m;
     _irradianceTextureDirty := _irradianceTextureDirty m;
     _sphericalHarmonicCoefficientsDirty := _sphericalHarmonicCoefficientsDirty m;
     _mipmapLevels := _mipmapLevels m;
     _radianceMapComputeCommands := _radianceMapComputeCommands m;
     _convolutionComputeCommands := _convolutionComputeCommands m;
     _irradianceComputeCommand := _irradianceComputeCommand m;
     _irradianceMapComputeCommand := _irradianceMapComputeCommand m;
     _radianceMapFS := _radianceMapFS m; _irradianceMapFS := _irradianceMapFS m;
     _convolveSP := _convolveSP m; _va := _va m; _radianceMapTextures := _radianceMapTextures m;
     _specularMapTextures := _specularMapTextures m; _radianceCubeMap := v;
     _irradianceMapTexture := _irradianceMapTexture m;
     _sphericalHarmonicCoefficients := _sphericalHarmonicCoefficients m; _lastTime := _lastTime m;
     _textureDimensions := _textureDimensions m; enabled := enabled m;
     maximumSecondsDifference := maximumSecondsDifference m |}.

Definition set_irradianceMapTexture (v : option TextureRef) (m : Manager) : Manager :=
  {| _position := _position m; _radianceCommandsDirty := _radianceCommandsDirty m;
     _radianceMapDirty := _radianceMapDirty m;
     _convolutionsCommandsDirty := _convolutionsCommandsDirty m;
     _irradianceCommandDirty := _irradianceCommandDirty m;
     _irradianceTextureDirty := _irradianceTextureDirty m;
     _sphericalHarmonicCoefficientsDirty := _sphericalHarmonicCoefficientsDirty m;
     _mipmapLevels := _mipmapLevels m;
     _radianceMapComputeCommands := _radianceMapComputeCommands m;
     _convolutionComputeCommands := _convolutionComputeCommands m;
     _irradianceComputeCommand := _irradianceComputeCommand m;
     _irradianceMapComputeCommand := _irradianceMapComputeCommand m;
     _radianceMapFS := _radianceMapFS m; _irradianceMapFS := _irradianceMapFS m;
     _convolveSP := _convolveSP m; _va := _va m; _radianceMapTextures := _radianceMapTextures m;
     _specularMapTextures := _specularMapTextures m; _radianceCubeMap := _radianceCubeMap m;
     _irradianceMapTexture := v;
     _sphericalHarmonicCoefficients := _sphericalHarmonicCoefficients m; _lastTime := _lastTime m;
     _textureDimensions := _textureDimensions m; enabled := enabled m;
     maximumSecondsDifference := maximumSecondsDifference m |}.

Definition set_sphericalHarmonicCoefficients (v : list (option Cartesian3.t)) (m : Manager) : Manager :=
  {| _position := _position m; _radianceCommandsDirty := _radianceCommandsDirty m;
     _radianceMapDirty := _radianceMapDirty m;
     _convolutionsCommandsDirty := _convolutionsCommandsDirty m;
     _irradianceCommandDirty := _irradianceCommandDirty m;
     _irradianceTextureDirty := _irradianceTextureDirty m;
     _sphericalHarmonicCoefficientsDirty := _sphericalHarmonicCoefficientsDirty m;
     _mipmapLevels := _mipmapLevels m;
     _radianceMapComputeCommands := _radianceMapComputeCommands m;
     _convolutionComputeCommands := _convolutionComputeCommands m;
     _irradianceComputeCommand := _irradianceComputeCommand m;
     _irradianceMapComputeCommand := _irradianceMapComputeCommand m;
     _radianceMapFS := _radianceMapFS m; _irradianceMapFS := _irradianceMapFS m;
     _convolveSP := _convolveSP m; _va := _va m; _radianceMapTextures := _radianceMapTextures m;
     _specularMapTextures := _specularMapTextures m; _radianceCubeMap := _radianceCubeMap m;
     _irradianceMapTexture := _irradianceMapTexture m; _sphericalHarmonicCoefficients := v;
     _lastTime := _lastTime m; _textureDimensions := _textureDimensions m; enabled := enabled m;
     maximumSecondsDifference := maximumSecondsDifference m |}.

Definition set_lastTime (v : JulianDate.t) (m : Manager) : Manager :=
  {| _position := _position m; _radianceCommandsDirty := _radianceCommandsDirty m;
     _radianceMapDirty := _radianceMapDirty m;
     _convolutionsCommandsDirty := _convolutionsCommandsDirty m;
     _irradianceCommandDirty := _irradianceCommandDirty m;
     _irradianceTextureDirty := _irradianceTextureDirty m;
     _sphericalHarmonicCoefficientsDirty := _sphericalHarmonicCoefficientsDirty m;
     _mipmapLevels := _mipmapLevels m;
     _radianceMapComputeCommands := _radianceMapComputeCommands m;
     _convolutionComputeCommands := _convolutionComputeCommands m;
     _irradianceComputeCommand := _irradianceComputeCommand m;
     _irradianceMapComputeCommand := _irradianceMapComputeCommand m;
     _radianceMapFS := _radianceMapFS m; _irradianceMapFS := _irradianceMapFS m;
     _convolveSP := _convolveSP m; _va := _va m; _radianceMapTextures := _radianceMapTextures m;
     _specularMapTextures := _specularMapTextures m; _radianceCubeMap := _radianceCubeMap m;
     _irradianceMapTexture := _irradianceMapTexture m;
     _sphericalHarmonicCoefficients := _sphericalHarmonicCoefficients m; _lastTime := v;
     _textureDimensions := _textureDimensions m; enabled := enabled m;
     maximumSecondsDifference := maximumSecondsDifference m |}.

Definition set_enabled (v : bool) (m : Manager) : Manager :=
  {| _position := _position m; _radianceCommandsDirty := _radianceCommandsDirty m;
     _radianceMapDirty := _radianceMapDirty m;
     _convolutionsCommandsDirty := _convolutionsCommandsDirty m;
     _irradianceCommandDirty := _irradianceCommandDirty m;
     _irradianceTextureDirty := _irradianceTextureDirty m;
     _sphericalHarmonicCoefficientsDirty := _sphericalHarmonicCoefficientsDirty m;
     _mipmapLevels := _mipmapLevels m;
     _radianceMapComputeCommands := _radianceMapComputeCommands m;
     _convolutionComputeCommands := _convolutionComputeCommands m;
     _irradianceComputeCommand := _irradianceComputeCommand m;
     _irradianceMapComputeCommand := _irradianceMapComputeCommand m;
     _radianceMapFS := _radianceMapFS m; _irradianceMapFS := _irradianceMapFS m;
     _convolveSP := _convolveSP m; _va := _va m; _radianceMapTextures := _radianceMapTextures m;
     _specularMapTextures := _specularMapTextures m; _radianceCubeMap := _radianceCubeMap m;
     _irradianceMapTexture := _irradianceMapTexture m;
     _sphericalHarmonicCoefficients := _sphericalHarmonicCoefficients m; _lastTime := _lastTime m;
     _textureDimensions := _textureDimensions m; enabled := v;
     maximumSecondsDifference := maximumSecondsDifference m |}.

Definition set_maximumSecondsDifference (v : Q) (m : Manager) : Manager :=
  {| _position := _position m; _radianceCommandsDirty := _radianceCommandsDirty m;
     _radianceMapDirty := _radianceMapDirty m;
     _convolutionsCommandsDirty := _convolutionsCommandsDirty m;
     _irradianceCommandDirty := _irradianceCommandDirty m;
     _irradianceTextureDirty := _irradianceTextureDirty m;
     _sphericalHarmonicCoefficientsDirty := _sphericalHarmonicCoefficientsDirty m;
     _mipmapLevels := _mipmapLevels m;
     _radianceMapComputeCommands := _radianceMapComputeCommands m;
     _convolutionComputeCommands := _convolutionComputeCommands m;
     _irradianceComputeCommand := _irradianceComputeCommand m;
     _irradianceMapComputeCommand := _irradianceMapComputeCommand m;
     _radianceMapFS := _radianceMapFS m; _irradianceMapFS := _irradianceMapFS m;
     _convolveSP := _convolveSP m; _va := _va m; _radianceMapTextures := _radianceMapTextures m;
     _specularMapTextures := _specularMapTextures m; _radianceCubeMap := _radianceCubeMap m;
     _irradianceMapTexture := _irradianceMapTexture m;
     _sphericalHarmonicCoefficients := _sphericalHarmonicCoefficients m; _lastTime := _lastTime m;
     _textureDimensions := _textureDimensions m; enabled := enabled m;
     maximumSecondsDifference := v |}.

(** [defined(value)] *)
Definition defined {A : Type} (value : option A) : bool :=
  match value with Some _ => true | None => false end.

(** The object the constructor builds for a given [mipmapLevels]. *)
Definition constructed (mipmapLevels : Z) : Manager :=
  let width := Qpower 2 (mipmapLevels - 1) in
  {| _position := None;
     _radianceCommandsDirty := true;
     _radianceMapDirty := true;
     _convolutionsCommandsDirty := false;
     _irradianceCommandDirty := false;
     _irradianceTextureDirty := false;
     _sphericalHarmonicCoefficientsDirty := false;
     _mipmapLevels := mipmapLevels;
     _radianceMapComputeCommands := new_Array 6;
     _convolutionComputeCommands := new_Array (Z.to_nat ((mipmapLevels - 1) * 6));
     _irradianceComputeCommand := None;
     _irradianceMapComputeCommand := None;
     _radianceMapFS := None;
     _irradianceMapFS := None;
     _convolveSP := None;
     _va := None;
     _radianceMapTextures := new_Array 6;
     _specularMapTextures := new_Array (Z.to_nat ((mipmapLevels - 1) * 6));
     _radianceCubeMap := None;
     _irradianceMapTexture := None;
     _sphericalHarmonicCoefficients := new_Array 9;
     _lastTime := JulianDate.new;
     _textureDimensions := Cartesian2.Build width width;
     enabled := true;
     maximumSecondsDifference := 60 * 20 |}.

(** The constructor, [options.mipmapLevels] being given or not.
    [new Array(n)] raises a [RangeError] for a negative length, in which case
    no manager is made ([None]). *)
Definition DynamicEnvironmentMapManager (options_mipmapLevels : option Z)
  : option Manager :=
  let mipmapLevels := default 10%Z options_mipmapLevels in
  if ((mipmapLevels - 1) * 6 <? 0)%Z then None
  else Some (constructed mipmapLevels).

(** ** The world: the manager and the objects it shares *)

(** The stage whose setup function ran; [stageLog] below is a ghost record of
    these calls, in order, and takes no part in any decision. *)
Inductive Stage : Type :=
  RadianceStage | ConvolutionStage | IrradianceStage | CoefficientStage.

(** [this] is the manager; [commands] holds every [ComputeCommand] object made
    so far and [textures] every [Texture] object; [counters] holds the
    [facesCopied] variable of each activation of [updateSpecularMaps];
    [commandList] is [frameState.commandList], the list the renderer hands in
    and the stages push onto. *)
Record World : Type := Build_World {
  this : Manager;
  commands : list ComputeCommand.t;
  textures : list Texture.t;
  counters : list nat;
  commandList : list CommandRef;
  stageLog : list Stage
}.

Definition set_this (v : Manager) (w : World) : World :=
  {| this := v; commands := commands w; textures := textures w; counters := counters w;
     commandList := commandList w; stageLog := stageLog w |}.

Definition set_commands (v : list ComputeCommand.t) (w : World) : World :=
  {| this := this w; commands := v; textures := textures w; counters := counters w;
     commandList := commandList w; stageLog := stageLog w |}.

Definition set_textures (v : list Texture.t) (w : World) : World :=
  {| this := this w; commands := commands w; textures := v; counters := counters w;
     commandList := commandList w; stageLog := stageLog w |}.

Definition set_counters (v : list nat) (w : World) : World :=
  {| this := this w; commands := commands w; textures := textures w; counters := v;
     commandList := commandList w; stageLog := stageLog w |}.

Definition set_commandList (v : list CommandRef) (w : World) : World :=
  {| this := this w; commands := commands w; textures := textures w; counters := counters w;
     commandList := v; stageLog := stageLog w |}.

Definition set_stageLog (v : list Stage) (w : World) : World :=
  {| this := this w; commands := commands w; textures := textures w; counters := counters w;
     commandList := commandList w; stageLog := v |}.

(** What a call reads from the frame state: the simulation time, and the
    array that [context.readPixels] gives for the 3 by 3 region of the
    framebuffer over the irradiance texture. *)
Record FrameState : Type := Build_FrameState {
  time : JulianDate.t;
  context_readPixels : list Q
}.

Definition new_World (m : Manager) : World :=
  {| this := m; commands := []; textures := []; counters := [];
     commandList := []; stageLog := [] |}.

(** An assignment to fields of the manager. *)
Definition on_this (f : Manager -> Manager) (w : World) : World :=
  set_this (f (this w)) w.

(** [new Texture({width, height, pixelDatatype, ...})] *)
Definition new_Texture (width height : Q) (pixelDatatype : PixelDatatype)
  (w : World) : TextureRef * World :=
  (length (textures w),
   set_textures (textures w ++ [Texture.Build width height pixelDatatype false]) w).

(** [new ComputeCommand({...})] *)
Definition new_ComputeCommand (c : ComputeCommand.t) (w : World)
  : CommandRef * World :=
  (length (commands w), set_commands (commands w ++ [c]) w).

(** [let facesCopied = 0] *)
Definition new_counter (w : World) : CounterRef * World :=
  (length (counters w), set_counters (counters w ++ [0]) w).

(** [frameState.commandList.push(command)] *)
Definition push (command : CommandRef) (w : World) : World :=
  set_commandList (commandList w ++ [command]) w.

Definition log (s : Stage) (w : World) : World :=
  set_stageLog (stageLog w ++ [s]) w.

(** [command.canceled = true], through a reference *)
Definition cancel (command : CommandRef) (w : World) : World :=
  set_commands (alter ComputeCommand.cancel command (commands w)) w.

(** [texture.destroy()], through a reference *)
Definition destroy_Texture (texture : TextureRef) (w : World) : World :=
  set_textures
    (alter (fun t => Texture.Build (Texture.width t) (Texture.height t)
                       (Texture.pixelDatatype t) true) texture (textures w)) w.

(** ** Invalidation *)

(** One turn of the first loop of [_reset] and of [destroy]. *)
Definition cancel_radiance_command (i : nat) (w : World) : World :=
  match array_get (_radianceMapComputeCommands (this w)) i with
  | Some command => cancel command w
  | None => w
  end.

Definition cancel_convolution_command (i : nat) (w : World) : World :=
  match array_get (_convolutionComputeCommands (this w)) i with
  | Some command => cancel command w
  | None => w
  end.

(** [DynamicEnvironmentMapManager.prototype._reset] *)
Definition _reset (w : World) : World :=
  let w :=
    fold_left
      (fun w i =>
         let w := cancel_radiance_command i w in
         on_this (fun m => set_radianceMapComputeCommands
                             (array_set (_radianceMapComputeCommands m) i None) m) w)
      (seq 0 (length (_radianceMapComputeCommands (this w)))) w in
  let w :=
    fold_left
      (fun w i =>
         let w := cancel_convolution_command i w in
         on_this (fun m => set_convolutionComputeCommands
                             (array_set (_convolutionComputeCommands m) i None) m) w)
      (seq 0 (length (_convolutionComputeCommands (this w)))) w in
  let w :=
    match _irradianceMapComputeCommand (this w) with
    | Some command =>
        on_this (set_irradianceMapComputeCommand None) (cancel command w)
    | None => w
    end in
  let w := on_this (set_radianceMapDirty true) w in
  on_this (set_radianceCommandsDirty true) w.

(** The setter of the [position] property. *)
Definition position_set (value : option Cartesian3.t) (w : World) : World :=
  if Cartesian3.equalsEpsilon value (_position (this w)) CesiumMath.EPSILON8
  then w
  else _reset (on_this (set_position value) w).

(** ** The stages *)

(** The body of the loop over the faces in [updateRadianceMap].  The
    uniforms that the source computes from the position with functions of
    the library ([scaleToGeodeticSurface], [Cartesian3.magnitude],
    [Transforms.eastNorthUpToFixedFrame]) are kept as the position they are
    computed from; these calls, which are not among the sources, are not
    modelled, nor is anything they may raise. *)
Definition radianceFace (w : World) (entry : nat * Face) : World :=
  let '(i, face) := entry in
  let '(texture, w) :=
    match array_get (_radianceMapTextures (this w)) i with
    | Some texture => (texture, w)
    | None =>
        let textureDimensions := _textureDimensions (this w) in
        let '(texture, w) :=
          new_Texture (Cartesian2.x textureDimensions)
                      (Cartesian2.y textureDimensions) UNSIGNED_BYTE w in
        (texture,
         on_this (fun m => set_radianceMapTextures
                             (array_set (_radianceMapTextures m) i (Some texture)) m) w)
    end in
  let position := _position (this w) in
  let index := i in
  let '(command, w) :=
    new_ComputeCommand
      {| ComputeCommand.outputTexture := texture;
         ComputeCommand.uniformMap := RadianceUniforms face position;
         ComputeCommand.persists := false;
         ComputeCommand.canceled := false;
         ComputeCommand.postExecute := RadiancePostExecute index face |} w in
  let w := push command w in
  on_this (fun m => set_radianceMapComputeCommands
                      (array_set (_radianceMapComputeCommands m) i (Some command)) m) w.

(** [updateRadianceMap(manager, frameState)] *)
Definition updateRadianceMap (frameState : FrameState) (w : World) : World :=
  let w := log RadianceStage w in
  let textureDimensions := _textureDimensions (this w) in
  let w :=
    if defined (_radianceCubeMap (this w)) then w
    else on_this (set_radianceCubeMap
                    (Some (CubeMap.new (Cartesian2.x textureDimensions)
                                       (Cartesian2.y textureDimensions)))) w in
  if _radianceCommandsDirty (this w) then
    let w :=
      if defined (_radianceMapFS (this w)) then w
      else on_this (set_radianceMapFS (Some RadianceMapShader)) w in
    let w := fold_left radianceFace CubeMap.entries w in
    on_this (set_radianceCommandsDirty false) w
  else w.

(** How a call ends: with a value, or with an exception thrown; either way in
    some world. *)
Inductive Completion (A : Type) : Type :=
| Normal (a : A) (w : World)
| Throw (w : World).
Arguments Normal {A} a w.
Arguments Throw {A} w.

Definition final_world {A : Type} (c : Completion A) : World :=
  match c with Normal _ w => w | Throw w => w end.

(** The body of the loop over the faces in [updateSpecularMaps]. *)
Definition convolutionFace (facesCopied : CounterRef) (mipmapLevels : Z)
  (level : nat) (width height : Q) (w : World) (entry : nat * Face) : World :=
  let '(faceIndex, face) := entry in
  let index := (level - 1) * 6 + faceIndex in
  let '(texture, w) := new_Texture width height UNSIGNED_BYTE w in
  let w := on_this (fun m => set_specularMapTextures
                               (array_set (_specularMapTextures m) index (Some texture)) m) w in
  let w :=
    if defined (_va (this w)) then w
    else on_this (set_va (Some (FaceVertexArray face))) w in
  let w :=
    if defined (_convolveSP (this w)) then w
    else on_this (set_convolveSP (Some ConvolveSpecularMapProgram)) w in
  let '(command, w) :=
    new_ComputeCommand
      {| ComputeCommand.outputTexture := texture;
         ComputeCommand.uniformMap :=
           ConvolutionUniforms
             (inject_Z (Z.of_nat level) / inject_Z (mipmapLevels - 1)) face;
         ComputeCommand.persists := true;
         ComputeCommand.canceled := false;
         ComputeCommand.postExecute :=
           ConvolutionPostExecute facesCopied index texture face level |} w in
  let w := on_this (fun m => set_convolutionComputeCommands
                               (array_set (_convolutionComputeCommands m) index (Some command)) m) w in
  push command w.

(** The body of the loop over the levels in [updateSpecularMaps]; the state
    of the loop is the world and the running [width] and [height]. *)
Definition convolutionLevel (facesCopied : CounterRef) (mipmapLevels : Z)
  (st : World * Q * Q) (level : nat) : World * Q * Q :=
  let '(w, width, height) := st in
  let w :=
    fold_left (convolutionFace facesCopied mipmapLevels level width height)
              CubeMap.entries w in
  (w, width / 2, height / 2)%Q.

(** [updateSpecularMaps(manager, frameState)].  Without a cube map the first
    statement, a method call on [undefined], throws. *)
Definition updateSpecularMaps (frameState : FrameState) (w : World)
  : Completion unit :=
  let w := log ConvolutionStage w in
  match _radianceCubeMap (this w) with
  | None => Throw w
  | Some radianceCubeMap =>
      let w := on_this (set_radianceCubeMap
                          (Some (CubeMap.generateMipmap radianceCubeMap))) w in
      let mipmapLevels := _mipmapLevels (this w) in
      let textureDimensions := _textureDimensions (this w) in
      let width := (Cartesian2.x textureDimensions / 2)%Q in
      let height := (Cartesian2.y textureDimensions / 2)%Q in
      let '(facesCopied, w) := new_counter w in
      let '(w, _, _) :=
        fold_left (convolutionLevel facesCopied mipmapLevels)
                  (seq 1 (Z.to_nat mipmapLevels - 1)) (w, width, height) in
      Normal tt w
  end.

(** [updateIrradianceResources(manager, frameState)] *)
Definition updateIrradianceResources (frameState : FrameState) (w : World)
  : World :=
  let w := log IrradianceStage w in
  let '(texture, w) :=
    match _irradianceMapTexture (this w) with
    | Some texture => (texture, w)
    | None =>
        let '(texture, w) := new_Texture 3 3 FLOAT w in
        (texture, on_this (set_irradianceMapTexture (Some texture)) w)
    end in
  let w :=
    if defined (_irradianceMapFS (this w)) then w
    else on_this (set_irradianceMapFS (Some IrradianceMapShader)) w in
  let '(command, w) :=
    new_ComputeCommand
      {| ComputeCommand.outputTexture := texture;
         ComputeCommand.uniformMap := IrradianceUniforms;
         ComputeCommand.persists := false;
         ComputeCommand.canceled := false;
         ComputeCommand.postExecute := IrradiancePostExecute |} w in
  let w := on_this (set_irradianceComputeCommand (Some command)) w in
  let w := push command w in
  on_this (set_irradianceTextureDirty true) w.

(** [updateSphericalHarmonicCoefficients(manager, frameState)] *)
Definition updateSphericalHarmonicCoefficients (frameState : FrameState)
  (w : World) : World :=
  let w := log CoefficientStage w in
  let data := context_readPixels frameState in
  fold_left
    (fun w i =>
       on_this (fun m => set_sphericalHarmonicCoefficients
                           (array_set (_sphericalHarmonicCoefficients m) i
                                      (Cartesian3.unpack data (i * 4))) m) w)
    (seq 0 9) w.

(** ** Completion callbacks *)

(** The body of a [postExecute] closure.  The cube map a closure captured is
    the manager's: the manager makes one and never replaces it. *)
Definition runPostExecute (p : PostExecute) (w : World) : World :=
  match p with
  | RadiancePostExecute index face =>
      let w := on_this (fun m => set_radianceMapComputeCommands
                                   (array_set (_radianceMapComputeCommands m) index None) m) w in
      let w := on_this (fun m => set_radianceCubeMap
                                   (CubeMap.copyFace face 0 <$> _radianceCubeMap m) m) w in
      if negb (some_defined (_radianceMapComputeCommands (this w)))
      then on_this (set_convolutionsCommandsDirty true) w
      else w
  | ConvolutionPostExecute facesCopied index texture face level =>
      let w := on_this (fun m => set_convolutionComputeCommands
                                   (array_set (_convolutionComputeCommands m) index None) m) w in
      let w := on_this (fun m => set_radianceCubeMap
                                   (CubeMap.copyFace face level <$> _radianceCubeMap m) m) w in
      let w := set_counters (alter S facesCopied (counters w)) w in
      if decide (counters w !! facesCopied
                 = Some (length (_specularMapTextures (this w))))
      then
        let w := on_this (set_irradianceCommandDirty true) w in
        on_this (fun m => set_radianceCubeMap
                            (CubeMap.set_sampler LINEAR_MIPMAP_LINEAR
                               <$> _radianceCubeMap m) m) w
      else w
  | IrradiancePostExecute =>
      let w := on_this (set_irradianceTextureDirty false) w in
      let w := on_this (set_irradianceComputeCommand None) w in
      on_this (set_sphericalHarmonicCoefficientsDirty true) w
  end.

(** Modelled from the spec: the external execution engine, which is not
    among the sources.  It runs a task and then invokes its completion
    callback; "a canceled task's completion callback must be treated as a
    no-op by the executor". *)
Definition execute (command : CommandRef) (w : World) : World :=
  match commands w !! command with
  | Some c =>
      if ComputeCommand.canceled c then w
      else runPostExecute (ComputeCommand.postExecute c) w
  | None => w
  end.

(** Modelled from the spec: the engine, between two frames, takes the tasks
    of the frame's list, in the order in which they were appended, and leaves
    an empty list for the next frame. *)
Definition executeAll (w : World) : World :=
  fold_left (fun w command => execute command w) (commandList w)
            (set_commandList [] w).

(** ** The sequencer *)

(** What [update] returns: a boolean, or [undefined] where control leaves the
    function without a [return]. *)
Inductive ReturnValue : Type :=
| ReturnBool (b : bool)
| ReturnUndefined.

(** The staleness check at the head of [update] (the [if] over
    [JulianDate.equalsEpsilon]). *)
Definition update_staleness (frameState : FrameState) (w : World) : World :=
  if negb (JulianDate.equalsEpsilon (time frameState) (_lastTime (this w))
                                    (maximumSecondsDifference (this w)))
  then
    let w := _reset w in
    on_this (set_lastTime (JulianDate.clone (time frameState))) w
  else w.

(** The rest of [update], from the test of [_radianceMapDirty] on: the
    dispatch on the dirty flags. *)
Definition update_stages (frameState : FrameState) (w : World)
  : Completion ReturnValue :=
  if _radianceMapDirty (this w) then
    let w := updateRadianceMap frameState w in
    let w := on_this (set_radianceMapDirty false) w in
    Normal (ReturnBool false) w
  else if _convolutionsCommandsDirty (this w) then
    match updateSpecularMaps frameState w with
    | Throw w => Throw w
    | Normal _ w =>
        let w := on_this (set_convolutionsCommandsDirty false) w in
        Normal (ReturnBool false) w
    end
  else
    let w :=
      if _irradianceCommandDirty (this w) then
        let w := updateIrradianceResources frameState w in
        on_this (set_irradianceCommandDirty false) w
      else w in
    if _irradianceTextureDirty (this w) then
      Normal (ReturnBool false) w
    else if _sphericalHarmonicCoefficientsDirty (this w) then
      let w := updateSphericalHarmonicCoefficients frameState w in
      let w := on_this (set_sphericalHarmonicCoefficientsDirty false) w in
      Normal (ReturnBool true) w
    else Normal ReturnUndefined w.

(** [DynamicEnvironmentMapManager.prototype.update] *)
Definition update (frameState : FrameState) (w : World)
  : Completion ReturnValue :=
  if negb (enabled (this w)) || negb (defined (_position (this w))) then
    Normal (ReturnBool false) w
  else
    let w := update_staleness frameState w in
    update_stages frameState w.

(** ** Teardown *)

(** One turn of a texture loop of [destroy]:
    [a[i] = a[i] && a[i].destroy()], where [destroy] returns [undefined]. *)
Definition destroy_radiance_texture (w : World) (i : nat) : World :=
  match array_get (_radianceMapTextures (this w)) i with
  | Some texture =>
      on_this (fun m => set_radianceMapTextures
                          (array_set (_radianceMapTextures m) i None) m)
              (destroy_Texture texture w)
  | None => w
  end.

Definition destroy_specular_texture (w : World) (i : nat) : World :=
  match array_get (_specularMapTextures (this w)) i with
  | Some texture =>
      on_this (fun m => set_specularMapTextures
                          (array_set (_specularMapTextures m) i None) m)
              (destroy_Texture texture w)
  | None => w
  end.

(** [DynamicEnvironmentMapManager.prototype.destroy], up to the final
    [destroyObject(this)], after which the manager is not to be used. *)
Definition destroy (w : World) : World :=
  let w :=
    fold_left (fun w i => cancel_radiance_command i w)
              (seq 0 (length (_radianceMapComputeCommands (this w)))) w in
  let w :=
    fold_left (fun w i => cancel_convolution_command i w)
              (seq 0 (length (_convolutionComputeCommands (this w)))) w in
  let w :=
    match _irradianceMapComputeCommand (this w) with
    | Some command => cancel command w
    | None => w
    end in
  let w :=
    fold_left destroy_radiance_texture
              (seq 0 (length (_radianceMapTextures (this w)))) w in
  let w :=
    fold_left destroy_specular_texture
              (seq 0 (length (_specularMapTextures (this w)))) w in
  let w := on_this (set_radianceCubeMap None) w in
  match _irradianceMapTexture (this w) with
  | Some texture =>
      on_this (set_irradianceMapTexture None) (destroy_Texture texture w)
  | None => w
  end.

(** ** Definitions used by the statements *)

(** The stage that the priority order of the flags selects: the first flag
    set, in the order radiance-map-dirty, convolutions-ready,
    irradiance-command-ready, awaiting-GPU, coefficients-ready.  The
    awaiting-GPU flag selects no stage. *)
Definition selected_stage (m : Manager) : option Stage :=
  if _radianceMapDirty m then Some RadianceStage
  else if _convolutionsCommandsDirty m then Some ConvolutionStage
  else if _irradianceCommandDirty m then Some IrradianceStage
  else if _irradianceTextureDirty m then None
  else if _sphericalHarmonicCoefficientsDirty m then Some CoefficientStage
  else None.

(** The six dirty flags, in the order of the constructor. *)
Definition flags (m : Manager) : list bool :=
  [_radianceCommandsDirty m; _radianceMapDirty m; _convolutionsCommandsDirty m;
   _irradianceCommandDirty m; _irradianceTextureDirty m;
   _sphericalHarmonicCoefficientsDirty m].

(** Everything in the world that [_reset] has no statement to change: all of
    the manager but the two radiance flags, the two command arrays and the
    property [_irradianceMapComputeCommand], and all the stores but that of
    the commands. *)
Definition outside_reset (w : World) :=
  let m := this w in
  (_position m, _convolutionsCommandsDirty m, _irradianceCommandDirty m,
   _irradianceTextureDirty m, _sphericalHarmonicCoefficientsDirty m,
   _mipmapLevels m, _irradianceComputeCommand m, _radianceMapFS m,
   _irradianceMapFS m, _convolveSP m, _va m, _radianceMapTextures m,
   _specularMapTextures m, _radianceCubeMap m, _irradianceMapTexture m,
   _sphericalHarmonicCoefficients m, _lastTime m, _textureDimensions m,
   enabled m, maximumSecondsDifference m,
   textures w, counters w, commandList w, stageLog w).

(** The fields of the manager that only the host or the setter of
    [position] and the staleness check write. *)
Definition settings (m : Manager) :=
  (_position m, _mipmapLevels m, _lastTime m, _textureDimensions m, enabled m,
   maximumSecondsDifference m).

(** What no stage but the coefficient extraction writes, and no callback. *)
Definition quiet (w : World) :=
  (settings (this w), _sphericalHarmonicCoefficients (this w)).

(** Modelled from the spec: one render frame.  The host calls the sequencer
    once, and the execution engine then runs the tasks of the frame. *)
Definition runFrame (frameState : FrameState) (w : World) : World :=
  executeAll (final_world (update frameState w)).

(** The number of tasks a call of [update] leaves on the frame's list, the
    list being empty at the start of the frame. *)
Definition issued (frameState : FrameState) (w : World) : nat :=
  length (commandList (final_world (update frameState w))).

(** A texel of an RGBA texture, and the array [readPixels] gives for a
    sequence of texels, four numbers for each, in raster order. *)
Record Texel : Type := Build_Texel { red : Q; green : Q; blue : Q; alpha : Q }.

Definition raster (texels : list Texel) : list Q :=
  flat_map (fun t => [red t; green t; blue t; alpha t]) texels.

Definition rgb (t : Texel) : Cartesian3.t :=
  Cartesian3.Build (red t) (green t) (blue t).

(** [(N - 1) * 6], the length of the mip chain. *)
Definition chain_length (m : Manager) : nat :=
  Z.to_nat ((_mipmapLevels m - 1) * 6).

(** [width /= 2] *)
Definition halve (q : Q) : Q := (q / 2)%Q.

Definition face_at (faceIndex : nat) : Face :=
  default PositiveX (CubeMap.faceNames !! faceIndex).

(** The two nested loops of [updateSpecularMaps] as one: turn [index] of the
    6 (N - 1) turns is face [index mod 6] of level [index / 6 + 1], at the
    width that [index / 6] halvings have left. *)
Definition convolution_turn (facesCopied : CounterRef) (mipmapLevels : Z)
  (width height : Q) (w : World) (index : nat) : World :=
  convolutionFace facesCopied mipmapLevels (index / 6 + 1)
    (Nat.iter (index / 6) halve width) (Nat.iter (index / 6) halve height)
    w (index mod 6, face_at (index mod 6)).

(** The command and the texture that turn [index] makes, the texture being
    object [firstTexture + index]. *)
Definition convolution_command (facesCopied : CounterRef) (mipmapLevels : Z)
  (firstTexture : nat) (index : nat) : ComputeCommand.t :=
  {| ComputeCommand.outputTexture := firstTexture + index;
     ComputeCommand.uniformMap :=
       ConvolutionUniforms
         (inject_Z (Z.of_nat (index / 6 + 1)) / inject_Z (mipmapLevels - 1))
         (face_at (index mod 6));
     ComputeCommand.persists := true;
     ComputeCommand.canceled := false;
     ComputeCommand.postExecute :=
       ConvolutionPostExecute facesCopied index (firstTexture + index)
                              (face_at (index mod 6)) (index / 6 + 1) |}.

Definition convolution_texture (width height : Q) (index : nat) : Texture.t :=
  Texture.Build (Nat.iter (index / 6) halve width)
                (Nat.iter (index / 6) halve height) UNSIGNED_BYTE false.

(** The part of the world that the convolution loops write. *)
Definition chain (w : World) :=
  (commands w, textures w, commandList w,
   _convolutionComputeCommands (this w), _specularMapTextures (this w)).

(** What the convolution loops leave alone. *)
Definition beside_chain (w : World) :=
  (counters w, stageLog w, _radianceCubeMap (this w), flags (this w),
   _radianceMapComputeCommands (this w), _radianceMapTextures (this w),
   _irradianceComputeCommand (this w), _irradianceMapTexture (this w)).

(** The state of a batch of convolution tasks after [k] completions. *)
Definition batch_state (cell total : nat) (cs : list ComputeCommand.t)
  (flag : bool) (filter : option TextureMinificationFilter) (k : nat)
  (u : World) : Prop :=
  commands u = cs
  /\ counters u !! cell = Some k
  /\ length (_specularMapTextures (this u)) = total
  /\ _irradianceCommandDirty (this u) = flag || ((1 <=? total) && (total <=? k))
  /\ CubeMap.sampler <$> _radianceCubeMap (this u)
     = Some (if (1 <=? total) && (total <=? k) then Some LINEAR_MIPMAP_LINEAR
             else filter).

(** The engine completes the tasks [rs], in this order. *)
Definition executeEach (rs : list CommandRef) (w : World) : World :=
  fold_left (fun w command => execute command w) rs w.

(** The value a call returned, if it returned. *)
Definition returned {A : Type} (c : Completion A) : option A :=
  match c with Normal a _ => Some a | Throw _ => None end.

(** Turn [i] of the loop over the faces in [updateRadianceMap]. *)
Definition radiance_turn (w : World) (i : nat) : World :=
  radianceFace w (i, face_at i).

(** The texture of face [i]: the one in the slot, or the next to be made. *)
Definition face_texture (w : World) (i : nat) : TextureRef :=
  match array_get (_radianceMapTextures (this w)) i with
  | Some texture => texture
  | None => length (textures w)
  end.

(** The command that turn [i] makes in world [w]. *)
Definition radiance_command (w : World) (i : nat) : ComputeCommand.t :=
  {| ComputeCommand.outputTexture := face_texture w i;
     ComputeCommand.uniformMap := RadianceUniforms (face_at i) (_position (this w));
     ComputeCommand.persists := false;
     ComputeCommand.canceled := false;
     ComputeCommand.postExecute := RadiancePostExecute i (face_at i) |}.

(** The part of the world that the radiance loop writes, and the rest. *)
Definition faces (w : World) :=
  (commands w, commandList w, _radianceMapComputeCommands (this w),
   _radianceMapTextures (this w), textures w).

Definition beside_faces (w : World) :=
  (counters w, stageLog w, _radianceCubeMap (this w), flags (this w),
   _convolutionComputeCommands (this w), _specularMapTextures (this w),
   _irradianceComputeCommand (this w), _irradianceMapComputeCommand (this w),
   _irradianceMapTexture (this w), quiet w).

(** [command.canceled = true] for the command of every defined slot. *)
Definition cancel_slots (slots : list (option CommandRef))
  (cs : list ComputeCommand.t) : list ComputeCommand.t :=
  fold_left (fun cs slot => match slot with
                            | Some command => alter ComputeCommand.cancel command cs
                            | None => cs
                            end) slots cs.

(** The world that [_reset] leaves, written out. *)
Definition reset_result (w : World) : World :=
  let m := this w in
  let cs := cancel_slots (_convolutionComputeCommands m)
              (cancel_slots (_radianceMapComputeCommands m) (commands w)) in
  set_commands
    match _irradianceMapComputeCommand m with
    | Some command => alter ComputeCommand.cancel command cs
    | None => cs
    end
    (on_this
       (fun m =>
          set_radianceCommandsDirty true
            (set_radianceMapDirty true
               (set_irradianceMapComputeCommand None
                  (set_convolutionComputeCommands
                     (replicate (length (_convolutionComputeCommands m)) None)
                     (set_radianceMapComputeCommands
                        (replicate (length (_radianceMapComputeCommands m)) None)
                        m))))) w).

(** The slot a completion callback clears is a slot of its array. *)
Definition callback_in_range (m : Manager) (c : ComputeCommand.t) : Prop :=
  match ComputeCommand.postExecute c with
  | RadiancePostExecute index _ =>
      index < length (_radianceMapComputeCommands m)
  | ConvolutionPostExecute _ index _ _ _ =>
      index < length (_convolutionComputeCommands m)
  | IrradiancePostExecute => True
  end.

(** What holds of the manager in every world it can be in: its two radiance
    flags agree; its four slot arrays have the lengths the constructor gave
    them; every callback clears a slot that exists; and as soon as there is
    a command, or the convolution or the irradiance stage is flagged, there
    is a cube map. *)
Definition consistent (w : World) : Prop :=
  let m := this w in
  _radianceMapDirty m = _radianceCommandsDirty m
  /\ (length (_radianceMapComputeCommands m) = 6
      /\ length (_radianceMapTextures m) = 6
      /\ length (_convolutionComputeCommands m) = chain_length m
      /\ length (_specularMapTextures m) = chain_length m)
  /\ Forall (callback_in_range m) (commands w)
  /\ (commands w <> [] \/ _convolutionsCommandsDirty m = true
      \/ _irradianceCommandDirty m = true ->
      defined (_radianceCubeMap m) = true).

(** The part of the world on which [consistent] depends. *)
Definition core (w : World) :=
  let m := this w in
  (_radianceMapDirty m, _radianceCommandsDirty m, _convolutionsCommandsDirty m,
   _irradianceCommandDirty m, _radianceMapComputeCommands m,
   _radianceMapTextures m, _convolutionComputeCommands m,
   _specularMapTextures m, _mipmapLevels m, _radianceCubeMap m, commands w).

(** The world in which the loop over the faces of [updateRadianceMap]
    starts: the cube map and the shader source are there. *)
Definition radiance_prelude (w : World) : World :=
  let w := log RadianceStage w in
  let textureDimensions := _textureDimensions (this w) in
  let w :=
    if defined (_radianceCubeMap (this w)) then w
    else on_this (set_radianceCubeMap
                    (Some (CubeMap.new (Cartesian2.x textureDimensions)
                                       (Cartesian2.y textureDimensions)))) w in
  if defined (_radianceMapFS (this w)) then w
  else on_this (set_radianceMapFS (Some RadianceMapShader)) w.

(** The state of the radiance loop after [k] turns from world [w]. *)
Definition after_turns (w : World) (k : nat) (u : World) : Prop :=
  let first := length (commands w) in
  let ta := _radianceMapTextures (this w) in
  let ta_u := _radianceMapTextures (this u) in
  commandList u = commandList w ++ seq first k
  /\ _radianceMapComputeCommands (this u)
     = map (fun i => Some (first + i)) (seq 0 k)
         ++ drop k (_radianceMapComputeCommands (this w))
  /\ (length (commands u) = first + k /\ take first (commands u) = commands w)
  /\ (forall i, i < k ->
        exists c, commands u !! (first + i) = Some c
                  /\ ComputeCommand.postExecute c = RadiancePostExecute i (face_at i)
                  /\ ComputeCommand.uniformMap c
                     = RadianceUniforms (face_at i) (_position (this w))
                  /\ ComputeCommand.persists c = false
                  /\ ComputeCommand.canceled c = false
                  /\ array_get ta_u i = Some (ComputeCommand.outputTexture c))
  /\ length ta_u = length ta
  /\ (forall i t, array_get ta i = Some t -> array_get ta_u i = Some t)
  /\ (forall i, k <= i -> ta_u !! i = ta !! i)
  /\ (exists new,
        textures u = textures w ++ new
        /\ length new <= k
        /\ Forall (fun t => t = Texture.Build
                                  (Cartesian2.x (_textureDimensions (this w)))
                                  (Cartesian2.y (_textureDimensions (this w)))
                                  UNSIGNED_BYTE false) new
        /\ ((forall i, i < k -> defined (array_get ta i) = true) -> new = []))
  /\ beside_faces u = beside_faces w.

(** What the radiance stage leaves, [w'], from the world [w] in which it
    starts: six tasks, one a face, on textures that are reused where the
    slot has one. *)
Definition radiance_stage_result (w w' : World) : Prop :=
  let first := length (commands w) in
  let ta := _radianceMapTextures (this w) in
  let ta' := _radianceMapTextures (this w') in
  let dimensions := _textureDimensions (this w) in
  commandList w' = commandList w ++ seq first 6
  /\ _radianceMapComputeCommands (this w')
     = map (fun i => Some (first + i)) (seq 0 6)
  /\ length (commands w') = first + 6
  /\ (forall i, i < 6 ->
        exists c, commands w' !! (first + i) = Some c
                  /\ ComputeCommand.postExecute c = RadiancePostExecute i (face_at i)
                  /\ ComputeCommand.uniformMap c
                     = RadianceUniforms (face_at i) (_position (this w))
                  /\ ComputeCommand.persists c = false
                  /\ ComputeCommand.canceled c = false
                  /\ array_get ta' i = Some (ComputeCommand.outputTexture c))
  /\ (forall i t, array_get ta i = Some t -> array_get ta' i = Some t)
  /\ (exists new,
        textures w' = textures w ++ new
        /\ length new <= 6
        /\ Forall (fun t => t = Texture.Build (Cartesian2.x dimensions)
                                              (Cartesian2.y dimensions)
                                              UNSIGNED_BYTE false) new
        /\ ((forall i, i < 6 -> defined (array_get ta i) = true) -> new = []))
  /\ _radianceCubeMap (this w')
     = Some (default (CubeMap.new (Cartesian2.x dimensions)
                                  (Cartesian2.y dimensions))
                     (_radianceCubeMap (this w)))
  /\ _radianceMapDirty (this w') = false
  /\ _radianceCommandsDirty (this w') = false.

(** The completion callbacks of the radiance tasks of the slots [done], run
    in this order. *)
Definition radiance_completions (done : list nat) (w : World) : World :=
  fold_left (fun w index =>
               runPostExecute (RadiancePostExecute index (face_at index)) w)
            done w.

(** The slots [done] of an array, emptied. *)
Definition cleared {A : Type} (done : list nat) (a : list (option A))
  : list (option A) :=
  fold_left (fun a index => <[index := None]> a) done a.

(** The callback of a radiance task. *)
Definition radiance_callback (c : ComputeCommand.t) : Prop :=
  match ComputeCommand.postExecute c with
  | RadiancePostExecute _ _ => True
  | _ => False
  end.

(** A manager that has never gone past the convolution stage: the three
    later flags are clear, no task but radiance tasks was ever made, and no
    coefficient was ever written. *)
Definition stalled (w : World) : Prop :=
  let m := this w in
  (_irradianceCommandDirty m = false
   /\ _irradianceTextureDirty m = false
   /\ _sphericalHarmonicCoefficientsDirty m = false)
  /\ Forall radiance_callback (commands w)
  /\ _sphericalHarmonicCoefficients m = replicate 9 None.

(** The callback of a convolution task, and that of the irradiance task. *)
Definition convolution_callback (c : ComputeCommand.t) : Prop :=
  match ComputeCommand.postExecute c with
  | ConvolutionPostExecute _ _ _ _ _ => True
  | _ => False
  end.

Definition irradiance_callback (c : ComputeCommand.t) : Prop :=
  ComputeCommand.postExecute c = IrradiancePostExecute.

(** Which task is where: the property [_irradianceMapComputeCommand] is
    never set; a slot of the radiance array holds a radiance task and a slot
    of the convolution array a convolution task; and no irradiance task is
    canceled. *)
Definition slots_typed (w : World) : Prop :=
  let m := this w in
  _irradianceMapComputeCommand m = None
  /\ (forall r : nat, Some r ∈ _radianceMapComputeCommands m ->
        exists c, commands w !! r = Some c /\ radiance_callback c)
  /\ (forall r : nat, Some r ∈ _convolutionComputeCommands m ->
        exists c, commands w !! r = Some c /\ convolution_callback c)
  /\ Forall (fun c => irradiance_callback c -> ComputeCommand.canceled c = false)
            (commands w).

(** The part of the world on which [slots_typed] depends. *)
Definition typed_core (w : World) :=
  (_irradianceMapComputeCommand (this w), _radianceMapComputeCommands (this w),
   _convolutionComputeCommands (this w), commands w).

(** A texture after [destroy()]. *)
Definition released (t : Texture.t) : Texture.t :=
  Texture.Build (Texture.width t) (Texture.height t) (Texture.pixelDatatype t)
                true.

(** [texture.destroy()] for the texture of every defined slot. *)
Definition destroy_slots (slots : list (option TextureRef))
  (ts : list Texture.t) : list Texture.t :=
  fold_left (fun ts slot => match slot with
                            | Some texture => alter released texture ts
                            | None => ts
                            end) slots ts.

(** The world that [destroy] leaves, written out. *)
Definition destroy_result (w : World) : World :=
  let m := this w in
  let cs := cancel_slots (_convolutionComputeCommands m)
              (cancel_slots (_radianceMapComputeCommands m) (commands w)) in
  let ts := destroy_slots (_specularMapTextures m)
              (destroy_slots (_radianceMapTextures m) (textures w)) in
  set_textures
    match _irradianceMapTexture m with
    | Some texture => alter released texture ts
    | None => ts
    end
    (set_commands
       match _irradianceMapComputeCommand m with
       | Some command => alter ComputeCommand.cancel command cs
       | None => cs
       end
       (on_this
          (fun m =>
             set_irradianceMapTexture None
               (set_radianceCubeMap None
                  (set_specularMapTextures
                     (replicate (length (_specularMapTextures m)) None)
                     (set_radianceMapTextures
                        (replicate (length (_radianceMapTextures m)) None)
                        m)))) w)).

(** What a completion callback leaves alone, whichever it is: the store of
    the commands, the frame's list, the two radiance flags and what is
    [quiet]. *)
Definition beside_callbacks (w : World) :=
  (commands w, commandList w, _radianceCommandsDirty (this w),
   _radianceMapDirty (this w), quiet w).

(** The only texture of floats is the irradiance texture, 3 by 3, and it has
    not been released. *)
Definition one_irradiance_texture (w : World) : Prop :=
  forall (t : nat) (T : Texture.t),
    textures w !! t = Some T -> Texture.pixelDatatype T = FLOAT ->
    _irradianceMapTexture (this w) = Some t
    /\ T = Texture.Build 3 3 FLOAT false.

(** The setter of the [position] property, with the comparison it calls,
    [Cartesian3.equalsEpsilon] of [Core/Cartesian3.js], which is not among
    the sources, as a parameter. *)
Definition position_set_by
  (equalsEpsilon : option Cartesian3.t -> option Cartesian3.t -> Q -> bool)
  (value : option Cartesian3.t) (w : World) : World :=
  if equalsEpsilon value (_position (this w)) CesiumMath.EPSILON8
  then w
  else _reset (on_this (set_position value) w).


(** The coefficient loop, on the array alone. *)
Definition unpack_all (data : list Q) (coefficients : list (option Cartesian3.t))
  : list (option Cartesian3.t) :=
  fold_left (fun a i => array_set a i (Cartesian3.unpack data (i * 4)))
            (seq 0 9) coefficients.

(** The worlds a manager can be in: made by the constructor and then used
    through its interface by the host (the [position] setter, the public
    fields [enabled] and [maximumSecondsDifference], [update] with a list
    that the host empties between frames) and by the engine (which runs
    tasks). *)
Inductive reachable : World -> Prop :=
| reachable_new options m :
    DynamicEnvironmentMapManager options = Some m -> reachable (new_World m)
| reachable_position value w :
    reachable w -> reachable (position_set value w)
| reachable_enabled b w :
    reachable w -> reachable (on_this (set_enabled b) w)
| reachable_maximumSecondsDifference q w :
    reachable w -> reachable (on_this (set_maximumSecondsDifference q) w)
| reachable_update frameState w :
    reachable w -> reachable (final_world (update frameState w))
| reachable_execute command w :
    reachable w -> reachable (execute command w)
| reachable_next_frame w :
    reachable w -> reachable (set_commandList [] w).

(** *** Sample inputs *)

(** A position 100 m above the point where the x axis leaves the WGS84
    ellipsoid, and a second position a nanometre from it. *)
Definition sample_position : Cartesian3.t := Cartesian3.Build 6378237 0 0.

Definition sample_position_near : Cartesian3.t :=
  Cartesian3.Build (6378237 + (1 # 1000000000)) 0 0.

(** A third position, a kilometre from the first. *)
Definition sample_position_far : Cartesian3.t := Cartesian3.Build 6378237 1000 0.

Definition sample_texels : list Texel :=
  map (fun n => let q := inject_Z (Z.of_nat n) in
                Build_Texel q (q + (1 # 4)) (q + (1 # 2)) 1)
      (seq 0 9).

(** A frame at [t] seconds whose readback would give [sample_texels]. *)
Definition sample_frame (t : Q) : FrameState :=
  {| time := t; context_readPixels := raster sample_texels |}.

(** A manager of [mipmapLevels] levels that was given [sample_position]. *)
Definition sample_world (mipmapLevels : Z) : World :=
  position_set (Some sample_position) (new_World (constructed mipmapLevels)).

(** The sample manager of two levels after four frames at 5000 s: a whole
    pipeline cycle. *)
Definition sample_completed : World :=
  let f := sample_frame 5000 in
  runFrame f (runFrame f (runFrame f (runFrame f (sample_world 2)))).

(** ** Loops *)

Lemma fold_left_preserves {A B C : Type} (g : A -> C) (f : A -> B -> A)
  (l : list B) (a : A) :
  (forall a b, g (f a b) = g a) -> g (fold_left f l a) = g a.
Proof.
  intros Hstep. revert a.
  induction l as [|b l IH]; intros a; simpl; [reflexivity|].
  rewrite IH. apply Hstep.
Qed.

Lemma fold_left_invariant {A B : Type} (P : A -> Prop) (f : A -> B -> A)
  (l : list B) (a : A) :
  P a -> (forall a b, P a -> P (f a b)) -> P (fold_left f l a).
Proof.
  intros Ha Hstep. revert a Ha.
  induction l as [|b l IH]; intros a Ha; simpl; auto.
Qed.

(** ** Invalidation leaves the rest of the world alone *)

Lemma cancel_outside_reset r w : outside_reset (cancel r w) = outside_reset w.
Proof. reflexivity. Qed.

Lemma reset_outside w : outside_reset (_reset w) = outside_reset w.
Proof.
  unfold _reset.
  match goal with
  | |- outside_reset (on_this _ (on_this _ ?u)) = _ =>
      change (outside_reset u = outside_reset w)
  end.
  destruct (_irradianceMapComputeCommand _);
    [change (outside_reset (on_this ?f (cancel ?c ?u)))
       with (outside_reset u)|];
    (rewrite fold_left_preserves;
     [rewrite fold_left_preserves; [reflexivity|]|]);
    intros a b; unfold cancel_radiance_command, cancel_convolution_command;
    case_match; reflexivity.
Qed.

Lemma reset_stageLog w : stageLog (_reset w) = stageLog w.
Proof.
  generalize (reset_outside w). generalize (_reset w) as w'. intros w' H.
  unfold outside_reset in H. congruence.
Qed.

Lemma reset_radianceMapDirty w : _radianceMapDirty (this (_reset w)) = true.
Proof. reflexivity. Qed.

(** ** Reading the world through an assignment *)

Lemma this_on_this f w : this (on_this f w) = f (this w).
Proof. reflexivity. Qed.

Lemma commands_on_this f w : commands (on_this f w) = commands w.
Proof. reflexivity. Qed.

Lemma textures_on_this f w : textures (on_this f w) = textures w.
Proof. reflexivity. Qed.

Lemma counters_on_this f w : counters (on_this f w) = counters w.
Proof. reflexivity. Qed.

Lemma commandList_on_this f w : commandList (on_this f w) = commandList w.
Proof. reflexivity. Qed.

Lemma stageLog_on_this f w : stageLog (on_this f w) = stageLog w.
Proof. reflexivity. Qed.

(** ** What each stage adds to the log *)

Lemma radianceFace_stageLog w e : stageLog (radianceFace w e) = stageLog w.
Proof.
  unfold radianceFace. destruct e as [i face].
  destruct (array_get (_radianceMapTextures (this w)) i); reflexivity.
Qed.

Lemma updateRadianceMap_stageLog fs w :
  stageLog (updateRadianceMap fs w) = stageLog w ++ [RadianceStage].
Proof.
  unfold updateRadianceMap.
  set (w1 := if defined (_radianceCubeMap (this (log RadianceStage w)))
             then _ else _).
  assert (H1 : stageLog w1 = stageLog w ++ [RadianceStage])
    by (subst w1; destruct (defined _); reflexivity).
  clearbody w1.
  destruct (_radianceCommandsDirty (this w1)); [|exact H1].
  rewrite stageLog_on_this.
  rewrite (fold_left_preserves stageLog) by apply radianceFace_stageLog.
  destruct (defined _); exact H1.
Qed.

Lemma convolutionFace_stageLog c n level wd ht w e :
  stageLog (convolutionFace c n level wd ht w e) = stageLog w.
Proof.
  unfold convolutionFace. destruct e as [faceIndex face].
  unfold new_Texture, new_ComputeCommand, push. cbv zeta.
  set (w1 := on_this _ (set_textures _ w)).
  destruct (defined (_va (this w1)));
    match goal with
    | |- context [defined (_convolveSP (this ?u))] =>
        destruct (defined (_convolveSP (this u)))
    end; reflexivity.
Qed.

Lemma convolutionLevel_stageLog c n st level :
  stageLog (convolutionLevel c n st level).1.1 = stageLog st.1.1.
Proof.
  destruct st as [[w wd] ht]. unfold convolutionLevel. cbn [fst snd].
  rewrite (fold_left_preserves stageLog) by apply convolutionFace_stageLog.
  reflexivity.
Qed.

Lemma updateSpecularMaps_stageLog fs w :
  stageLog (final_world (updateSpecularMaps fs w))
  = stageLog w ++ [ConvolutionStage].
Proof.
  unfold updateSpecularMaps.
  destruct (_radianceCubeMap (this (log ConvolutionStage w))); [|reflexivity].
  cbv zeta. unfold new_counter.
  match goal with
  | |- context [fold_left ?f ?l ?a] =>
      pose proof (fold_left_preserves (fun st => stageLog st.1.1) f l a
                    (convolutionLevel_stageLog _ _)) as H;
      destruct (fold_left f l a) as [[w' wd] ht]
  end.
  exact H.
Qed.

Lemma updateIrradianceResources_stageLog fs w :
  stageLog (updateIrradianceResources fs w) = stageLog w ++ [IrradianceStage].
Proof.
  unfold updateIrradianceResources.
  destruct (_irradianceMapTexture _); cbv zeta beta iota;
    unfold new_Texture, new_ComputeCommand;
    match goal with
    | |- context [defined (_irradianceMapFS (this ?u))] =>
        destruct (defined (_irradianceMapFS (this u)))
    end; reflexivity.
Qed.

Lemma updateIrradianceResources_awaits fs w :
  _irradianceTextureDirty (this (updateIrradianceResources fs w)) = true.
Proof.
  unfold updateIrradianceResources.
  destruct (_irradianceMapTexture _); cbv zeta beta iota;
    unfold new_Texture, new_ComputeCommand;
    match goal with
    | |- context [defined (_irradianceMapFS (this ?u))] =>
        destruct (defined (_irradianceMapFS (this u)))
    end; reflexivity.
Qed.

Lemma updateSphericalHarmonicCoefficients_stageLog fs w :
  stageLog (updateSphericalHarmonicCoefficients fs w)
  = stageLog w ++ [CoefficientStage].
Proof.
  unfold updateSphericalHarmonicCoefficients.
  rewrite (fold_left_preserves stageLog); reflexivity.
Qed.

Lemma update_stages_stageLog fs w :
  stageLog (final_world (update_stages fs w))
  = stageLog w ++ option_list (selected_stage (this w)).
Proof.
  unfold update_stages, selected_stage.
  destruct (_radianceMapDirty (this w)).
  { cbv zeta. cbn [final_world]. rewrite stageLog_on_this.
    apply updateRadianceMap_stageLog. }
  destruct (_convolutionsCommandsDirty (this w)).
  { pose proof (updateSpecularMaps_stageLog fs w) as H.
    destruct (updateSpecularMaps fs w); exact H. }
  destruct (_irradianceCommandDirty (this w)).
  { cbv zeta. rewrite this_on_this.
    change (_irradianceTextureDirty (set_irradianceCommandDirty false ?m))
      with (_irradianceTextureDirty m).
    rewrite (updateIrradianceResources_awaits fs w).
    cbn [final_world]. rewrite stageLog_on_this.
    apply updateIrradianceResources_stageLog. }
  destruct (_irradianceTextureDirty (this w)).
  { cbn [final_world option_list]. symmetry. apply app_nil_r. }
  destruct (_sphericalHarmonicCoefficientsDirty (this w)).
  { cbv zeta. cbn [final_world]. rewrite stageLog_on_this.
    apply updateSphericalHarmonicCoefficients_stageLog. }
  cbn [final_world option_list]. symmetry. apply app_nil_r.
Qed.

Lemma update_staleness_stageLog fs w :
  stageLog (update_staleness fs w) = stageLog w.
Proof.
  unfold update_staleness. destruct (negb _); [|reflexivity].
  cbv zeta. rewrite stageLog_on_this. apply reset_stageLog.
Qed.

(** ** The sequencer runs at most one stage *)

(** C1.  For every state of the manager and every frame, one call of
    [update] runs the setup of at most one stage: the log of stage setups
    grows by the list [ran], which has at most one element.  On a manager
    that is disabled or has no position, [ran] is empty, and [update]
    returns [false] in an unchanged world.  Otherwise [ran] is the stage
    selected by the first flag set, in the order radiance-map-dirty,
    convolutions-ready, irradiance-command-ready, awaiting-GPU,
    coefficients-ready, among the flags as [update] reads them, that is
    after its staleness check; that check leaves the world as it was when
    the frame time is within the threshold of the recorded time, and
    otherwise leaves radiance-map-dirty set, the first flag of the order. *)
Theorem update_runs_at_most_one_stage (frameState : FrameState) (w : World) :
  let inert := negb (enabled (this w)) || negb (defined (_position (this w))) in
  let stale :=
    negb (JulianDate.equalsEpsilon (time frameState) (_lastTime (this w))
                                   (maximumSecondsDifference (this w))) in
  let read := this (update_staleness frameState w) in
  let ran := if inert then [] else option_list (selected_stage read) in
  stageLog (final_world (update frameState w)) = stageLog w ++ ran
  /\ length ran <= 1
  /\ (if inert then update frameState w = Normal (ReturnBool false) w
      else if stale then selected_stage read = Some RadianceStage
      else update_staleness frameState w = w).
Proof.
  cbv zeta. unfold update.
  destruct (negb (enabled (this w)) || negb (defined (_position (this w)))).
  - split; [symmetry; apply app_nil_r|]. split; [simpl; lia|reflexivity].
  - cbv zeta. rewrite update_stages_stageLog, update_staleness_stageLog.
    split; [reflexivity|]. split.
    + destruct (selected_stage _); simpl; lia.
    + unfold update_staleness.
      destruct (negb (JulianDate.equalsEpsilon _ _ _)); reflexivity.
Qed.

(** ** What invalidation leaves unchanged *)

(** C7.  [_reset] sets the two radiance-stage flags and leaves unchanged the
    convolution, irradiance-command, irradiance-texture and coefficient
    flags and every other field of the manager apart from the task slots it
    clears: the position, the mip level count, the enabled flag, the cached
    shader sources, program and vertex array, the texture arrays, the cube
    map, the irradiance texture and the texture objects themselves, the
    coefficient array, the recorded time, the texture dimensions and the
    staleness threshold. *)
Theorem reset_sets_only_the_radiance_flags (w : World) :
  let m := this w in
  let m' := this (_reset w) in
  (_radianceMapDirty m' = true /\ _radianceCommandsDirty m' = true)
  /\ (_convolutionsCommandsDirty m' = _convolutionsCommandsDirty m
      /\ _irradianceCommandDirty m' = _irradianceCommandDirty m
      /\ _irradianceTextureDirty m' = _irradianceTextureDirty m
      /\ _sphericalHarmonicCoefficientsDirty m'
         = _sphericalHarmonicCoefficientsDirty m)
  /\ (_position m' = _position m
      /\ _mipmapLevels m' = _mipmapLevels m
      /\ enabled m' = enabled m)
  /\ (_radianceMapFS m' = _radianceMapFS m
      /\ _irradianceMapFS m' = _irradianceMapFS m
      /\ _convolveSP m' = _convolveSP m
      /\ _va m' = _va m
      /\ _radianceMapTextures m' = _radianceMapTextures m
      /\ _specularMapTextures m' = _specularMapTextures m
      /\ _radianceCubeMap m' = _radianceCubeMap m
      /\ _irradianceMapTexture m' = _irradianceMapTexture m
      /\ textures (_reset w) = textures w)
  /\ (_sphericalHarmonicCoefficients m' = _sphericalHarmonicCoefficients m
      /\ _lastTime m' = _lastTime m
      /\ _textureDimensions m' = _textureDimensions m
      /\ maximumSecondsDifference m' = maximumSecondsDifference m).
Proof.
  cbv zeta.
  generalize (reset_outside w), (reset_radianceMapDirty w),
             (eq_refl : _radianceCommandsDirty (this (_reset w)) = true).
  generalize (_reset w) as w'. intros w' H H1 H2.
  unfold outside_reset in H.
  repeat split; first [assumption | congruence].
Qed.

(** ** What the stages and the callbacks leave unchanged *)

Lemma quiet_on_this f w :
  (forall m, (settings (f m), _sphericalHarmonicCoefficients (f m))
             = (settings m, _sphericalHarmonicCoefficients m)) ->
  quiet (on_this f w) = quiet w.
Proof. intros H. unfold quiet. rewrite this_on_this. apply H. Qed.

Lemma settings_on_this f w :
  (forall m, settings (f m) = settings m) ->
  settings (this (on_this f w)) = settings (this w).
Proof. intros H. rewrite this_on_this. apply H. Qed.

Lemma quiet_settings w w' : quiet w' = quiet w -> settings (this w') = settings (this w).
Proof. unfold quiet. congruence. Qed.

Lemma quiet_coefficients w w' :
  quiet w' = quiet w ->
  _sphericalHarmonicCoefficients (this w') = _sphericalHarmonicCoefficients (this w).
Proof. unfold quiet. congruence. Qed.

Lemma on_this_coefficients f w :
  (forall m, _sphericalHarmonicCoefficients (f m)
             = _sphericalHarmonicCoefficients m) ->
  _sphericalHarmonicCoefficients (this (on_this f w))
  = _sphericalHarmonicCoefficients (this w).
Proof. intros H. rewrite this_on_this. apply H. Qed.

Lemma settings_lastTime m m' : settings m' = settings m -> _lastTime m' = _lastTime m.
Proof. unfold settings. congruence. Qed.

Lemma reset_quiet w : quiet (_reset w) = quiet w.
Proof.
  generalize (reset_outside w). generalize (_reset w) as w'. intros w' H.
  unfold outside_reset in H. unfold quiet, settings. congruence.
Qed.

Lemma radianceFace_quiet w e : quiet (radianceFace w e) = quiet w.
Proof.
  unfold radianceFace. destruct e as [i face].
  destruct (array_get (_radianceMapTextures (this w)) i); reflexivity.
Qed.

Lemma updateRadianceMap_quiet fs w : quiet (updateRadianceMap fs w) = quiet w.
Proof.
  unfold updateRadianceMap.
  set (w1 := if defined (_radianceCubeMap (this (log RadianceStage w)))
             then _ else _).
  assert (H1 : quiet w1 = quiet w)
    by (subst w1; destruct (defined _); reflexivity).
  clearbody w1.
  destruct (_radianceCommandsDirty (this w1)); [|exact H1].
  rewrite quiet_on_this by reflexivity.
  rewrite (fold_left_preserves quiet) by apply radianceFace_quiet.
  destruct (defined _); [exact H1|].
  rewrite quiet_on_this by reflexivity. exact H1.
Qed.

Lemma convolutionFace_quiet c n level wd ht w e :
  quiet (convolutionFace c n level wd ht w e) = quiet w.
Proof.
  unfold convolutionFace. destruct e as [faceIndex face].
  unfold new_Texture, new_ComputeCommand, push. cbv zeta.
  set (w1 := on_this _ (set_textures _ w)).
  destruct (defined (_va (this w1)));
    match goal with
    | |- context [defined (_convolveSP (this ?u))] =>
        destruct (defined (_convolveSP (this u)))
    end; reflexivity.
Qed.

Lemma convolutionLevel_quiet c n st level :
  quiet (convolutionLevel c n st level).1.1 = quiet st.1.1.
Proof.
  destruct st as [[w wd] ht]. unfold convolutionLevel. cbn [fst snd].
  rewrite (fold_left_preserves quiet) by apply convolutionFace_quiet.
  reflexivity.
Qed.

Lemma updateSpecularMaps_quiet fs w :
  quiet (final_world (updateSpecularMaps fs w)) = quiet w.
Proof.
  unfold updateSpecularMaps.
  destruct (_radianceCubeMap (this (log ConvolutionStage w))); [|reflexivity].
  cbv zeta. unfold new_counter.
  match goal with
  | |- context [fold_left ?f ?l ?a] =>
      pose proof (fold_left_preserves (fun st => quiet st.1.1) f l a
                    (convolutionLevel_quiet _ _)) as H;
      destruct (fold_left f l a) as [[w' wd] ht]
  end.
  exact H.
Qed.

Lemma updateIrradianceResources_quiet fs w :
  quiet (updateIrradianceResources fs w) = quiet w.
Proof.
  unfold updateIrradianceResources.
  destruct (_irradianceMapTexture _); cbv zeta beta iota;
    unfold new_Texture, new_ComputeCommand;
    match goal with
    | |- context [defined (_irradianceMapFS (this ?u))] =>
        destruct (defined (_irradianceMapFS (this u)))
    end; reflexivity.
Qed.

Lemma updateSphericalHarmonicCoefficients_settings fs w :
  settings (this (updateSphericalHarmonicCoefficients fs w)) = settings (this w).
Proof.
  unfold updateSphericalHarmonicCoefficients.
  rewrite (fold_left_preserves (fun w => settings (this w))); reflexivity.
Qed.

Lemma update_stages_settings fs w :
  settings (this (final_world (update_stages fs w))) = settings (this w).
Proof.
  unfold update_stages.
  destruct (_radianceMapDirty (this w)).
  { cbv zeta. cbn [final_world].
    rewrite settings_on_this by reflexivity.
    apply quiet_settings, updateRadianceMap_quiet. }
  destruct (_convolutionsCommandsDirty (this w)).
  { pose proof (updateSpecularMaps_quiet fs w) as H.
    destruct (updateSpecularMaps fs w); cbn [final_world] in *.
    - rewrite settings_on_this by reflexivity. now apply quiet_settings.
    - now apply quiet_settings. }
  set (w1 := if _irradianceCommandDirty (this w) then _ else w).
  assert (H1 : quiet w1 = quiet w).
  { subst w1. destruct (_irradianceCommandDirty (this w)); [|reflexivity].
    cbv zeta. rewrite quiet_on_this by reflexivity.
    apply updateIrradianceResources_quiet. }
  clearbody w1. apply quiet_settings in H1.
  destruct (_irradianceTextureDirty (this w1)); [exact H1|].
  destruct (_sphericalHarmonicCoefficientsDirty (this w1)); [|exact H1].
  cbv zeta. cbn [final_world].
  rewrite settings_on_this by reflexivity.
  now rewrite updateSphericalHarmonicCoefficients_settings.
Qed.

(** ** The comparisons *)

Lemma JulianDate_equalsEpsilon_within (t t0 threshold : Q) :
  (Qabs (t - t0) <= threshold)%Q ->
  JulianDate.equalsEpsilon t t0 threshold = true.
Proof.
  intros H. unfold JulianDate.equalsEpsilon, JulianDate.secondsDifference.
  now apply Qle_bool_iff.
Qed.

Lemma JulianDate_equalsEpsilon_beyond (t t0 threshold : Q) :
  (threshold < Qabs (t - t0))%Q ->
  JulianDate.equalsEpsilon t t0 threshold = false.
Proof.
  intros H. unfold JulianDate.equalsEpsilon, JulianDate.secondsDifference.
  destruct (Qle_bool (Qabs (t - t0)) threshold) eqn:E; [|reflexivity].
  apply Qle_bool_iff in E. exfalso. exact (Qlt_not_le _ _ H E).
Qed.

Lemma CesiumMath_equalsEpsilon_within (l r e : Q) :
  (Qabs (l - r) <= e)%Q -> CesiumMath.equalsEpsilon l r e e = true.
Proof.
  intros H. unfold CesiumMath.equalsEpsilon.
  apply orb_true_iff. left. now apply Qle_bool_iff.
Qed.

Lemma square_bound (a b c e : Q) :
  (0 <= e)%Q -> (a * a + b * b + c * c < e * e)%Q -> (Qabs a <= e)%Q.
Proof. intros He H. apply Qabs_case; intros; nra. Qed.

Lemma Cartesian3_equalsEpsilon_within (p q : Cartesian3.t) (e : Q) :
  (0 <= e)%Q -> (Cartesian3.distanceSquared p q < e * e)%Q ->
  Cartesian3.equalsEpsilon (Some p) (Some q) e = true.
Proof.
  unfold Cartesian3.distanceSquared, Cartesian3.equalsEpsilon.
  intros He H.
  rewrite !CesiumMath_equalsEpsilon_within; [reflexivity| | |].
  - apply (square_bound _ (Cartesian3.x p - Cartesian3.x q)
                          (Cartesian3.y p - Cartesian3.y q)); [exact He|].
    nra.
  - apply (square_bound _ (Cartesian3.x p - Cartesian3.x q)
                          (Cartesian3.z p - Cartesian3.z q)); [exact He|].
    nra.
  - apply (square_bound _ (Cartesian3.y p - Cartesian3.y q)
                          (Cartesian3.z p - Cartesian3.z q)); [exact He|].
    nra.
Qed.

Lemma distanceSquared_sym (p q : Cartesian3.t) :
  (Cartesian3.distanceSquared p q == Cartesian3.distanceSquared q p)%Q.
Proof. unfold Cartesian3.distanceSquared. ring. Qed.

Lemma EPSILON8_nonneg : (0 <= CesiumMath.EPSILON8)%Q.
Proof. unfold CesiumMath.EPSILON8, Qle. simpl. lia. Qed.

Lemma update_not_stale fs w :
  JulianDate.equalsEpsilon (time fs) (_lastTime (this w))
                           (maximumSecondsDifference (this w)) = true ->
  update_staleness fs w = w.
Proof. intros H. unfold update_staleness. now rewrite H. Qed.

Lemma update_stale fs w :
  JulianDate.equalsEpsilon (time fs) (_lastTime (this w))
                           (maximumSecondsDifference (this w)) = false ->
  update_staleness fs w
  = on_this (set_lastTime (JulianDate.clone (time fs))) (_reset w).
Proof. intros H. unfold update_staleness. now rewrite H. Qed.

Lemma update_active fs w :
  enabled (this w) = true -> defined (_position (this w)) = true ->
  update fs w = update_stages fs (update_staleness fs w).
Proof. intros He Hp. unfold update. now rewrite He, Hp. Qed.

(** ** Redundant invalidation *)

(** C6, as amended.  Setting the position to [p2] when it is [p1] and
    |p1 - p2| < epsilon changes nothing: no task is canceled, no flag
    changes, [p2] is not stored.  An [update] at a time within the threshold
    of the recorded time invalidates nothing: it goes on to the stages in
    the world as it was (or, on a manager that is disabled or has no
    position, returns in it).  An [update] at a time further than the
    threshold from the recorded time, on a manager that is enabled and has a
    position, invalidates once, records the time of the frame, and goes on
    to the stages, which leave the recorded time alone. *)
Theorem redundant_invalidation_is_absorbed :
  (forall (w : World) (p1 p2 : Cartesian3.t),
      _position (this w) = Some p1 ->
      (Cartesian3.distanceSquared p1 p2
       < CesiumMath.EPSILON8 * CesiumMath.EPSILON8)%Q ->
      position_set (Some p2) w = w)
  /\ (forall (frameState : FrameState) (w : World),
         (Qabs (time frameState - _lastTime (this w))
          <= maximumSecondsDifference (this w))%Q ->
         update_staleness frameState w = w
         /\ update frameState w
            = if negb (enabled (this w)) || negb (defined (_position (this w)))
              then Normal (ReturnBool false) w
              else update_stages frameState w)
  /\ (forall (frameState : FrameState) (w : World),
         enabled (this w) = true ->
         defined (_position (this w)) = true ->
         (maximumSecondsDifference (this w)
          < Qabs (time frameState - _lastTime (this w)))%Q ->
         update frameState w
         = update_stages frameState
             (on_this (set_lastTime (time frameState)) (_reset w))
         /\ _lastTime (this (final_world (update frameState w)))
            = time frameState).
Proof.
  split; [|split].
  - intros w p1 p2 Hp Hd. unfold position_set. rewrite Hp.
    rewrite Cartesian3_equalsEpsilon_within; [reflexivity|apply EPSILON8_nonneg|].
    now rewrite distanceSquared_sym.
  - intros fs w H. apply JulianDate_equalsEpsilon_within in H.
    rewrite (update_not_stale _ _ H). split; [reflexivity|].
    unfold update. now rewrite (update_not_stale _ _ H).
  - intros fs w He Hp H. apply JulianDate_equalsEpsilon_beyond in H.
    rewrite (update_active _ _ He Hp), (update_stale _ _ H).
    split; [reflexivity|].
    exact (settings_lastTime _ _ (update_stages_settings fs _)).
Qed.

(** ** After a cycle *)

(** C9, what the code does.  With all six flags clear, on a manager that is
    enabled and has a position, at a time within the threshold of the
    recorded time, [update] changes nothing in the world (no task, no flag,
    no resource) and runs off its end: it returns [undefined], not [false]. *)
Theorem update_after_a_cycle_returns_undefined (frameState : FrameState)
  (w : World) :
  enabled (this w) = true ->
  defined (_position (this w)) = true ->
  JulianDate.equalsEpsilon (time frameState) (_lastTime (this w))
                           (maximumSecondsDifference (this w)) = true ->
  flags (this w) = [false; false; false; false; false; false] ->
  update frameState w = Normal ReturnUndefined w.
Proof.
  intros He Hp Ht Hf. unfold flags in Hf.
  injection Hf as _ H1 H2 H3 H4 H5.
  rewrite (update_active _ _ He Hp), (update_not_stale _ _ Ht).
  unfold update_stages. rewrite H1, H2, H3. cbv zeta. now rewrite H4, H5.
Qed.

(** ** The statements at sample inputs *)

Lemma redundant_invalidation_is_absorbed_witness :
  position_set (Some sample_position_near) (sample_world 2) = sample_world 2
  /\ update_staleness (sample_frame 600) (sample_world 2) = sample_world 2
  /\ _lastTime (this (final_world (update (sample_frame 5000) (sample_world 2))))
     = 5000%Q.
Proof.
  destruct redundant_invalidation_is_absorbed as (Ha & Hb & Hc).
  split; [|split].
  - apply (Ha _ sample_position); [reflexivity|].
    vm_compute. reflexivity.
  - apply Hb. vm_compute. discriminate.
  - apply Hc; [reflexivity|reflexivity|].
    vm_compute. reflexivity.
Defined.

(** C6, as stated, fails: the staleness check is behind the gate of [update].
    The sample manager, disabled by the host after its first frame at
    5000 s, is updated at 10000 s, 5000 s past the recorded time and so
    beyond the threshold of 1200 s: the call returns [false], the world is
    as it was, the six tasks in flight are not canceled and the recorded
    time is still 5000 s. *)
Lemma stale_update_of_a_disabled_manager :
  let w := on_this (set_enabled false)
                   (final_world (update (sample_frame 5000) (sample_world 2))) in
  let frameState := sample_frame 10000 in
  (maximumSecondsDifference (this w)
   < Qabs (time frameState - _lastTime (this w)))%Q
  /\ update frameState w = Normal (ReturnBool false) w
  /\ _lastTime (this (final_world (update frameState w))) = 5000%Q
  /\ map ComputeCommand.canceled (commands (final_world (update frameState w)))
     = [false; false; false; false; false; false]
  /\ _radianceMapComputeCommands (this (final_world (update frameState w)))
     = [Some 0; Some 1; Some 2; Some 3; Some 4; Some 5].
Proof.
  cbv zeta. split; [vm_compute; reflexivity|].
  split; [reflexivity|]. split; [reflexivity|]. split; reflexivity.
Qed.

Lemma update_after_a_cycle_returns_undefined_witness :
  update (sample_frame 5000) sample_completed
  = Normal ReturnUndefined sample_completed.
Proof.
  apply update_after_a_cycle_returns_undefined; vm_compute; reflexivity.
Defined.

(** ** Invalidation and the irradiance task *)

(** C2, what the code does.  The sample manager of two levels is taken
    through the radiance and convolution stages and, in a third frame,
    through the setup of the irradiance stage, whose task (object 12) is then
    on the frame's list and in [_irradianceComputeCommand].  [_reset] tests
    and clears [_irradianceMapComputeCommand], a property under another
    name: after it the task is not canceled and still in its slot, and when
    the engine runs it the coefficient flag is raised. *)
Theorem reset_leaves_the_irradiance_task :
  let f := sample_frame 5000 in
  let w := final_world (update f (runFrame f (runFrame f (sample_world 2)))) in
  let w' := _reset w in
  (_irradianceComputeCommand (this w) = Some 12
   /\ commandList w = [12]
   /\ ComputeCommand.canceled <$> commands w !! 12 = Some false)
  /\ (_irradianceComputeCommand (this w') = Some 12
      /\ ComputeCommand.canceled <$> commands w' !! 12 = Some false)
  /\ (_sphericalHarmonicCoefficientsDirty (this w') = false
      /\ _sphericalHarmonicCoefficientsDirty (this (executeAll w')) = true).
Proof. cbv zeta. repeat split; vm_compute; reflexivity. Qed.

(** ** The textures of the mip chain *)

(** C8, what the code does.  The sample manager of two levels runs the
    radiance and convolution stages, is given another position, and runs the
    two stages again.  The six face textures (objects 0 to 5) serve both
    cycles.  The six textures of the mip chain do not: the second cycle
    makes six new ones (12 to 17) and drops the references to the first six
    (6 to 11), which [destroy] then cannot release. *)
Theorem mip_chain_textures_are_made_again :
  let f := sample_frame 5000 in
  let w1 := runFrame f (runFrame f (sample_world 2)) in
  let w2 := runFrame f (runFrame f (position_set (Some sample_position_far) w1)) in
  (length (textures w1) = 12
   /\ _radianceMapTextures (this w1)
      = [Some 0; Some 1; Some 2; Some 3; Some 4; Some 5]
   /\ _specularMapTextures (this w1)
      = [Some 6; Some 7; Some 8; Some 9; Some 10; Some 11])
  /\ (length (textures w2) = 18
      /\ _radianceMapTextures (this w2)
         = [Some 0; Some 1; Some 2; Some 3; Some 4; Some 5]
      /\ _specularMapTextures (this w2)
         = [Some 12; Some 13; Some 14; Some 15; Some 16; Some 17])
  /\ map Texture.destroyed (textures (destroy w2))
     = [true; true; true; true; true; true;
        false; false; false; false; false; false;
        true; true; true; true; true; true].
Proof. cbv zeta. repeat split; vm_compute; reflexivity. Qed.

(** ** The coefficient array *)

Lemma runPostExecute_quiet p w : quiet (runPostExecute p w) = quiet w.
Proof.
  destruct p as [index face|c index texture face level|]; cbn [runPostExecute].
  - cbv zeta. destruct (negb _); reflexivity.
  - cbv zeta. destruct (decide _); reflexivity.
  - reflexivity.
Qed.

Lemma execute_quiet r w : quiet (execute r w) = quiet w.
Proof.
  unfold execute. destruct (commands w !! r) as [c|]; [|reflexivity].
  destruct (ComputeCommand.canceled c); [reflexivity|].
  apply runPostExecute_quiet.
Qed.

Lemma position_set_coefficients v w :
  _sphericalHarmonicCoefficients (this (position_set v w))
  = _sphericalHarmonicCoefficients (this w).
Proof.
  unfold position_set. destruct (Cartesian3.equalsEpsilon _ _ _); [reflexivity|].
  exact (quiet_coefficients _ _ (reset_quiet (on_this (set_position v) w))).
Qed.

Lemma updateSphericalHarmonicCoefficients_array fs w :
  _sphericalHarmonicCoefficients (this (updateSphericalHarmonicCoefficients fs w))
  = unpack_all (context_readPixels fs) (_sphericalHarmonicCoefficients (this w)).
Proof.
  unfold updateSphericalHarmonicCoefficients, unpack_all.
  change (_sphericalHarmonicCoefficients (this w))
    with (_sphericalHarmonicCoefficients (this (log CoefficientStage w))).
  generalize (log CoefficientStage w) as u. generalize (seq 0 9) as l.
  induction l as [|i l IH]; intros u; [reflexivity|].
  cbn [fold_left]. rewrite IH. reflexivity.
Qed.

Lemma array_set_length {A : Type} (a : list (option A)) i v :
  i < length a -> length (array_set a i v) = length a.
Proof.
  intros H. unfold array_set. destruct (decide (i < length a)); [|lia].
  apply length_insert.
Qed.

Ltac array_length :=
  first [lia | rewrite array_set_length; [array_length | array_length]].

Lemma unpack_all_length data a : length a = 9 -> length (unpack_all data a) = 9.
Proof.
  intros H. unfold unpack_all. cbn [seq fold_left]. array_length.
Qed.

Lemma update_stages_coefficients_length fs w :
  length (_sphericalHarmonicCoefficients (this w)) = 9 ->
  length (_sphericalHarmonicCoefficients (this (final_world (update_stages fs w))))
  = 9.
Proof.
  intros Hw.
  assert (Hq : forall u, quiet u = quiet w ->
                 length (_sphericalHarmonicCoefficients (this u)) = 9).
  { intros u Hu. now rewrite (quiet_coefficients _ _ Hu). }
  unfold update_stages.
  destruct (_radianceMapDirty (this w)).
  { cbv zeta. cbn [final_world]. apply Hq.
    rewrite quiet_on_this by reflexivity. apply updateRadianceMap_quiet. }
  destruct (_convolutionsCommandsDirty (this w)).
  { pose proof (updateSpecularMaps_quiet fs w) as H.
    destruct (updateSpecularMaps fs w); cbn [final_world] in *; apply Hq.
    - now rewrite quiet_on_this by reflexivity.
    - exact H. }
  set (w1 := if _irradianceCommandDirty (this w) then _ else w).
  assert (H1 : quiet w1 = quiet w).
  { subst w1. destruct (_irradianceCommandDirty (this w)); [|reflexivity].
    cbv zeta. rewrite quiet_on_this by reflexivity.
    apply updateIrradianceResources_quiet. }
  clearbody w1. apply Hq in H1.
  destruct (_irradianceTextureDirty (this w1)); [exact H1|].
  destruct (_sphericalHarmonicCoefficientsDirty (this w1)); [|exact H1].
  cbv zeta. cbn [final_world].
  rewrite on_this_coefficients by reflexivity.
  rewrite updateSphericalHarmonicCoefficients_array.
  now apply unpack_all_length.
Qed.

Lemma update_coefficients_length fs w :
  length (_sphericalHarmonicCoefficients (this w)) = 9 ->
  length (_sphericalHarmonicCoefficients (this (final_world (update fs w)))) = 9.
Proof.
  intros Hw. unfold update.
  destruct (negb (enabled (this w)) || negb (defined (_position (this w))));
    [exact Hw|].
  cbv zeta. apply update_stages_coefficients_length.
  unfold update_staleness. destruct (negb _); [|exact Hw].
  cbv zeta.
  rewrite on_this_coefficients by reflexivity.
  now rewrite (quiet_coefficients _ _ (reset_quiet w)).
Qed.

Lemma reachable_coefficients_length w :
  reachable w -> length (_sphericalHarmonicCoefficients (this w)) = 9.
Proof.
  induction 1 as [o m Hm|v w _ IH|b w _ IH|q w _ IH|fs w _ IH|r w _ IH|w _ IH].
  - unfold DynamicEnvironmentMapManager in Hm.
    destruct (_ <? _)%Z; [discriminate|]. injection Hm as <-. reflexivity.
  - now rewrite position_set_coefficients.
  - exact IH.
  - exact IH.
  - now apply update_coefficients_length.
  - now rewrite (quiet_coefficients _ _ (execute_quiet r w)).
  - exact IH.
Qed.

Lemma unpack_raster (texels : list Texel) (i : nat) (t : Texel) :
  texels !! i = Some t -> Cartesian3.unpack (raster texels) (i * 4) = Some (rgb t).
Proof.
  revert i. induction texels as [|t0 texels IH]; intros i H; [discriminate|].
  destruct i as [|i].
  - injection H as ->. reflexivity.
  - cbn in H. specialize (IH i H).
    unfold Cartesian3.unpack in *. cbn [raster flat_map app].
    replace (S i * 4) with (S (S (S (S (i * 4))))) by lia.
    exact IH.
Qed.

(** C5.  In every world the manager can be in the coefficient array has
    length 9; and when the readback of the 3 by 3 irradiance texture is the
    raster of nine texels, coefficient extraction leaves in the array, slot
    by slot in raster order (the order L0,0; L1,-1; L1,0; L1,1; L2,-2; L2,-1;
    L2,0; L2,1; L2,2 of the coefficients), the vector of the first three
    channels of each texel, and nothing else. *)
Theorem coefficient_extraction (w : World) (frameState : FrameState)
  (texels : list Texel) :
  reachable w ->
  length texels = 9 ->
  context_readPixels frameState = raster texels ->
  length (_sphericalHarmonicCoefficients (this w)) = 9
  /\ _sphericalHarmonicCoefficients
       (this (updateSphericalHarmonicCoefficients frameState w))
     = map (fun t => Some (rgb t)) texels.
Proof.
  intros Hr Ht Hd. pose proof (reachable_coefficients_length w Hr) as Hl.
  split; [exact Hl|].
  rewrite updateSphericalHarmonicCoefficients_array, Hd.
  destruct (_sphericalHarmonicCoefficients (this w))
    as [|c0 [|c1 [|c2 [|c3 [|c4 [|c5 [|c6 [|c7 [|c8 [|c9 a]]]]]]]]]];
    try discriminate Hl.
  destruct texels as [|t0 [|t1 [|t2 [|t3 [|t4 [|t5 [|t6 [|t7 [|t8 [|t9 l]]]]]]]]]];
    try discriminate Ht.
  reflexivity.
Qed.

Lemma coefficient_extraction_witness :
  length (_sphericalHarmonicCoefficients (this (sample_world 2))) = 9
  /\ _sphericalHarmonicCoefficients
       (this (updateSphericalHarmonicCoefficients (sample_frame 5000)
                                                  (sample_world 2)))
     = map (fun t => Some (rgb t)) sample_texels.
Proof.
  apply coefficient_extraction.
  - apply reachable_position. apply (reachable_new (Some 2%Z)). reflexivity.
  - reflexivity.
  - reflexivity.
Defined.

(** ** The convolution stage *)

Lemma turn_index (j : nat) : (j / 6 + 1 - 1) * 6 + j mod 6 = j.
Proof. pose proof (Nat.div_mod_eq j 6). lia. Qed.

Lemma convolutionFace_chain c n level wd ht w fi face :
  chain (convolutionFace c n level wd ht w (fi, face))
  = (commands w
       ++ [{| ComputeCommand.outputTexture := length (textures w);
              ComputeCommand.uniformMap :=
                ConvolutionUniforms
                  (inject_Z (Z.of_nat level) / inject_Z (n - 1)) face;
              ComputeCommand.persists := true;
              ComputeCommand.canceled := false;
              ComputeCommand.postExecute :=
                ConvolutionPostExecute c ((level - 1) * 6 + fi)
                                       (length (textures w)) face level |}],
     textures w ++ [Texture.Build wd ht UNSIGNED_BYTE false],
     commandList w ++ [length (commands w)],
     array_set (_convolutionComputeCommands (this w)) ((level - 1) * 6 + fi)
               (Some (length (commands w))),
     array_set (_specularMapTextures (this w)) ((level - 1) * 6 + fi)
               (Some (length (textures w)))).
Proof.
  unfold convolutionFace.
  unfold new_Texture, new_ComputeCommand, push. cbv zeta.
  set (w1 := on_this _ (set_textures _ w)).
  destruct (defined (_va (this w1)));
    match goal with
    | |- context [defined (_convolveSP (this ?u))] =>
        destruct (defined (_convolveSP (this u)))
    end; reflexivity.
Qed.

Lemma array_set_next {A : Type} (f : nat -> A) (a : list (option A)) (m : nat) :
  m < length a ->
  array_set (map (fun i => Some (f i)) (seq 0 m) ++ drop m a) m (Some (f m))
  = map (fun i => Some (f i)) (seq 0 (S m)) ++ drop (S m) a.
Proof.
  intros Hm. unfold array_set.
  rewrite length_app, length_map, length_seq, length_drop.
  destruct (decide (m < m + (length a - m))); [|lia].
  rewrite insert_app_r_alt by (rewrite length_map, length_seq; lia).
  rewrite length_map, length_seq, Nat.sub_diag.
  destruct (drop m a) as [|x rest] eqn:E.
  { apply (f_equal length) in E. rewrite length_drop in E. simpl in E. lia. }
  rewrite seq_S, map_app. cbn [map insert list_insert app].
  rewrite <- app_assoc. cbn [app]. do 2 f_equal.
  pose proof (drop_drop a 1 m) as H. rewrite E in H. cbn in H.
  rewrite Nat.add_comm in H. cbn in H. now rewrite drop_0 in H.
Qed.

(** The flat loop, turn by turn. *)
Lemma convolution_turns_chain c n wd ht w m :
  m <= length (_convolutionComputeCommands (this w)) ->
  m <= length (_specularMapTextures (this w)) ->
  chain (fold_left (convolution_turn c n wd ht) (seq 0 m) w)
  = (commands w ++ map (convolution_command c n (length (textures w))) (seq 0 m),
     textures w ++ map (convolution_texture wd ht) (seq 0 m),
     commandList w ++ map (fun i => length (commands w) + i) (seq 0 m),
     map (fun i => Some (length (commands w) + i)) (seq 0 m)
       ++ drop m (_convolutionComputeCommands (this w)),
     map (fun i => Some (length (textures w) + i)) (seq 0 m)
       ++ drop m (_specularMapTextures (this w))).
Proof.
  induction m as [|m IH]; intros H1 H2.
  - cbn [seq map fold_left]. rewrite !app_nil_r, !drop_0. reflexivity.
  - rewrite seq_S, fold_left_app. cbn [fold_left plus].
    unfold convolution_turn at 1. rewrite convolutionFace_chain.
    specialize (IH ltac:(lia) ltac:(lia)).
    set (u := fold_left (convolution_turn c n wd ht) (seq 0 m) w) in *.
    unfold chain in IH. injection IH as Hc Ht Hl Ha Hb.
    rewrite Hc, Ht, Hl, Ha, Hb, turn_index.
    rewrite !length_app, !length_map, !length_seq.
    rewrite !array_set_next by lia.
    rewrite !seq_S, !map_app, <- !app_assoc. reflexivity.
Qed.

Lemma convolution_turn_at c n wd ht u (level0 i : nat) :
  i < 6 ->
  convolution_turn c n wd ht u (i + level0 * 6)
  = convolutionFace c n (S level0) (Nat.iter level0 halve wd)
                    (Nat.iter level0 halve ht) u (i, face_at i).
Proof.
  intros Hi. unfold convolution_turn.
  rewrite Nat.div_add, Nat.Div0.mod_add by lia.
  rewrite (Nat.div_small i 6), (Nat.mod_small i 6) by lia.
  cbn [plus]. now rewrite Nat.add_1_r.
Qed.

Lemma seq_level (level0 : nat) :
  seq (6 * level0) 6 = map (fun i => i + level0 * 6) (seq 0 6).
Proof. cbn [seq map]. cbv beta. repeat (f_equal; try lia). Qed.

Lemma convolution_level_flat c n wd ht u (k : nat) :
  fold_left (convolutionFace c n (S k) (Nat.iter k halve wd)
                             (Nat.iter k halve ht)) CubeMap.entries u
  = fold_left (convolution_turn c n wd ht) (seq (6 * k) 6) u.
Proof.
  rewrite seq_level.
  change CubeMap.entries
    with [(0, PositiveX); (1, NegativeX); (2, PositiveY); (3, NegativeY);
          (4, PositiveZ); (5, NegativeZ)].
  cbn [seq map fold_left].
  rewrite !convolution_turn_at by lia. reflexivity.
Qed.

Lemma convolution_levels_flat c n wd ht w (levels : nat) :
  fold_left (convolutionLevel c n) (seq 1 levels) (w, wd, ht)
  = (fold_left (convolution_turn c n wd ht) (seq 0 (6 * levels)) w,
     Nat.iter levels halve wd, Nat.iter levels halve ht).
Proof.
  induction levels as [|k IH].
  - reflexivity.
  - rewrite seq_S, fold_left_app, IH.
    replace (6 * S k) with (6 * k + 6) by lia.
    rewrite seq_app, fold_left_app.
    generalize (fold_left (convolution_turn c n wd ht) (seq 0 (6 * k)) w) as u.
    intros u. cbn [plus fold_left]. unfold convolutionLevel.
    rewrite convolution_level_flat. reflexivity.
Qed.

Lemma convolutionFace_beside c n level wd ht w e :
  beside_chain (convolutionFace c n level wd ht w e) = beside_chain w.
Proof.
  unfold convolutionFace. destruct e as [faceIndex face].
  unfold new_Texture, new_ComputeCommand, push. cbv zeta.
  set (w1 := on_this _ (set_textures _ w)).
  destruct (defined (_va (this w1)));
    match goal with
    | |- context [defined (_convolveSP (this ?u))] =>
        destruct (defined (_convolveSP (this u)))
    end; reflexivity.
Qed.

Lemma convolution_turns_beside c n wd ht w l :
  beside_chain (fold_left (convolution_turn c n wd ht) l w) = beside_chain w.
Proof.
  apply (fold_left_preserves beside_chain). intros a b.
  apply convolutionFace_beside.
Qed.

Lemma updateSpecularMaps_flat fs w cm :
  _radianceCubeMap (this w) = Some cm ->
  updateSpecularMaps fs w
  = Normal tt
      (fold_left
         (convolution_turn (length (counters w)) (_mipmapLevels (this w))
            (Cartesian2.x (_textureDimensions (this w)) / 2)
            (Cartesian2.y (_textureDimensions (this w)) / 2))
         (seq 0 (6 * (Z.to_nat (_mipmapLevels (this w)) - 1)))
         (set_counters (counters w ++ [0])
            (on_this (set_radianceCubeMap (Some (CubeMap.generateMipmap cm)))
                     (log ConvolutionStage w)))).
Proof.
  intros H. unfold updateSpecularMaps.
  change (_radianceCubeMap (this (log ConvolutionStage w)))
    with (_radianceCubeMap (this w)).
  rewrite H. cbv zeta. unfold new_counter.
  rewrite convolution_levels_flat. reflexivity.
Qed.

Lemma halvings (b : Q) (k : nat) :
  (Nat.iter k halve (b / 2) == b / 2 ^ Z.of_nat (S k))%Q.
Proof.
  induction k as [|k IH].
  - cbn [Nat.iter]. change (2 ^ Z.of_nat 1)%Q with 2%Q. reflexivity.
  - change (Nat.iter (S k) halve (b / 2)%Q)
      with (Nat.iter k halve (b / 2) / 2)%Q.
    rewrite IH.
    rewrite (Nat2Z.inj_succ (S k)), <- Z.add_1_r.
    rewrite Qpower_plus by discriminate.
    change (2 ^ 1)%Q with 2%Q.
    assert (H : ~ (2 ^ Z.of_nat (S k) == 0)%Q)
      by (apply Qpower_not_0; discriminate).
    field. exact H.
Qed.

Lemma chain_index (level faceIndex : nat) :
  1 <= level -> faceIndex < 6 ->
  ((level - 1) * 6 + faceIndex) / 6 = level - 1
  /\ ((level - 1) * 6 + faceIndex) mod 6 = faceIndex.
Proof.
  intros Hl Hf.
  rewrite Nat.add_comm, Nat.div_add, Nat.Div0.mod_add by lia.
  rewrite Nat.div_small, Nat.mod_small by lia. lia.
Qed.

Lemma face_at_lookup faceIndex face :
  CubeMap.faceNames !! faceIndex = Some face ->
  face_at faceIndex = face /\ faceIndex < 6.
Proof.
  intros H. split; [unfold face_at; now rewrite H|].
  apply lookup_lt_Some in H. exact H.
Qed.

Lemma lookup_map_seq {A : Type} (f : nat -> A) (m i : nat) :
  i < m -> map f (seq 0 m) !! i = Some (f i).
Proof.
  intros H. change (map f (seq 0 m)) with (f <$> seq 0 m).
  rewrite list_lookup_fmap, lookup_seq_lt by exact H. reflexivity.
Qed.

(** What a completion of a convolution task does to the count, the flag of
    the irradiance stage and the sampler. *)
Lemma convolution_completion u (cell index t : nat) face level k :
  counters u !! cell = Some k ->
  let u' := runPostExecute (ConvolutionPostExecute cell index t face level) u in
  counters u' !! cell = Some (S k)
  /\ commands u' = commands u
  /\ length (_specularMapTextures (this u')) = length (_specularMapTextures (this u))
  /\ (if decide (S k = length (_specularMapTextures (this u)))
      then _irradianceCommandDirty (this u') = true
           /\ CubeMap.sampler <$> _radianceCubeMap (this u')
              = (fun _ => Some LINEAR_MIPMAP_LINEAR) <$> _radianceCubeMap (this u)
      else _irradianceCommandDirty (this u') = _irradianceCommandDirty (this u)
           /\ CubeMap.sampler <$> _radianceCubeMap (this u')
              = CubeMap.sampler <$> _radianceCubeMap (this u)).
Proof.
  intros Hk. cbv zeta. cbn [runPostExecute]. cbv zeta.
  unfold CounterRef in *.
  set (u1 := set_counters _ _).
  assert (H1 : counters u1 !! cell = Some (S k)).
  { subst u1. cbn [counters set_counters].
    rewrite list_lookup_alter, !counters_on_this, decide_True by reflexivity.
    rewrite Hk. reflexivity. }
  assert (H2 : length (_specularMapTextures (this u1))
               = length (_specularMapTextures (this u))) by reflexivity.
  assert (H3 : commands u1 = commands u) by reflexivity.
  assert (H4 : _irradianceCommandDirty (this u1) = _irradianceCommandDirty (this u))
    by reflexivity.
  assert (H5 : CubeMap.sampler <$> _radianceCubeMap (this u1)
               = CubeMap.sampler <$> _radianceCubeMap (this u)).
  { subst u1. cbn. destruct (_radianceCubeMap (this u)); reflexivity. }
  clearbody u1. rewrite H1, H2.
  destruct (decide (Some (S k) = Some (length (_specularMapTextures (this u)))))
    as [E|E].
  - injection E as E. destruct (decide _) as [_|]; [|contradiction].
    repeat split; try assumption.
    cbn. destruct (_radianceCubeMap (this u1)), (_radianceCubeMap (this u));
      try discriminate; reflexivity.
  - destruct (decide _) as [E'|_]; [congruence|].
    repeat split; assumption.
Qed.

Lemma chain_length_turns m :
  chain_length m = 6 * (Z.to_nat (_mipmapLevels m) - 1).
Proof. unfold chain_length. lia. Qed.

Lemma updateSpecularMaps_closed fs w cm :
  _radianceCubeMap (this w) = Some cm ->
  length (_convolutionComputeCommands (this w)) = chain_length (this w) ->
  length (_specularMapTextures (this w)) = chain_length (this w) ->
  exists w',
    updateSpecularMaps fs w = Normal tt w'
    /\ chain w'
       = (commands w
            ++ map (convolution_command (length (counters w))
                      (_mipmapLevels (this w)) (length (textures w)))
                   (seq 0 (chain_length (this w))),
          textures w
            ++ map (convolution_texture
                      (Cartesian2.x (_textureDimensions (this w)) / 2)
                      (Cartesian2.y (_textureDimensions (this w)) / 2))
                   (seq 0 (chain_length (this w))),
          commandList w
            ++ map (fun i => length (commands w) + i)
                   (seq 0 (chain_length (this w))),
          map (fun i => Some (length (commands w) + i))
              (seq 0 (chain_length (this w))),
          map (fun i => Some (length (textures w) + i))
              (seq 0 (chain_length (this w))))
    /\ beside_chain w'
       = (counters w ++ [0], stageLog w ++ [ConvolutionStage],
          Some (CubeMap.generateMipmap cm), flags (this w),
          _radianceMapComputeCommands (this w), _radianceMapTextures (this w),
          _irradianceComputeCommand (this w), _irradianceMapTexture (this w)).
Proof.
  intros Hc H1 H2. rewrite (updateSpecularMaps_flat fs w cm Hc).
  eexists. split; [reflexivity|].
  rewrite <- chain_length_turns.
  set (w0 := set_counters _ _).
  split.
  - rewrite convolution_turns_chain.
    + change (commands w0) with (commands w).
      change (textures w0) with (textures w).
      change (commandList w0) with (commandList w).
      change (_convolutionComputeCommands (this w0))
        with (_convolutionComputeCommands (this w)).
      change (_specularMapTextures (this w0))
        with (_specularMapTextures (this w)).
      rewrite !drop_ge, !app_nil_r by lia. reflexivity.
    + change (_convolutionComputeCommands (this w0))
        with (_convolutionComputeCommands (this w)). lia.
    + change (_specularMapTextures (this w0))
        with (_specularMapTextures (this w)). lia.
  - rewrite convolution_turns_beside. reflexivity.
Qed.

Lemma executeEach_snoc rs r w :
  executeEach (rs ++ [r]) w = execute r (executeEach rs w).
Proof. unfold executeEach. now rewrite fold_left_app. Qed.

Lemma batch_completions (cell tlen total : nat) (N : Z)
  (old : list ComputeCommand.t) flag filter (rs : list nat) (w' : World) :
  batch_state cell total
    (old ++ map (convolution_command cell N tlen) (seq 0 total))
    flag filter 0 w' ->
  Forall (fun r => length old <= r < length old + total) rs ->
  batch_state cell total
    (old ++ map (convolution_command cell N tlen) (seq 0 total))
    flag filter (length rs) (executeEach rs w').
Proof.
  intros H0. induction rs as [|r rs IH] using rev_ind; intros Hrs.
  - exact H0.
  - apply Forall_app in Hrs as [Hrs Hr]. apply Forall_inv in Hr.
    specialize (IH Hrs). rewrite executeEach_snoc, length_app.
    cbn [length]. rewrite Nat.add_1_r.
    generalize dependent (executeEach rs w').
    intros u (Hc & Hk & Hl & Hf & Hs).
    unfold execute. rewrite Hc.
    rewrite lookup_app_r by lia.
    rewrite lookup_map_seq by lia.
    cbn [ComputeCommand.canceled ComputeCommand.postExecute convolution_command].
    pose proof (convolution_completion u cell (r - length old)
                  (tlen + (r - length old)) (face_at ((r - length old) mod 6))
                  ((r - length old) / 6 + 1) (length rs) Hk) as H.
    cbv zeta in H. destruct H as (Hk' & Hc' & Hl' & H).
    unfold batch_state. rewrite Hk', Hc', Hl', Hc, Hl.
    do 3 (split; [reflexivity|]).
    rewrite Hl in H.
    assert (Ht : 1 <= total) by lia.
    destruct (decide (S (length rs) = total)) as [E|E]; destruct H as [H1 H2].
    + rewrite H1, H2.
      replace ((1 <=? total) && (total <=? S (length rs))) with true
        by (symmetry; apply andb_true_iff; split; apply Nat.leb_le; lia).
      rewrite orb_true_r. split; [reflexivity|].
      destruct (_radianceCubeMap (this u)); [reflexivity|discriminate Hs].
    + rewrite H1, H2, Hf, Hs.
      replace (total <=? S (length rs)) with (total <=? length rs);
        [split; reflexivity|].
      destruct (Nat.leb_spec total (length rs)),
               (Nat.leb_spec total (S (length rs))); try reflexivity; lia.
Qed.

Lemma map_add_seq (a n : nat) : map (fun i => a + i) (seq 0 n) = seq a n.
Proof.
  change (map (fun i => a + i) (seq 0 n)) with ((fun i => a + i) <$> seq 0 n).
  rewrite fmap_add_seq. now rewrite Nat.add_0_r.
Qed.

Lemma array_get_map_seq {A : Type} (f : nat -> A) (m i : nat) :
  i < m -> array_get (map (fun i => Some (f i)) (seq 0 m)) i = Some (f i).
Proof. intros H. unfold array_get. now rewrite lookup_map_seq. Qed.

(** C4.  On a manager that has its cube map and whose two arrays of the
    convolution stage have the length (N - 1) * 6 the constructor gave them,
    [updateSpecularMaps] returns, having built and issued exactly
    (N - 1) * 6 tasks, the objects from [first] on.  For every level from 1
    to N - 1 and each of the six faces, slot (level - 1) * 6 + faceIndex
    holds one of them, not canceled, whose roughness is level / (N - 1),
    for that face, and whose output texture, in the same slot of the
    texture array, has the edge baseEdge / 2^level.  When the engine then
    completes tasks of this batch, in any order, the count of the batch is
    the number of completions; while it is below (N - 1) * 6 the flag of the
    irradiance stage and the sampler of the cube map are as they were, and
    once it has reached (N - 1) * 6 the flag is set and the sampler is
    linear-mipmap-linear. *)
Theorem specular_convolution_stage (frameState : FrameState) (w : World)
  (cubeMap : CubeMap.t) :
  _radianceCubeMap (this w) = Some cubeMap ->
  length (_convolutionComputeCommands (this w)) = chain_length (this w) ->
  length (_specularMapTextures (this w)) = chain_length (this w) ->
  let N := _mipmapLevels (this w) in
  let baseEdge := _textureDimensions (this w) in
  let first := length (commands w) in
  exists w',
    updateSpecularMaps frameState w = Normal tt w'
    /\ (length (commands w') = first + chain_length (this w)
        /\ commandList w' = commandList w ++ seq first (chain_length (this w)))
    /\ (forall (level faceIndex : nat) (face : Face),
           1 <= level -> (Z.of_nat level < N)%Z ->
           CubeMap.faceNames !! faceIndex = Some face ->
           let index := (level - 1) * 6 + faceIndex in
           exists (c : ComputeCommand.t) (t : Texture.t),
             array_get (_convolutionComputeCommands (this w')) index
             = Some (first + index)
             /\ commands w' !! (first + index) = Some c
             /\ ComputeCommand.uniformMap c
                = ConvolutionUniforms
                    (inject_Z (Z.of_nat level) / inject_Z (N - 1)) face
             /\ ComputeCommand.canceled c = false
             /\ array_get (_specularMapTextures (this w')) index
                = Some (ComputeCommand.outputTexture c)
             /\ textures w' !! ComputeCommand.outputTexture c = Some t
             /\ (Texture.width t
                 == Cartesian2.x baseEdge / 2 ^ Z.of_nat level)%Q
             /\ (Texture.height t
                 == Cartesian2.y baseEdge / 2 ^ Z.of_nat level)%Q)
    /\ (forall rs : list CommandRef,
           Forall (fun r => first <= r < first + chain_length (this w)) rs ->
           let u := executeEach rs w' in
           counters u !! length (counters w) = Some (length rs)
           /\ (length rs < chain_length (this w) ->
               _irradianceCommandDirty (this u) = _irradianceCommandDirty (this w)
               /\ CubeMap.sampler <$> _radianceCubeMap (this u)
                  = Some (CubeMap.sampler cubeMap))
           /\ (rs <> [] -> chain_length (this w) <= length rs ->
               _irradianceCommandDirty (this u) = true
               /\ CubeMap.sampler <$> _radianceCubeMap (this u)
                  = Some (Some LINEAR_MIPMAP_LINEAR))).
Proof.
  intros Hcm H1 H2. cbv zeta.
  destruct (updateSpecularMaps_closed frameState w cubeMap Hcm H1 H2)
    as (w' & Hu & Hch & Hbs).
  exists w'. split; [exact Hu|].
  unfold chain in Hch. injection Hch as Hc Ht Hl Ha Hb.
  unfold beside_chain, flags in Hbs.
  injection Hbs as Hcnt _ Hcube _ _ _ Hflag _ _ _ _ _ _.
  set (total := chain_length (this w)) in *.
  split; [|split].
  - rewrite Hc, Hl, length_app, length_map, length_seq, map_add_seq.
    split; reflexivity.
  - intros level faceIndex face Hlevel HN Hface.
    apply face_at_lookup in Hface as [Hface Hlt].
    destruct (chain_index level faceIndex Hlevel Hlt) as [Hdiv Hmod].
    assert (Hi : (level - 1) * 6 + faceIndex < total).
    { subst total. unfold chain_length. lia. }
    exists (convolution_command (length (counters w)) (_mipmapLevels (this w))
              (length (textures w)) ((level - 1) * 6 + faceIndex)).
    exists (convolution_texture
              (Cartesian2.x (_textureDimensions (this w)) / 2)
              (Cartesian2.y (_textureDimensions (this w)) / 2)
              ((level - 1) * 6 + faceIndex)).
    rewrite Ha, Hb, Hc, Ht.
    rewrite !array_get_map_seq by exact Hi.
    cbn [ComputeCommand.outputTexture ComputeCommand.uniformMap
         ComputeCommand.canceled convolution_command].
    rewrite !lookup_app_r by lia.
    rewrite !Nat.add_comm with (n := length _), !Nat.add_sub.
    rewrite !lookup_map_seq by exact Hi.
    rewrite Hdiv, Hmod, Hface.
    replace (level - 1 + 1) with level by lia.
    do 6 (split; [reflexivity|]).
    unfold convolution_texture.
    cbn [Texture.width Texture.height]. rewrite Hdiv.
    replace level with (S (level - 1)) at 2 4 by lia.
    split; apply halvings.
  - unfold CommandRef. intros rs Hrs.
    assert (H0 : batch_state (length (counters w)) total
                   (commands w
                      ++ map (convolution_command (length (counters w))
                                (_mipmapLevels (this w)) (length (textures w)))
                             (seq 0 total))
                   (_irradianceCommandDirty (this w))
                   (CubeMap.sampler cubeMap) 0 w').
    { unfold batch_state. rewrite Hc, Hcnt, Hb, Hcube, Hflag.
      rewrite length_map, length_seq.
      rewrite lookup_app_r, Nat.sub_diag by lia.
      replace ((1 <=? total) && (total <=? 0)) with false
        by (destruct total as [|[|?]]; reflexivity).
      rewrite orb_false_r. repeat split; reflexivity. }
    pose proof (batch_completions _ _ _ _ _ _ _ rs w' H0 Hrs)
      as (_ & Hk & _ & Hf & Hs).
    split; [exact Hk|]. split.
    + intros Hlt. rewrite Hf, Hs.
      replace (total <=? length rs) with false
        by (symmetry; apply Nat.leb_gt; exact Hlt).
      rewrite andb_false_r, orb_false_r. split; reflexivity.
    + intros Hne Hge. rewrite Hf, Hs.
      assert (1 <= total).
      { destruct rs as [|r rs']; [contradiction|].
        apply Forall_inv in Hrs. lia. }
      replace ((1 <=? total) && (total <=? length rs)) with true
        by (symmetry; apply andb_true_iff; split; apply Nat.leb_le; lia).
      rewrite orb_true_r. split; reflexivity.
Qed.

Lemma specular_convolution_stage_witness :
  exists w',
    updateSpecularMaps (sample_frame 5000)
                       (runFrame (sample_frame 5000) (sample_world 2))
    = Normal tt w'
    /\ length (commands w') = 12.
Proof.
  pose proof (specular_convolution_stage (sample_frame 5000)
                (runFrame (sample_frame 5000) (sample_world 2))) as H.
  edestruct H as (w' & Hu & (Hlen & _) & _).
  - vm_compute. reflexivity.
  - vm_compute. reflexivity.
  - vm_compute. reflexivity.
  - exists w'. split; [exact Hu|]. rewrite Hlen. vm_compute. reflexivity.
Defined.

(** ** A whole cycle *)

Lemma fourth_of_four {A : Type} {a b c d a' b' c' d' : A} :
  [a; b; c; d] = [a'; b'; c'; d'] -> d = d'.
Proof. congruence. Defined.

Lemma runFrame_not_stale f w :
  enabled (this w) = true -> defined (_position (this w)) = true ->
  JulianDate.equalsEpsilon (time f) (_lastTime (this w))
                           (maximumSecondsDifference (this w)) = true ->
  update f w = update_stages f w.
Proof.
  intros He Hp Ht. now rewrite (update_active _ _ He Hp), (update_not_stale _ _ Ht).
Qed.

Lemma first_update p f :
  let w0 := position_set (Some p) (new_World (constructed 10)) in
  exists b, update f w0 = update_stages f (on_this (set_lastTime b) w0).
Proof.
  cbv zeta.
  set (w0 := position_set (Some p) (new_World (constructed 10))).
  rewrite update_active by reflexivity.
  unfold update_staleness.
  destruct (negb _).
  - exists (JulianDate.clone (time f)). cbv zeta.
    replace (_reset w0) with w0 by (vm_compute; reflexivity). reflexivity.
  - exists JulianDate.new.
    replace (on_this (set_lastTime JulianDate.new) w0) with w0
      by (vm_compute; reflexivity).
    reflexivity.
Qed.

(** C3.  A manager of ten levels is given a position and taken through four
    frames, each an [update] followed by the engine running the tasks of
    the frame, none of the later three further than the threshold from the
    time the first recorded, the readback of the fourth having its 36
    numbers.  The four calls issue 6, 54, 1 and 0 tasks, 61 in all, which
    are all the command objects there are at the end; they return [false],
    [false], [false] and [true]; and at the end the coefficient array has
    9 entries, every one of them a vector. *)
Theorem full_run_of_ten_levels (p : Cartesian3.t) (f1 f2 f3 f4 : FrameState) :
  let w0 := position_set (Some p) (new_World (constructed 10)) in
  let w1 := runFrame f1 w0 in
  let w2 := runFrame f2 w1 in
  let w3 := runFrame f3 w2 in
  let w4 := runFrame f4 w3 in
  let fresh f :=
    JulianDate.equalsEpsilon (time f) (_lastTime (this w1))
                             (maximumSecondsDifference (this w1)) in
  fresh f2 = true -> fresh f3 = true -> fresh f4 = true ->
  length (context_readPixels f4) = 36 ->
  DynamicEnvironmentMapManager (Some 10%Z) = Some (constructed 10)
  /\ [issued f1 w0; issued f2 w1; issued f3 w2; issued f4 w3] = [6; 54; 1; 0]
  /\ issued f1 w0 + issued f2 w1 + issued f3 w2 + issued f4 w3 = 61
  /\ length (commands w4) = 61
  /\ [returned (update f1 w0); returned (update f2 w1);
      returned (update f3 w2); returned (update f4 w3)]
     = [Some (ReturnBool false); Some (ReturnBool false);
        Some (ReturnBool false); Some (ReturnBool true)]
  /\ length (_sphericalHarmonicCoefficients (this w4)) = 9
  /\ forallb defined (_sphericalHarmonicCoefficients (this w4)) = true.
Proof.
  cbv zeta. unfold runFrame, issued.
  destruct (first_update p f1) as [b H1]. cbv zeta in H1. rewrite H1. clear H1.
  set (w0 := on_this (set_lastTime b)
               (position_set (Some p) (new_World (constructed 10)))).
  intros H2 H3 H4 Hlen.
  set (w1 := executeAll (final_world (update_stages f1 w0))) in *.
  assert (E2 : update f2 w1 = update_stages f2 w1).
  { apply runFrame_not_stale; [vm_compute; reflexivity..|exact H2]. }
  rewrite E2. clear E2.
  set (w2 := executeAll (final_world (update_stages f2 w1))) in *.
  assert (E3 : update f3 w2 = update_stages f3 w2).
  { apply runFrame_not_stale; [vm_compute; reflexivity..|].
    replace (_lastTime (this w2)) with (_lastTime (this w1))
      by (vm_compute; reflexivity).
    replace (maximumSecondsDifference (this w2))
      with (maximumSecondsDifference (this w1)) by (vm_compute; reflexivity).
    exact H3. }
  rewrite E3. clear E3.
  set (w3 := executeAll (final_world (update_stages f3 w2))) in *.
  assert (E4 : update f4 w3 = update_stages f4 w3).
  { apply runFrame_not_stale; [vm_compute; reflexivity..|].
    replace (_lastTime (this w3)) with (_lastTime (this w1))
      by (vm_compute; reflexivity).
    replace (maximumSecondsDifference (this w3))
      with (maximumSecondsDifference (this w1)) by (vm_compute; reflexivity).
    exact H4. }
  rewrite E4. clear E4 H2 H3 H4.
  destruct f4 as [t4 d4]. cbn [context_readPixels] in Hlen.
  do 36 (destruct d4 as [|? d4]; [discriminate Hlen|]).
  destruct d4; [|discriminate Hlen]. clear Hlen.
  split; [reflexivity|]. split; [vm_compute; reflexivity|].
  split; [vm_compute; reflexivity|]. split; [vm_compute; reflexivity|].
  split; [vm_compute; reflexivity|].
  split; vm_compute; reflexivity.
Qed.

Lemma full_run_of_ten_levels_witness :
  let f := sample_frame 5000 in
  let w0 := sample_world 10 in
  let w3 := runFrame f (runFrame f (runFrame f w0)) in
  issued f w0 + issued f (runFrame f w0) + issued f (runFrame f (runFrame f w0))
  + issued f w3 = 61
  /\ returned (update f w3) = Some (ReturnBool true).
Proof.
  cbv zeta. unfold sample_world.
  destruct (full_run_of_ten_levels sample_position (sample_frame 5000)
              (sample_frame 5000) (sample_frame 5000) (sample_frame 5000))
    as (_ & _ & Hsum & _ & Hret & _).
  - vm_compute. reflexivity.
  - vm_compute. reflexivity.
  - vm_compute. reflexivity.
  - reflexivity.
  - split; [exact Hsum|]. exact (fourth_of_four Hret).
Defined.

(** ** The radiance loop, turn by turn *)

Lemma radiance_turn_faces w i :
  faces (radiance_turn w i)
  = (commands w ++ [radiance_command w i],
     commandList w ++ [length (commands w)],
     array_set (_radianceMapComputeCommands (this w)) i (Some (length (commands w))),
     match array_get (_radianceMapTextures (this w)) i with
     | Some _ => _radianceMapTextures (this w)
     | None => array_set (_radianceMapTextures (this w)) i
                         (Some (length (textures w)))
     end,
     match array_get (_radianceMapTextures (this w)) i with
     | Some _ => textures w
     | None => textures w
                 ++ [Texture.Build (Cartesian2.x (_textureDimensions (this w)))
                                   (Cartesian2.y (_textureDimensions (this w)))
                                   UNSIGNED_BYTE false]
     end).
Proof.
  unfold radiance_turn, radianceFace, radiance_command, face_texture.
  destruct (array_get (_radianceMapTextures (this w)) i); reflexivity.
Qed.

Lemma radiance_turn_beside w i :
  beside_faces (radiance_turn w i) = beside_faces w.
Proof.
  unfold radiance_turn, radianceFace.
  destruct (array_get (_radianceMapTextures (this w)) i); reflexivity.
Qed.

Lemma entries_turns w :
  fold_left radianceFace CubeMap.entries w = fold_left radiance_turn (seq 0 6) w.
Proof. reflexivity. Qed.

Lemma array_set_in_range {A : Type} (a : list (option A)) i v :
  i < length a -> array_set a i v = <[i := v]> a.
Proof. intros H. unfold array_set. destruct (decide _); [reflexivity|lia]. Qed.

Lemma array_get_set_eq {A : Type} (a : list (option A)) i v :
  i < length a -> array_get (array_set a i v) i = v.
Proof.
  intros H. unfold array_get. rewrite array_set_in_range by exact H.
  now rewrite list_lookup_insert_eq.
Qed.

Lemma lookup_array_set_ne {A : Type} (a : list (option A)) i j v :
  i <> j -> i < length a -> array_set a i v !! j = a !! j.
Proof.
  intros Hne H. rewrite array_set_in_range by exact H.
  now apply list_lookup_insert_ne.
Qed.

Lemma array_get_set_ne {A : Type} (a : list (option A)) i j v :
  i <> j -> i < length a -> array_get (array_set a i v) j = array_get a j.
Proof. intros Hne H. unfold array_get. now rewrite lookup_array_set_ne. Qed.

Lemma beside_faces_position u w :
  beside_faces u = beside_faces w ->
  _position (this u) = _position (this w)
  /\ _textureDimensions (this u) = _textureDimensions (this w).
Proof. unfold beside_faces, quiet, settings. intros H. split; congruence. Qed.

Lemma radiance_turns (w : World) (k : nat) :
  k <= length (_radianceMapComputeCommands (this w)) ->
  k <= length (_radianceMapTextures (this w)) ->
  after_turns w k (fold_left radiance_turn (seq 0 k) w).
Proof.
  induction k as [|k IH]; intros H1 H2.
  - unfold after_turns. cbn [seq map fold_left app]. rewrite app_nil_r, drop_0.
    repeat split; try reflexivity; try lia.
    + apply firstn_all.
    + auto.
    + exists []. rewrite app_nil_r. repeat split; auto.
  - specialize (IH ltac:(lia) ltac:(lia)).
    rewrite seq_S, fold_left_app. cbn [plus fold_left].
    set (u := fold_left radiance_turn (seq 0 k) w) in *. clearbody u.
    destruct IH as (Hl & Ha & (Hn & Hp) & Hc & Hlt & Hkeep & Hrest & Hnew & Hb).
    destruct Hnew as (new & Hts & Hnl & Hnf & Hnone).
    destruct (beside_faces_position _ _ Hb) as [Hpos Hdim].
    pose proof (radiance_turn_faces u k) as Hf.
    pose proof (radiance_turn_beside u k) as Hb'.
    set (u' := radiance_turn u k) in *. clearbody u'.
    unfold faces in Hf. injection Hf as Hc' Hl' Ha' Hta' Hts'.
    assert (Hgk : array_get (_radianceMapTextures (this u)) k
                  = array_get (_radianceMapTextures (this w)) k).
    { unfold array_get. now rewrite Hrest. }
    unfold after_turns. repeat split.
    + rewrite Hl', Hl, Hn, seq_S, app_assoc. reflexivity.
    + rewrite Ha', Ha, Hn. apply array_set_next. lia.
    + rewrite Hc', length_app, Hn. cbn. lia.
    + rewrite Hc', take_app_le by lia. exact Hp.
    + intros i Hi. destruct (decide (i = k)) as [->|Hne].
      * exists (radiance_command u k).
        rewrite Hc', <- Hn, list_lookup_middle by reflexivity.
        unfold radiance_command.
        cbn [ComputeCommand.postExecute ComputeCommand.uniformMap
             ComputeCommand.persists ComputeCommand.canceled
             ComputeCommand.outputTexture].
        rewrite Hpos. do 5 (split; [reflexivity|]).
        rewrite Hta'. unfold face_texture.
        destruct (array_get (_radianceMapTextures (this u)) k) eqn:E.
        -- exact E.
        -- apply array_get_set_eq. lia.
      * destruct (Hc i ltac:(lia)) as (c & Hci & Hrest').
        exists c. rewrite Hc', lookup_app_l by lia.
        split; [exact Hci|].
        destruct Hrest' as (? & ? & ? & ? & Hti).
        do 4 (split; [assumption|]).
        rewrite Hta'.
        destruct (array_get (_radianceMapTextures (this u)) k);
          [exact Hti|].
        rewrite array_get_set_ne by lia. exact Hti.
    + rewrite Hta'.
      destruct (array_get (_radianceMapTextures (this u)) k); [exact Hlt|].
      rewrite array_set_length by lia. exact Hlt.
    + intros i t Hi. rewrite Hta'.
      destruct (array_get (_radianceMapTextures (this u)) k) eqn:E;
        [now apply Hkeep|].
      rewrite array_get_set_ne; [now apply Hkeep| |lia].
      intros ->. rewrite Hgk in E. congruence.
    + intros i Hi. rewrite Hta'.
      destruct (array_get (_radianceMapTextures (this u)) k);
        [apply Hrest; lia|].
      rewrite lookup_array_set_ne by lia. apply Hrest. lia.
    + rewrite Hts', Hts, Hdim.
      destruct (array_get (_radianceMapTextures (this u)) k) eqn:E.
      * exists new. repeat split; auto.
      * exists (new ++ [Texture.Build
                          (Cartesian2.x (_textureDimensions (this w)))
                          (Cartesian2.y (_textureDimensions (this w)))
                          UNSIGNED_BYTE false]).
        rewrite app_assoc. repeat split.
        -- rewrite length_app. cbn. lia.
        -- apply Forall_app. split; [exact Hnf|]. repeat constructor.
        -- intros Hall. specialize (Hall k ltac:(lia)).
           rewrite <- Hgk in Hall. discriminate.
    + now rewrite Hb'.
Qed.

(** ** What invalidation does *)

Ltac destruct_world w :=
  let m := fresh "m" in
  destruct w as [m w_commands w_textures w_counters w_commandList w_stageLog];
  destruct m as [m_position m_rcd m_rmd m_ccd m_icd m_itd m_shd m_levels
                 m_rcs m_ccs m_irr m_irrmap m_rfs m_ifs m_sp m_va m_rts m_sts
                 m_cube m_itex m_coeffs m_time m_dims m_enabled m_max].

Lemma cancel_slots_snoc slots slot cs :
  cancel_slots (slots ++ [slot]) cs
  = match slot with
    | Some command => alter ComputeCommand.cancel command (cancel_slots slots cs)
    | None => cancel_slots slots cs
    end.
Proof. unfold cancel_slots. now rewrite fold_left_app. Qed.

Lemma take_snoc_lookup {A : Type} (l : list A) (k : nat) (x : A) :
  l !! k = Some x -> take (S k) l = take k l ++ [x].
Proof. intros H. now apply take_S_r. Qed.

Lemma drop_lookup {A : Type} (l : list A) (k : nat) (x : A) :
  l !! k = Some x -> drop k l = x :: drop (S k) l.
Proof. intros H. now apply drop_S. Qed.

Lemma clear_next {A : Type} (a : list (option A)) (k : nat) :
  k < length a ->
  array_set (replicate k None ++ drop k a) k None
  = replicate (S k) None ++ drop (S k) a.
Proof.
  intros Hk. destruct (lookup_lt_is_Some_2 a k Hk) as [x Hx].
  unfold array_set.
  rewrite length_app, length_replicate, length_drop.
  destruct (decide (k < k + (length a - k))); [|lia].
  rewrite insert_app_r_alt by (rewrite length_replicate; lia).
  rewrite length_replicate, Nat.sub_diag, (drop_lookup _ _ _ Hx).
  cbn [insert list_insert].
  rewrite replicate_S_end, <- app_assoc. reflexivity.
Qed.

Lemma array_get_cleared {A : Type} (a : list (option A)) (k : nat) :
  array_get (replicate k None ++ drop k a) k = array_get a k.
Proof.
  unfold array_get.
  rewrite lookup_app_r by (rewrite length_replicate; lia).
  rewrite length_replicate, Nat.sub_diag, lookup_drop, Nat.add_0_r.
  reflexivity.
Qed.

Lemma reset_radiance_loop w k :
  k <= length (_radianceMapComputeCommands (this w)) ->
  fold_left
    (fun w i =>
       let w := cancel_radiance_command i w in
       on_this (fun m => set_radianceMapComputeCommands
                           (array_set (_radianceMapComputeCommands m) i None) m) w)
    (seq 0 k) w
  = set_commands
      (cancel_slots (take k (_radianceMapComputeCommands (this w))) (commands w))
      (on_this (set_radianceMapComputeCommands
                  (replicate k None
                     ++ drop k (_radianceMapComputeCommands (this w)))) w).
Proof.
  induction k as [|k IH]; intros Hk.
  - cbn [seq fold_left take replicate app cancel_slots]. rewrite drop_0.
    destruct_world w. reflexivity.
  - rewrite seq_S, fold_left_app, IH by lia. cbn [plus fold_left].
    destruct (lookup_lt_is_Some_2 _ k Hk) as [x Hx].
    rewrite (take_S_r _ _ _ Hx), cancel_slots_snoc.
    cbv zeta. unfold cancel_radiance_command, cancel.
    cbn [this commands set_commands on_this set_this
         _radianceMapComputeCommands set_radianceMapComputeCommands].
    rewrite array_get_cleared.
    unfold array_get. rewrite Hx. cbn [mjoin option_join].
    clear IH Hx.
    destruct_world w;
      cbn [this commands set_commands on_this set_this
           _radianceMapComputeCommands set_radianceMapComputeCommands] in *.
    destruct x; unfold on_this, set_commands, set_this,
                       set_radianceMapComputeCommands;
      cbn; rewrite clear_next by lia; reflexivity.
Qed.

Lemma reset_convolution_loop w k :
  k <= length (_convolutionComputeCommands (this w)) ->
  fold_left
    (fun w i =>
       let w := cancel_convolution_command i w in
       on_this (fun m => set_convolutionComputeCommands
                           (array_set (_convolutionComputeCommands m) i None) m) w)
    (seq 0 k) w
  = set_commands
      (cancel_slots (take k (_convolutionComputeCommands (this w))) (commands w))
      (on_this (set_convolutionComputeCommands
                  (replicate k None
                     ++ drop k (_convolutionComputeCommands (this w)))) w).
Proof.
  induction k as [|k IH]; intros Hk.
  - cbn [seq fold_left take replicate app cancel_slots]. rewrite drop_0.
    destruct_world w. reflexivity.
  - rewrite seq_S, fold_left_app, IH by lia. cbn [plus fold_left].
    destruct (lookup_lt_is_Some_2 _ k Hk) as [x Hx].
    rewrite (take_S_r _ _ _ Hx), cancel_slots_snoc.
    cbv zeta. unfold cancel_convolution_command, cancel.
    cbn [this commands set_commands on_this set_this
         _convolutionComputeCommands set_convolutionComputeCommands].
    rewrite array_get_cleared.
    unfold array_get. rewrite Hx. cbn [mjoin option_join].
    clear IH Hx.
    destruct_world w;
      cbn [this commands set_commands on_this set_this
           _convolutionComputeCommands set_convolutionComputeCommands] in *.
    destruct x; unfold on_this, set_commands, set_this,
                       set_convolutionComputeCommands;
      cbn; rewrite clear_next by lia; reflexivity.
Qed.

Lemma reset_closed w : _reset w = reset_result w.
Proof.
  unfold _reset. cbv zeta.
  rewrite reset_radiance_loop by lia.
  rewrite take_ge, drop_ge, app_nil_r by lia.
  set (w1 := set_commands _ _).
  assert (E1 : _convolutionComputeCommands (this w1)
               = _convolutionComputeCommands (this w)) by reflexivity.
  rewrite reset_convolution_loop by lia.
  rewrite take_ge, drop_ge, app_nil_r by lia.
  rewrite E1. subst w1. clear E1.
  unfold reset_result. destruct_world w.
  cbn [this commands _radianceMapComputeCommands _convolutionComputeCommands
       _irradianceMapComputeCommand].
  destruct m_irrmap; reflexivity.
Qed.

Lemma cancel_cancel c :
  ComputeCommand.cancel (ComputeCommand.cancel c) = ComputeCommand.cancel c.
Proof. reflexivity. Qed.

Lemma cancel_slots_lookup (slots : list (option nat)) cs (r : nat) :
  cancel_slots slots cs !! r
  = (if bool_decide (Some r ∈ slots) then ComputeCommand.cancel else id)
      <$> cs !! r.
Proof.
  induction slots as [|slot slots IH] using rev_ind.
  - cbn. now destruct (cs !! r).
  - rewrite cancel_slots_snoc.
    assert (Hin : Some r ∈ slots ++ [slot] <-> Some r ∈ slots \/ slot = Some r).
    { rewrite elem_of_app, list_elem_of_singleton. intuition congruence. }
    destruct slot as [r'|].
    + rewrite list_lookup_alter.
      destruct (decide (r' = r)) as [->|Hne]; rewrite IH.
      * rewrite (bool_decide_eq_true_2 (Some r ∈ slots ++ [Some r]))
          by (apply Hin; auto).
        destruct (cs !! r); [|reflexivity]. cbn.
        destruct (bool_decide _); reflexivity.
      * apply (f_equal (fun b : bool => (if b then ComputeCommand.cancel else id)
                                          <$> cs !! r)).
        apply bool_decide_ext. rewrite Hin. intuition congruence.
    + rewrite IH.
      apply (f_equal (fun b : bool => (if b then ComputeCommand.cancel else id)
                                        <$> cs !! r)).
      apply bool_decide_ext. rewrite Hin. intuition congruence.
Qed.

Lemma cancel_slots_length slots cs : length (cancel_slots slots cs) = length cs.
Proof.
  revert cs. induction slots as [|[r|] slots IH]; intros cs; cbn; auto.
  now rewrite IH, length_alter.
Qed.

Lemma cancel_no_slots n cs : cancel_slots (replicate n None) cs = cs.
Proof. induction n as [|n IH]; [reflexivity|exact IH]. Qed.

(** X1.  In any world, [_reset] leaves every slot of the two task arrays
    empty, the arrays keeping their lengths; it makes and removes no
    command; and of the commands there are it cancels exactly those that a
    slot of the two arrays referred to (and the one the property
    [_irradianceMapComputeCommand] referred to, were that property ever
    set), leaving every other command as it was. *)
Theorem reset_cancels_and_clears (w : World) :
  let m := this w in
  (_radianceMapComputeCommands (this (_reset w))
   = replicate (length (_radianceMapComputeCommands m)) None
   /\ _convolutionComputeCommands (this (_reset w))
      = replicate (length (_convolutionComputeCommands m)) None)
  /\ length (commands (_reset w)) = length (commands w)
  /\ forall r : nat,
       commands (_reset w) !! r
       = (if bool_decide (Some r ∈ _radianceMapComputeCommands m
                          \/ Some r ∈ _convolutionComputeCommands m
                          \/ _irradianceMapComputeCommand m = Some r)
          then ComputeCommand.cancel else id) <$> commands w !! r.
Proof.
  cbv zeta. rewrite reset_closed. unfold reset_result.
  cbn [this commands set_commands on_this set_this
       _radianceMapComputeCommands _convolutionComputeCommands
       set_radianceCommandsDirty set_radianceMapDirty
       set_irradianceMapComputeCommand set_convolutionComputeCommands
       set_radianceMapComputeCommands].
  split; [split; reflexivity|]. split.
  - destruct (_irradianceMapComputeCommand (this w));
      rewrite ?length_alter, !cancel_slots_length; reflexivity.
  - intros r. unfold CommandRef in *.
    rewrite !bool_decide_or.
    destruct (_irradianceMapComputeCommand (this w)) as [c|].
    + rewrite list_lookup_alter.
      case_decide as E.
      * rewrite (bool_decide_eq_true_2 (Some c = Some r))
          by (f_equal; exact E).
        subst c. rewrite !cancel_slots_lookup, !orb_true_r.
        destruct (commands w !! r); [|reflexivity]. cbn.
        do 2 destruct (bool_decide _); reflexivity.
      * rewrite (bool_decide_eq_false_2 (Some c = Some r))
          by (intros H; injection H as H; contradiction).
        rewrite !cancel_slots_lookup, !orb_false_r.
        destruct (commands w !! r); [|reflexivity]. cbn.
        do 2 destruct (bool_decide _); reflexivity.
    + rewrite (bool_decide_eq_false_2 (None = Some r)) by discriminate.
      rewrite !cancel_slots_lookup, !orb_false_r.
      destruct (commands w !! r); [|reflexivity]. cbn.
      do 2 destruct (bool_decide _); reflexivity.
Qed.

Lemma reset_result_cleared u n1 n2 :
  _radianceMapComputeCommands (this u) = replicate n1 None ->
  _convolutionComputeCommands (this u) = replicate n2 None ->
  _irradianceMapComputeCommand (this u) = None ->
  _radianceMapDirty (this u) = true ->
  _radianceCommandsDirty (this u) = true ->
  reset_result u = u.
Proof.
  destruct_world u.
  cbn [this _radianceMapComputeCommands _convolutionComputeCommands
       _irradianceMapComputeCommand _radianceMapDirty _radianceCommandsDirty].
  intros -> -> -> -> ->.
  unfold reset_result, on_this. cbv beta zeta.
  cbn [this commands _radianceMapComputeCommands _convolutionComputeCommands
       _irradianceMapComputeCommand].
  rewrite !length_replicate, !cancel_no_slots.
  reflexivity.
Qed.

(** X2.  [_reset] is idempotent: a second invalidation straight after a first
    changes nothing at all. *)
Theorem reset_is_idempotent (w : World) : _reset (_reset w) = _reset w.
Proof.
  rewrite !reset_closed.
  apply (reset_result_cleared _
           (length (_radianceMapComputeCommands (this w)))
           (length (_convolutionComputeCommands (this w)))); reflexivity.
Qed.

(** ** What holds in every world *)

Lemma consistent_core w w' : core w' = core w -> consistent w -> consistent w'.
Proof.
  unfold core, consistent, chain_length, callback_in_range. cbv zeta.
  intros H. injection H as -> -> -> -> -> -> -> -> -> -> ->. auto.
Qed.

Lemma callback_in_range_lengths m m' c :
  length (_radianceMapComputeCommands m') = length (_radianceMapComputeCommands m) ->
  length (_convolutionComputeCommands m') = length (_convolutionComputeCommands m) ->
  callback_in_range m c -> callback_in_range m' c.
Proof.
  unfold callback_in_range. intros -> ->. auto.
Qed.

Lemma callback_in_range_cancel m c :
  callback_in_range m (ComputeCommand.cancel c) <-> callback_in_range m c.
Proof. reflexivity. Qed.

Lemma Forall_alter_cancel m (r : nat) cs :
  Forall (callback_in_range m) cs ->
  Forall (callback_in_range m) (alter ComputeCommand.cancel r cs).
Proof.
  intros H. apply Forall_alter; [exact H|]. intros c _ Hc. exact Hc.
Qed.

Lemma Forall_cancel_slots m slots cs :
  Forall (callback_in_range m) cs ->
  Forall (callback_in_range m) (cancel_slots slots cs).
Proof.
  revert cs. induction slots as [|[r|] slots IH]; intros cs H; cbn; auto.
  apply IH. now apply Forall_alter_cancel.
Qed.

Lemma constructed_consistent o m :
  DynamicEnvironmentMapManager o = Some m -> consistent (new_World m).
Proof.
  unfold DynamicEnvironmentMapManager. destruct (_ <? _)%Z; [discriminate|].
  intros [= <-]. unfold consistent, chain_length, new_World, constructed.
  cbn [this commands _radianceMapDirty _radianceCommandsDirty
       _radianceMapComputeCommands _radianceMapTextures
       _convolutionComputeCommands _specularMapTextures _mipmapLevels
       _convolutionsCommandsDirty _irradianceCommandDirty _radianceCubeMap].
  unfold new_Array. rewrite !length_replicate. repeat split; auto.
  intros [H|[H|H]]; congruence.
Qed.

Lemma reset_core w :
  let m := this w in let m' := this (_reset w) in
  _radianceMapDirty m' = true
  /\ _radianceCommandsDirty m' = true
  /\ _convolutionsCommandsDirty m' = _convolutionsCommandsDirty m
  /\ _irradianceCommandDirty m' = _irradianceCommandDirty m
  /\ _radianceMapComputeCommands m'
     = replicate (length (_radianceMapComputeCommands m)) None
  /\ _radianceMapTextures m' = _radianceMapTextures m
  /\ _convolutionComputeCommands m'
     = replicate (length (_convolutionComputeCommands m)) None
  /\ _specularMapTextures m' = _specularMapTextures m
  /\ _mipmapLevels m' = _mipmapLevels m
  /\ _radianceCubeMap m' = _radianceCubeMap m
  /\ commands (_reset w) = commands (reset_result w).
Proof. cbv zeta. rewrite reset_closed. repeat split; reflexivity. Qed.

Lemma reset_consistent w : consistent w -> consistent (_reset w).
Proof.
  intros (H1 & (Ha & Hb & Hc & Hd) & Hf & Hcube).
  destruct (reset_core w)
    as (E1 & E2 & E3 & E4 & E5 & E6 & E7 & E8 & E9 & E10 & E11).
  unfold consistent, chain_length in *. cbv zeta.
  rewrite E1, E2, E3, E4, E5, E6, E7, E8, E9, E10, E11, !length_replicate.
  split; [reflexivity|]. split; [auto|]. split.
  - assert (Hf' : Forall (callback_in_range (this (_reset w))) (commands w)).
    { eapply Forall_impl; [exact Hf|]. intros c.
      apply callback_in_range_lengths; rewrite ?E5, ?E7, length_replicate;
        reflexivity. }
    unfold reset_result. cbn [commands set_commands].
    destruct (_irradianceMapComputeCommand (this w));
      [apply Forall_alter_cancel|]; do 2 apply Forall_cancel_slots; exact Hf'.
  - intros Hor. apply Hcube. destruct Hor as [Hne|Hor]; [left|right; exact Hor].
    intros Hnil. apply Hne. apply length_zero_iff_nil.
    unfold reset_result. cbn [commands set_commands].
    destruct (_irradianceMapComputeCommand (this w));
      rewrite ?length_alter, !cancel_slots_length, Hnil; reflexivity.
Qed.

Lemma updateRadianceMap_dirty fs w :
  _radianceCommandsDirty (this w) = true ->
  updateRadianceMap fs w
  = on_this (set_radianceCommandsDirty false)
      (fold_left radiance_turn (seq 0 6) (radiance_prelude w)).
Proof.
  intros H. unfold updateRadianceMap, radiance_prelude. cbv zeta.
  set (w1 := if defined (_radianceCubeMap (this (log RadianceStage w)))
             then _ else _).
  assert (H1 : _radianceCommandsDirty (this w1) = true)
    by (subst w1; destruct (defined _); exact H).
  clearbody w1. rewrite H1. rewrite entries_turns. reflexivity.
Qed.

Lemma radiance_prelude_core w :
  let u := radiance_prelude w in
  (commands u = commands w /\ textures u = textures w
   /\ commandList u = commandList w /\ counters u = counters w)
  /\ (_radianceMapComputeCommands (this u) = _radianceMapComputeCommands (this w)
      /\ _radianceMapTextures (this u) = _radianceMapTextures (this w)
      /\ _convolutionComputeCommands (this u) = _convolutionComputeCommands (this w)
      /\ _specularMapTextures (this u) = _specularMapTextures (this w))
  /\ flags (this u) = flags (this w)
  /\ quiet u = quiet w
  /\ stageLog u = stageLog w ++ [RadianceStage]
  /\ _radianceCubeMap (this u)
     = Some (default (CubeMap.new (Cartesian2.x (_textureDimensions (this w)))
                                  (Cartesian2.y (_textureDimensions (this w))))
                     (_radianceCubeMap (this w))).
Proof.
  unfold radiance_prelude. cbv zeta.
  change (_radianceCubeMap (this (log RadianceStage w)))
    with (_radianceCubeMap (this w)).
  destruct (_radianceCubeMap (this w)) as [cm|] eqn:E; cbn [defined].
  - destruct (defined (_radianceMapFS _));
      repeat split; try reflexivity; exact E.
  - destruct (defined (_radianceMapFS _)); repeat split; reflexivity.
Qed.

Lemma radiance_stage_consistent fs w :
  consistent w -> _radianceMapDirty (this w) = true ->
  consistent (on_this (set_radianceMapDirty false) (updateRadianceMap fs w)).
Proof.
  intros (H1 & (Ha & Hb & Hc & Hd) & Hf & Hcube) Hdirty.
  rewrite updateRadianceMap_dirty by congruence.
  destruct (radiance_prelude_core w)
    as ((P1 & P2 & P3 & P4) & (P5 & P6 & P7 & P8) & P9 & P10 & P11 & P12).
  pose proof (radiance_turns (radiance_prelude w) 6) as T.
  cbv zeta in *.
  revert P1 P2 P3 P4 P5 P6 P7 P8 P9 P10 P11 P12 T.
  generalize (radiance_prelude w) as w2.
  intros w2 P1 P2 P3 P4 P5 P6 P7 P8 P9 P10 P11 P12 T.
  specialize (T ltac:(rewrite P5, Ha; lia) ltac:(rewrite P6, Hb; lia)).
  revert T. generalize (fold_left radiance_turn (seq 0 6) w2) as u. intros u T.
  destruct T as (T1 & T2 & (T3 & T4) & T5 & T6 & T7 & T8 & T9 & T10).
  unfold beside_faces, quiet, settings, flags in T10, P9, P10.
  injection T10 as B1 B2 B3 B4 B5 B6 B7 B8 B9 B10 B11 B12 B13
                   B14 B15 B16 B17 B18 B19 B20 B21.
  injection P9 as F1 F2 F3 F4 F5 F6.
  injection P10 as Q1 Q2 Q3 Q4 Q5 Q6 Q7.
  unfold consistent, chain_length in *. cbv zeta. simpl.
  assert (Hl : length (_radianceMapComputeCommands (this u)) = 6).
  { rewrite T2, length_app, length_map, length_seq, length_drop, P5.
    unfold CommandRef in *. rewrite Ha. reflexivity. }
  split; [reflexivity|]. split; [|split].
  - repeat split; [exact Hl|congruence..].
  - apply Forall_lookup. intros j c Hj.
    destruct (decide (j < length (commands w2))) as [Hlt|Hge].
    + rewrite <- (lookup_take_lt _ _ _ Hlt), T4, P1 in Hj.
      pose proof (proj1 (Forall_lookup _ _) Hf j c Hj) as Hc'.
      revert Hc'. apply callback_in_range_lengths; cbn; congruence.
    + apply lookup_lt_Some in Hj as Hj'. rewrite T3 in Hj'.
      destruct (T5 (j - length (commands w2)) ltac:(lia))
        as (c' & Hc' & Hp & _).
      replace (length (commands w2) + (j - length (commands w2))) with j
        in Hc' by lia.
      rewrite Hj in Hc'. injection Hc' as <-.
      unfold callback_in_range. rewrite Hp. cbn. lia.
  - intros _. rewrite B3, P12. reflexivity.
Qed.

Lemma convolution_stage_consistent fs w :
  consistent w -> _convolutionsCommandsDirty (this w) = true ->
  exists w',
    updateSpecularMaps fs w = Normal tt w'
    /\ consistent (on_this (set_convolutionsCommandsDirty false) w').
Proof.
  intros (H1 & (Ha & Hb & Hc & Hd) & Hf & Hcube) Hdirty.
  destruct (_radianceCubeMap (this w)) as [cm|] eqn:Ecm;
    [|specialize (Hcube ltac:(auto)); discriminate].
  destruct (updateSpecularMaps_closed fs w cm Ecm Hc Hd) as (w' & E & C & B).
  pose proof (updateSpecularMaps_quiet fs w) as Q. rewrite E in Q.
  cbn [final_world] in Q.
  exists w'. split; [exact E|]. clear E.
  unfold chain in C. injection C as C1 C2 C3 C4 C5.
  unfold beside_chain, flags in B.
  injection B as B1 B2 B3 B4 B5 B6 B7 B8 B9 B10 B11 B12 B13.
  unfold quiet, settings in Q. injection Q as Q1 Q2 Q3 Q4 Q5 Q6 Q7.
  unfold consistent, chain_length in *. cbv zeta. simpl.
  rewrite C4, C5, C1, !length_map, !length_seq, Q2, B3.
  split; [congruence|]. split; [|split].
  - repeat split; congruence.
  - apply Forall_app. split.
    + eapply Forall_impl; [exact Hf|]. intros c.
      apply callback_in_range_lengths; cbn; [congruence|].
      rewrite C4, length_map, length_seq. unfold CommandRef in *. congruence.
    + apply Forall_forall. intros c Hin. apply list_elem_of_fmap in Hin.
      destruct Hin as (i & -> & Hi). apply elem_of_seq in Hi.
      unfold callback_in_range. cbn.
      rewrite C4, length_map, length_seq. lia.
  - reflexivity.
Qed.

Lemma irradiance_stage_consistent fs w :
  consistent w -> _irradianceCommandDirty (this w) = true ->
  consistent (on_this (set_irradianceCommandDirty false)
                (updateIrradianceResources fs w)).
Proof.
  intros (H1 & (Ha & Hb & Hc & Hd) & Hf & Hcube) Hdirty.
  specialize (Hcube ltac:(auto)).
  unfold updateIrradianceResources.
  change (_irradianceMapTexture (this (log IrradianceStage w)))
    with (_irradianceMapTexture (this w)).
  unfold consistent, chain_length in *.
  destruct (_irradianceMapTexture (this w)); cbv zeta beta iota;
    unfold new_Texture, new_ComputeCommand; cbv zeta beta iota;
    (destruct (defined (_irradianceMapFS _)); simpl;
     (split; [exact H1|]); (split; [auto|]);
     (split; [|intros _; exact Hcube]);
     apply Forall_app; (split; [exact Hf|]);
     apply Forall_singleton; exact I).
Qed.

Lemma coefficient_stage_core fs w :
  core (updateSphericalHarmonicCoefficients fs w) = core w.
Proof.
  unfold updateSphericalHarmonicCoefficients.
  rewrite (fold_left_preserves core); reflexivity.
Qed.

Lemma execute_consistent r w : consistent w -> consistent (execute r w).
Proof.
  intros H. unfold execute.
  destruct (commands w !! r) as [c|] eqn:Er; [|exact H].
  destruct (ComputeCommand.canceled c); [exact H|].
  destruct H as (H1 & (Ha & Hb & Hc & Hd) & Hf & Hcube).
  pose proof (proj1 (Forall_lookup _ _) Hf r c Er) as Hr.
  assert (Hne : commands w <> []) by (intros E; rewrite E in Er; discriminate).
  specialize (Hcube (or_introl Hne)).
  unfold callback_in_range in Hr.
  assert (Hcm : forall f : CubeMap.t -> CubeMap.t,
             defined (f <$> _radianceCubeMap (this w)) = true)
    by (intros f; destruct (_radianceCubeMap (this w)); [reflexivity|exact Hcube]).
  unfold consistent, chain_length in *.
  destruct (ComputeCommand.postExecute c)
    as [index face|cell index texture face level|]; cbn [runPostExecute];
    cbv zeta.
  - assert (Hlen : length (array_set (_radianceMapComputeCommands (this w))
                                     index None) = 6)
      by (rewrite array_set_length by exact Hr; exact Ha).
    assert (Hf' : Forall (callback_in_range
                            (set_radianceMapComputeCommands
                               (array_set (_radianceMapComputeCommands (this w))
                                          index None) (this w))) (commands w)).
    { eapply Forall_impl; [exact Hf|]. intros c'.
      apply callback_in_range_lengths; cbn; [|reflexivity].
      unfold CommandRef in *. congruence. }
    destruct (negb _); simpl; repeat split; auto.
  - assert (Hlen : length (array_set (_convolutionComputeCommands (this w))
                                     index None)
                   = Z.to_nat ((_mipmapLevels (this w) - 1) * 6))
      by (rewrite array_set_length by exact Hr; exact Hc).
    assert (Hf' : Forall (callback_in_range
                            (set_convolutionComputeCommands
                               (array_set (_convolutionComputeCommands (this w))
                                          index None) (this w))) (commands w)).
    { eapply Forall_impl; [exact Hf|]. intros c'.
      apply callback_in_range_lengths; cbn; [reflexivity|].
      unfold CommandRef in *. rewrite array_set_length by exact Hr.
      reflexivity. }
    destruct (decide _); simpl; repeat split; auto.
    intros _. destruct (_radianceCubeMap (this w)); [reflexivity|exact Hcube].
  - simpl. repeat split; auto.
Qed.

Lemma core_coefficients_flag b w :
  core (on_this (set_sphericalHarmonicCoefficientsDirty b) w) = core w.
Proof. reflexivity. Qed.

Lemma core_lastTime t w : core (on_this (set_lastTime t) w) = core w.
Proof. reflexivity. Qed.

Lemma update_stages_consistent fs w :
  consistent w ->
  exists v w', update_stages fs w = Normal v w' /\ consistent w'.
Proof.
  intros H. unfold update_stages.
  destruct (_radianceMapDirty (this w)) eqn:E1.
  { eexists _, _. split; [reflexivity|].
    now apply radiance_stage_consistent. }
  destruct (_convolutionsCommandsDirty (this w)) eqn:E2.
  { destruct (convolution_stage_consistent fs w H E2) as (w' & -> & H').
    eexists _, _. split; [reflexivity|exact H']. }
  cbv zeta.
  set (w1 := if _irradianceCommandDirty (this w) then _ else w).
  assert (H1 : consistent w1).
  { subst w1. destruct (_irradianceCommandDirty (this w)) eqn:E3; [|exact H].
    now apply irradiance_stage_consistent. }
  clearbody w1.
  destruct (_irradianceTextureDirty (this w1)).
  { eexists _, _. split; [reflexivity|exact H1]. }
  destruct (_sphericalHarmonicCoefficientsDirty (this w1)).
  - eexists _, _. split; [reflexivity|].
    eapply consistent_core; [apply core_coefficients_flag|].
    eapply consistent_core; [apply coefficient_stage_core|exact H1].
  - eexists _, _. split; [reflexivity|exact H1].
Qed.

Lemma update_staleness_consistent fs w :
  consistent w -> consistent (update_staleness fs w).
Proof.
  intros H. unfold update_staleness. destruct (negb _); [|exact H].
  cbv zeta. eapply consistent_core; [apply core_lastTime|].
  apply reset_consistent, H.
Qed.

Lemma update_consistent fs w :
  consistent w -> exists v w', update fs w = Normal v w' /\ consistent w'.
Proof.
  intros H. unfold update. destruct (_ || _).
  - eexists _, _. split; [reflexivity|exact H].
  - cbv zeta. apply update_stages_consistent, update_staleness_consistent, H.
Qed.

Lemma position_set_consistent value w :
  consistent w -> consistent (position_set value w).
Proof.
  intros H. unfold position_set. destruct (Cartesian3.equalsEpsilon _ _ _);
    [exact H|].
  apply reset_consistent. eapply consistent_core; [|exact H]. reflexivity.
Qed.

Lemma reachable_consistent w : reachable w -> consistent w.
Proof.
  induction 1 as [o m Hm|value w _ IH|b w _ IH|q w _ IH|fs w _ IH|r w _ IH
                  |w _ IH].
  - eapply constructed_consistent, Hm.
  - now apply position_set_consistent.
  - eapply consistent_core; [|exact IH]. reflexivity.
  - eapply consistent_core; [|exact IH]. reflexivity.
  - destruct (update_consistent fs w IH) as (v & w' & -> & H'). exact H'.
  - now apply execute_consistent.
  - eapply consistent_core; [|exact IH]. reflexivity.
Qed.

Lemma sample_world_reachable : reachable (sample_world 2).
Proof.
  apply reachable_position. apply (reachable_new (Some 2%Z)). reflexivity.
Qed.

Lemma executeEach_reachable rs w : reachable w -> reachable (executeEach rs w).
Proof.
  revert w. induction rs as [|r rs IH]; intros w H; [exact H|].
  apply IH. now apply reachable_execute.
Qed.

Lemma runFrame_reachable fs w : reachable w -> reachable (runFrame fs w).
Proof.
  intros H. unfold runFrame, executeAll.
  apply (executeEach_reachable
           (commandList (final_world (update fs w)))
           (set_commandList [] (final_world (update fs w)))).
  apply reachable_next_frame, reachable_update, H.
Qed.

Lemma update_staleness_coefficients fs w :
  _sphericalHarmonicCoefficients (this (update_staleness fs w))
  = _sphericalHarmonicCoefficients (this w).
Proof.
  unfold update_staleness. destruct (negb _); [|reflexivity]. cbv zeta.
  rewrite on_this_coefficients by reflexivity.
  apply quiet_coefficients, reset_quiet.
Qed.

Lemma update_stages_coefficients fs w :
  let ready := match selected_stage (this w) with
               | Some CoefficientStage => true
               | _ => false
               end in
  (returned (update_stages fs w) = Some (ReturnBool true) <-> ready = true)
  /\ _sphericalHarmonicCoefficients (this (final_world (update_stages fs w)))
     = if ready
       then unpack_all (context_readPixels fs)
                       (_sphericalHarmonicCoefficients (this w))
       else _sphericalHarmonicCoefficients (this w).
Proof.
  cbv zeta. unfold update_stages, selected_stage.
  destruct (_radianceMapDirty (this w)).
  { cbv zeta. cbn [final_world returned]. split; [split; discriminate|].
    rewrite on_this_coefficients by reflexivity.
    apply quiet_coefficients, updateRadianceMap_quiet. }
  destruct (_convolutionsCommandsDirty (this w)).
  { pose proof (updateSpecularMaps_quiet fs w) as H.
    destruct (updateSpecularMaps fs w); cbn [final_world returned] in *.
    - split; [split; discriminate|].
      rewrite on_this_coefficients by reflexivity.
      now apply quiet_coefficients.
    - split; [split; discriminate|]. now apply quiet_coefficients. }
  destruct (_irradianceCommandDirty (this w)).
  { cbv zeta.
    assert (E : _irradianceTextureDirty
                  (this (on_this (set_irradianceCommandDirty false)
                           (updateIrradianceResources fs w))) = true).
    { unfold updateIrradianceResources.
      destruct (_irradianceMapTexture _); cbv zeta beta iota;
        unfold new_Texture, new_ComputeCommand; cbv zeta beta iota;
        destruct (defined (_irradianceMapFS _)); reflexivity. }
    rewrite E. cbn [final_world returned]. split; [split; discriminate|].
    rewrite on_this_coefficients by reflexivity.
    apply quiet_coefficients, updateIrradianceResources_quiet. }
  cbv zeta.
  destruct (_irradianceTextureDirty (this w)).
  { cbn [final_world returned]. split; [split; discriminate|reflexivity]. }
  destruct (_sphericalHarmonicCoefficientsDirty (this w)).
  - cbn [final_world returned]. split; [split; reflexivity|].
    rewrite on_this_coefficients by reflexivity.
    apply updateSphericalHarmonicCoefficients_array.
  - cbn [final_world returned]. split; [split; discriminate|reflexivity].
Qed.

(** X3.  The convolution stage finds the cube map.  In every world the
    manager can be in, as soon as the convolution flag or the
    irradiance-command flag is set, or there is any task object, there is a
    cube map; so whenever the flags that [update] reads after the staleness
    check select the convolution stage, the cube map on which the first
    statement of [updateSpecularMaps] calls a method is defined.  (Calls
    into the library outside this file are not modelled; nothing is said
    of what they may raise.) *)
Theorem convolution_stage_finds_the_cube_map (w : World)
  (frameState : FrameState) :
  reachable w ->
  (_convolutionsCommandsDirty (this w) = true
   \/ _irradianceCommandDirty (this w) = true
   \/ commands w <> [] ->
   exists cubeMap, _radianceCubeMap (this w) = Some cubeMap)
  /\ (selected_stage (this (update_staleness frameState w))
      = Some ConvolutionStage ->
      exists cubeMap,
        _radianceCubeMap (this (update_staleness frameState w)) = Some cubeMap).
Proof.
  intros H. apply reachable_consistent in H.
  assert (Hcube : forall u, consistent u ->
            _convolutionsCommandsDirty (this u) = true
            \/ _irradianceCommandDirty (this u) = true
            \/ commands u <> [] ->
            exists cubeMap, _radianceCubeMap (this u) = Some cubeMap).
  { intros u (_ & _ & _ & Hu) Hor.
    assert (Hd : defined (_radianceCubeMap (this u)) = true)
      by (apply Hu; destruct Hor as [Hor|[Hor|Hor]]; auto).
    destruct (_radianceCubeMap (this u)) as [cm|]; [now exists cm|discriminate]. }
  split; [exact (Hcube w H)|].
  intros Hs. apply Hcube; [now apply update_staleness_consistent|].
  left. revert Hs. unfold selected_stage.
  destruct (_radianceMapDirty _); [discriminate|].
  destruct (_convolutionsCommandsDirty _); [reflexivity|].
  destruct (_irradianceCommandDirty _); [discriminate|].
  destruct (_irradianceTextureDirty _); [discriminate|].
  destruct (_sphericalHarmonicCoefficientsDirty _); discriminate.
Qed.

Lemma convolution_stage_finds_the_cube_map_witness :
  let f := sample_frame 5000 in
  let w := runFrame f (sample_world 2) in
  (exists cubeMap, _radianceCubeMap (this w) = Some cubeMap)
  /\ (exists cubeMap,
        _radianceCubeMap (this (update_staleness f w)) = Some cubeMap).
Proof.
  cbv zeta.
  destruct (convolution_stage_finds_the_cube_map
              (runFrame (sample_frame 5000) (sample_world 2))
              (sample_frame 5000)) as [H1 H2].
  - apply runFrame_reachable, sample_world_reachable.
  - split.
    + apply H1. left. vm_compute. reflexivity.
    + apply H2. vm_compute. reflexivity.
Defined.

(** X4.  In every world the manager can be in, its two radiance flags,
    [_radianceMapDirty] and [_radianceCommandsDirty], have the same value:
    [_reset] and the constructor set both, the radiance stage clears both,
    and nothing else writes either. *)
Theorem radiance_flags_agree (w : World) :
  reachable w ->
  _radianceMapDirty (this w) = _radianceCommandsDirty (this w).
Proof. intros H. apply reachable_consistent in H. apply H. Qed.

Lemma radiance_flags_agree_witness :
  _radianceMapDirty (this (sample_world 2))
  = _radianceCommandsDirty (this (sample_world 2)).
Proof. exact (radiance_flags_agree (sample_world 2) sample_world_reachable). Defined.

(** X5.  In every world the manager can be in, the four slot arrays have the
    lengths the constructor gave them, 6 for the radiance tasks and textures
    and 6 (N - 1) for the convolution tasks and the mip-chain textures, N
    being the number of mip levels; and the slot that the completion
    callback of any task clears is a slot of its array.  No write ever
    extends an array. *)
Theorem slot_arrays_keep_their_lengths (w : World) :
  reachable w ->
  let m := this w in
  (length (_radianceMapComputeCommands m) = 6
   /\ length (_radianceMapTextures m) = 6
   /\ length (_convolutionComputeCommands m)
      = Z.to_nat ((_mipmapLevels m - 1) * 6)
   /\ length (_specularMapTextures m) = Z.to_nat ((_mipmapLevels m - 1) * 6))
  /\ forall (r : CommandRef) (c : ComputeCommand.t),
       commands w !! r = Some c ->
       match ComputeCommand.postExecute c with
       | RadiancePostExecute index _ => index < 6
       | ConvolutionPostExecute _ index _ _ _ =>
           index < Z.to_nat ((_mipmapLevels m - 1) * 6)
       | IrradiancePostExecute => True
       end.
Proof.
  intros H. apply reachable_consistent in H.
  destruct H as (_ & (Ha & Hb & Hc & Hd) & Hf & _). cbv zeta.
  unfold chain_length in *. split; [auto|].
  intros r c Hr. pose proof (proj1 (Forall_lookup _ _) Hf r c Hr) as Hc'.
  unfold callback_in_range in Hc'. unfold CommandRef in *.
  destruct (ComputeCommand.postExecute c); [congruence|congruence|exact I].
Qed.

(** X6.  [update] returns [true] exactly when the manager is active and the
    flags, read after the staleness check, select the coefficient stage; and
    that call is the only one that writes the coefficient array, in which it
    leaves what the nine reads of the readback give.  Every other call
    leaves the array as it was. *)
Theorem update_returns_true_with_new_coefficients (frameState : FrameState)
  (w : World) :
  let active := enabled (this w) && defined (_position (this w)) in
  let ready :=
    active && match selected_stage (this (update_staleness frameState w)) with
              | Some CoefficientStage => true
              | _ => false
              end in
  (returned (update frameState w) = Some (ReturnBool true) <-> ready = true)
  /\ _sphericalHarmonicCoefficients (this (final_world (update frameState w)))
     = if ready
       then unpack_all (context_readPixels frameState)
                       (_sphericalHarmonicCoefficients (this w))
       else _sphericalHarmonicCoefficients (this w).
Proof.
  cbv zeta. unfold update.
  destruct (enabled (this w)); cbn [negb orb andb];
    [|split; [split; discriminate|reflexivity]].
  destruct (defined (_position (this w))); cbn [negb orb andb];
    [|split; [split; discriminate|reflexivity]].
  cbv zeta. rewrite <- (update_staleness_coefficients frameState w).
  apply update_stages_coefficients.
Qed.

Lemma slot_arrays_keep_their_lengths_witness :
  (length (_radianceMapComputeCommands (this (sample_world 2))) = 6
   /\ length (_radianceMapTextures (this (sample_world 2))) = 6
   /\ length (_convolutionComputeCommands (this (sample_world 2)))
      = Z.to_nat ((_mipmapLevels (this (sample_world 2)) - 1) * 6)
   /\ length (_specularMapTextures (this (sample_world 2)))
      = Z.to_nat ((_mipmapLevels (this (sample_world 2)) - 1) * 6))
  /\ forall (r : CommandRef) (c : ComputeCommand.t),
       commands (sample_world 2) !! r = Some c ->
       match ComputeCommand.postExecute c with
       | RadiancePostExecute index _ => index < 6
       | ConvolutionPostExecute _ index _ _ _ =>
           index < Z.to_nat ((_mipmapLevels (this (sample_world 2)) - 1) * 6)
       | IrradiancePostExecute => True
       end.
Proof.
  exact (slot_arrays_keep_their_lengths (sample_world 2) sample_world_reachable).
Defined.

(** ** The radiance stage *)

Lemma radiance_stage_closed fs w :
  consistent w -> _radianceMapDirty (this w) = true ->
  radiance_stage_result w
    (on_this (set_radianceMapDirty false) (updateRadianceMap fs w)).
Proof.
  intros (H1 & (Ha & Hb & Hc & Hd) & Hf & Hcube) Hdirty.
  rewrite updateRadianceMap_dirty by congruence.
  destruct (radiance_prelude_core w)
    as ((P1 & P2 & P3 & P4) & (P5 & P6 & P7 & P8) & P9 & P10 & P11 & P12).
  pose proof (radiance_turns (radiance_prelude w) 6) as T.
  cbv zeta in *.
  revert P1 P2 P3 P4 P5 P6 P7 P8 P9 P10 P11 P12 T.
  generalize (radiance_prelude w) as w2.
  intros w2 P1 P2 P3 P4 P5 P6 P7 P8 P9 P10 P11 P12 T.
  specialize (T ltac:(rewrite P5, Ha; lia) ltac:(rewrite P6, Hb; lia)).
  revert T. generalize (fold_left radiance_turn (seq 0 6) w2) as u. intros u T.
  destruct T as (T1 & T2 & (T3 & T4) & T5 & T6 & T7 & T8 & T9 & T10).
  unfold beside_faces, quiet, settings, flags in T10, P9, P10.
  injection T10 as B1 B2 B3 B4 B5 B6 B7 B8 B9 B10 B11 B12 B13
                   B14 B15 B16 B17 B18 B19 B20 B21.
  injection P10 as Q1 Q2 Q3 Q4 Q5 Q6 Q7.
  unfold radiance_stage_result. cbv zeta. simpl.
  rewrite P1, P3 in *. rewrite P2, P6, Q1, Q4 in *.
  repeat split; try assumption.
  - rewrite T2, drop_ge, app_nil_r; [reflexivity|].
    rewrite P5. unfold CommandRef in *. lia.
  - rewrite B3. exact P12.
Qed.

Lemma update_staleness_frame fs w :
  let w1 := update_staleness fs w in
  (commandList w1 = commandList w /\ textures w1 = textures w
   /\ length (commands w1) = length (commands w))
  /\ _radianceMapTextures (this w1) = _radianceMapTextures (this w)
  /\ _radianceCubeMap (this w1) = _radianceCubeMap (this w)
  /\ _position (this w1) = _position (this w)
  /\ _textureDimensions (this w1) = _textureDimensions (this w).
Proof.
  cbv zeta. unfold update_staleness. destruct (negb _); [|auto 10].
  cbv zeta. pose proof (reset_outside w) as H.
  assert (Hl : length (commands (_reset w)) = length (commands w)).
  { rewrite reset_closed. unfold reset_result. cbn [commands set_commands].
    destruct (_irradianceMapComputeCommand (this w));
      rewrite ?length_alter, !cancel_slots_length; reflexivity. }
  revert H Hl. generalize (_reset w) as w1. intros w1 H Hl.
  unfold outside_reset in H. cbv zeta in H.
  simpl. repeat split; congruence.
Qed.

(** X7.  The radiance stage.  On a manager that is enabled and has a
    position, in any world it can be in, an [update] that finds the radiance
    flag set (after the staleness check) returns [false] having built six
    tasks, one a face in the order of the faces, appended in that order to
    the frame's list and stored in the six slots; each task carries its
    face, the manager's position and a callback for its slot, and writes to
    the texture of its slot.  The texture of a slot that has one is reused;
    at most six textures are made, of the manager's dimensions, and none when
    the six slots are filled; the cube map is made only if there is none.
    Both radiance flags are cleared. *)
Theorem radiance_stage_issues_six_tasks (w : World) (frameState : FrameState) :
  reachable w ->
  enabled (this w) = true ->
  defined (_position (this w)) = true ->
  _radianceMapDirty (this (update_staleness frameState w)) = true ->
  let w' := final_world (update frameState w) in
  update frameState w = Normal (ReturnBool false) w'
  /\ radiance_stage_result w w'.
Proof.
  intros Hr He Hp Hd. cbv zeta.
  rewrite update_active by assumption.
  pose proof (update_staleness_consistent frameState w
                (reachable_consistent w Hr)) as Hc.
  destruct (update_staleness_frame frameState w)
    as ((F1 & F2 & F3) & F4 & F5 & F6 & F7). cbv zeta in *.
  revert Hd Hc F1 F2 F3 F4 F5 F6 F7.
  generalize (update_staleness frameState w) as w1.
  intros w1 Hd Hc F1 F2 F3 F4 F5 F6 F7.
  unfold update_stages. rewrite Hd. cbv zeta. cbn [final_world].
  split; [reflexivity|].
  pose proof (radiance_stage_closed frameState w1 Hc Hd) as H.
  revert H.
  generalize (on_this (set_radianceMapDirty false)
                (updateRadianceMap frameState w1)) as w'.
  intros w'. unfold radiance_stage_result. cbv zeta.
  rewrite F1, F2, F3, F4, F5, F6, F7. auto.
Qed.

Lemma radiance_stage_issues_six_tasks_witness :
  update (sample_frame 5000) (sample_world 2)
  = Normal (ReturnBool false)
           (final_world (update (sample_frame 5000) (sample_world 2)))
  /\ radiance_stage_result
       (sample_world 2)
       (final_world (update (sample_frame 5000) (sample_world 2))).
Proof.
  apply (radiance_stage_issues_six_tasks (sample_world 2) (sample_frame 5000)).
  - exact sample_world_reachable.
  - reflexivity.
  - reflexivity.
  - vm_compute. reflexivity.
Defined.

(** ** Completions of the radiance tasks *)

Lemma radiance_completions_snoc done i w :
  radiance_completions (done ++ [i]) w
  = runPostExecute (RadiancePostExecute i (face_at i))
      (radiance_completions done w).
Proof. unfold radiance_completions. now rewrite fold_left_app. Qed.

Lemma cleared_snoc {A : Type} done i (a : list (option A)) :
  cleared (done ++ [i]) a = <[i := None]> (cleared done a).
Proof. unfold cleared. now rewrite fold_left_app. Qed.

Lemma cleared_length {A : Type} done (a : list (option A)) :
  length (cleared done a) = length a.
Proof.
  induction done as [|i done IH] using rev_ind; [reflexivity|].
  now rewrite cleared_snoc, length_insert.
Qed.

Lemma cleared_lookup {A : Type} done (a : list (option A)) i :
  i < length a ->
  cleared done a !! i = if bool_decide (i ∈ done) then Some None else a !! i.
Proof.
  intros Hi. induction done as [|j done IH] using rev_ind; [reflexivity|].
  rewrite cleared_snoc. destruct (decide (i = j)) as [->|Hne].
  - rewrite list_lookup_insert_eq by (rewrite cleared_length; exact Hi).
    rewrite bool_decide_eq_true_2; [reflexivity|].
    apply elem_of_app. right. apply list_elem_of_singleton. reflexivity.
  - rewrite list_lookup_insert_ne by congruence. rewrite IH.
    rewrite (bool_decide_ext (i ∈ done ++ [j]) (i ∈ done)); [reflexivity|].
    rewrite elem_of_app, list_elem_of_singleton. intuition congruence.
Qed.

Lemma some_defined_false {A : Type} (a : list (option A)) :
  some_defined a = false <-> forall i, i < length a -> a !! i = Some None.
Proof.
  unfold some_defined. induction a as [|[x|] a IH]; cbn.
  - split; [intros _ i Hi; lia|reflexivity].
  - split; [discriminate|]. intros H. specialize (H 0 ltac:(lia)).
    discriminate.
  - rewrite IH. split.
    + intros H [|i] Hi; [reflexivity|]. apply H. lia.
    + intros H i Hi. apply (H (S i)). lia.
Qed.

Lemma some_defined_insert {A : Type} (a : list (option A)) i :
  some_defined a = false -> some_defined (<[i := None]> a) = false.
Proof.
  rewrite !some_defined_false. intros H j Hj. rewrite length_insert in Hj.
  destruct (decide (j = i)) as [->|Hne].
  - now rewrite list_lookup_insert_eq.
  - rewrite list_lookup_insert_ne by congruence. now apply H.
Qed.

Lemma all_completed (n : nat) (done : list nat) :
  NoDup done -> Forall (fun i => i < n) done ->
  (forall i, i < n -> i ∈ done) <-> length done = n.
Proof.
  intros Hnd Hall.
  assert (Hsub : done ⊆+ seq 0 n).
  { apply NoDup_submseteq; [exact Hnd|]. intros i Hi. apply elem_of_seq.
    rewrite Forall_forall in Hall. specialize (Hall i Hi). lia. }
  split.
  - intros H. transitivity (length (seq 0 n)); [|apply length_seq].
    apply Permutation_length, NoDup_Permutation;
      [exact Hnd|apply NoDup_seq|].
    intros i. split.
    + intros Hi. apply elem_of_seq. rewrite Forall_forall in Hall.
      specialize (Hall i Hi). lia.
    + intros Hi. apply elem_of_seq in Hi. apply H. lia.
  - intros Hl i Hi.
    assert (Hp : done ≡ₚ seq 0 n).
    { apply submseteq_length_Permutation; [exact Hsub|].
      rewrite length_seq. lia. }
    rewrite Hp. apply elem_of_seq. lia.
Qed.

Lemma radiance_completions_state (w : World) (done : list nat) :
  Forall (fun i => i < length (_radianceMapComputeCommands (this w))) done ->
  let u := radiance_completions done w in
  _radianceMapComputeCommands (this u)
  = cleared done (_radianceMapComputeCommands (this w))
  /\ _convolutionsCommandsDirty (this u)
     = _convolutionsCommandsDirty (this w)
       || (negb (bool_decide (done = []))
           && negb (some_defined (_radianceMapComputeCommands (this u))))
  /\ commands u = commands w.
Proof.
  cbv zeta. induction done as [|i done IH] using rev_ind; intros Hall.
  - cbn. rewrite orb_false_r. auto.
  - apply Forall_app in Hall as [Hall Hi]. apply Forall_inv in Hi.
    destruct (IH Hall) as (E1 & E2 & E3). clear IH.
    rewrite radiance_completions_snoc, cleared_snoc.
    revert E1 E2 E3. generalize (radiance_completions done w) as u.
    intros u E1 E2 E3.
    assert (Hne : bool_decide (done ++ [i] = []) = false)
      by (apply bool_decide_eq_false_2; intros H;
          apply app_eq_nil in H as [_ H]; discriminate).
    rewrite Hne. cbn [negb andb].
    cbn [runPostExecute]. cbv zeta.
    assert (Ea : array_set (_radianceMapComputeCommands (this u)) i None
                 = <[i := None]> (cleared done (_radianceMapComputeCommands (this w)))).
    { rewrite array_set_in_range; [now rewrite E1|].
      rewrite E1, cleared_length. exact Hi. }
    set (a' := <[i := None]> (cleared done (_radianceMapComputeCommands (this w)))) in *.
    assert (Ea' : _radianceMapComputeCommands
                    (this (on_this
                       (fun m => set_radianceCubeMap
                                   (CubeMap.copyFace (face_at i) 0 <$> _radianceCubeMap m) m)
                       (on_this
                          (fun m => set_radianceMapComputeCommands
                                      (array_set (_radianceMapComputeCommands m) i None) m)
                          u))) = a') by exact Ea.
    rewrite Ea'.
    destruct (some_defined a') eqn:Es; cbn [negb]; simpl; rewrite Ea.
    + split; [reflexivity|]. split; [|exact E3].
      rewrite Es. cbn [negb]. rewrite E2, orb_false_r.
      destruct (bool_decide (done = [])); cbn [negb andb];
        [now rewrite orb_false_r|].
      destruct (some_defined (_radianceMapComputeCommands (this u))) eqn:Eu;
        [now rewrite orb_false_r|].
      rewrite E1 in Eu. apply (some_defined_insert _ i) in Eu.
      subst a'. congruence.
    + rewrite Es. cbn [negb]. rewrite orb_true_r. auto.
Qed.

(** X8.  The completion callbacks of the radiance tasks, in any order.  In a
    world whose radiance slots all hold a task, let the callbacks of the
    slots [done] run, each slot at most once, in any order.  Then exactly the
    slots [done] are empty, no task object is touched, and the convolution
    flag has been raised exactly if all the slots have completed: it is the
    last completion, whichever it is, that starts the convolution stage. *)
Theorem radiance_completions_in_any_order (w : World) (done : list nat) :
  let slots := _radianceMapComputeCommands (this w) in
  Forall (fun slot => defined slot = true) slots ->
  NoDup done ->
  Forall (fun index => index < length slots) done ->
  let u := radiance_completions done w in
  (length (_radianceMapComputeCommands (this u)) = length slots
   /\ forall index, index < length slots ->
        array_get (_radianceMapComputeCommands (this u)) index
        = if bool_decide (index ∈ done) then None else array_get slots index)
  /\ _convolutionsCommandsDirty (this u)
     = _convolutionsCommandsDirty (this w)
       || (bool_decide (1 <= length slots)
           && bool_decide (length done = length slots))
  /\ commands u = commands w.
Proof.
  cbv zeta. intros Hdef Hnd Hall.
  destruct (radiance_completions_state w done Hall) as (E1 & E2 & E3).
  cbv zeta in *. revert E1 E2 E3. generalize (radiance_completions done w) as u.
  intros u E1 E2 E3. rewrite E1 in *. rewrite cleared_length.
  split; [split; [reflexivity|]|split; [|exact E3]].
  - intros i Hi. unfold array_get. rewrite cleared_lookup by exact Hi.
    destruct (bool_decide (i ∈ done)); reflexivity.
  - rewrite E2. f_equal.
    set (slots := _radianceMapComputeCommands (this w)) in *.
    destruct (bool_decide (length done = length slots)) eqn:El.
    + apply bool_decide_eq_true_1 in El. rewrite andb_true_r.
      assert (Hs : some_defined (cleared done slots) = false).
      { apply some_defined_false. intros i Hi. rewrite cleared_length in Hi.
        rewrite cleared_lookup by exact Hi.
        rewrite bool_decide_eq_true_2; [reflexivity|].
        now apply (all_completed (length slots) done Hnd Hall). }
      rewrite Hs. cbn [negb]. rewrite andb_true_r.
      destruct done as [|i done]; cbn in El |- *.
      * symmetry. apply bool_decide_eq_false_2. lia.
      * symmetry. apply bool_decide_eq_true_2. lia.
    + apply bool_decide_eq_false_1 in El. rewrite andb_false_r.
      apply andb_false_iff. right. apply negb_false_iff.
      destruct (some_defined (cleared done slots)) eqn:Es; [reflexivity|].
      exfalso. apply El.
      apply (all_completed (length slots) done Hnd Hall). intros i Hi.
      rewrite some_defined_false in Es.
      specialize (Es i ltac:(rewrite cleared_length; exact Hi)).
      rewrite cleared_lookup in Es by exact Hi.
      destruct (bool_decide (i ∈ done)) eqn:Ei;
        [now apply bool_decide_eq_true_1 in Ei|].
      exfalso. rewrite Forall_lookup in Hdef.
      destruct (lookup_lt_is_Some_2 slots i Hi) as [s Hs].
      specialize (Hdef i s Hs). rewrite Hs in Es. injection Es as ->.
      discriminate.
Qed.

Lemma radiance_completions_in_any_order_witness :
  let w := final_world (update (sample_frame 5000) (sample_world 2)) in
  let done := [3; 0; 5; 1; 4; 2] in
  let u := radiance_completions done w in
  (length (_radianceMapComputeCommands (this u))
   = length (_radianceMapComputeCommands (this w))
   /\ forall index, index < length (_radianceMapComputeCommands (this w)) ->
        array_get (_radianceMapComputeCommands (this u)) index
        = if bool_decide (index ∈ done) then None
          else array_get (_radianceMapComputeCommands (this w)) index)
  /\ _convolutionsCommandsDirty (this u)
     = _convolutionsCommandsDirty (this w)
       || (bool_decide (1 <= length (_radianceMapComputeCommands (this w)))
           && bool_decide (length done
                           = length (_radianceMapComputeCommands (this w))))
  /\ commands u = commands w.
Proof.
  cbv zeta.
  apply (radiance_completions_in_any_order
           (final_world (update (sample_frame 5000) (sample_world 2)))
           [3; 0; 5; 1; 4; 2]).
  - vm_compute. repeat constructor.
  - apply (bool_decide_unpack _). vm_compute. exact I.
  - vm_compute. repeat constructor.
Defined.

(** ** A manager of one level *)

Lemma Forall_cancel_slots_callback slots cs :
  Forall radiance_callback cs -> Forall radiance_callback (cancel_slots slots cs).
Proof.
  revert cs. induction slots as [|[r|] slots IH]; intros cs H; cbn; auto.
  apply IH. apply Forall_alter; [exact H|]. intros c _ Hc. exact Hc.
Qed.

Lemma reset_stalled w : stalled w -> stalled (_reset w).
Proof.
  intros ((F1 & F2 & F3) & Hf & Hc).
  pose proof (reset_outside w) as H.
  assert (Hcs : Forall radiance_callback (commands (_reset w))).
  { rewrite reset_closed. unfold reset_result. cbn [commands set_commands].
    destruct (_irradianceMapComputeCommand (this w)).
    - apply Forall_alter; [|intros c' _ Hc'; exact Hc'].
      now do 2 apply Forall_cancel_slots_callback.
    - now do 2 apply Forall_cancel_slots_callback. }
  revert H Hcs. generalize (_reset w) as w1. intros w1 H Hcs.
  unfold outside_reset in H. cbv zeta in H. unfold stalled. cbv zeta.
  repeat split; try exact Hcs; congruence.
Qed.

Lemma radiance_stage_stalled fs w :
  consistent w -> _radianceMapDirty (this w) = true -> stalled w ->
  stalled (on_this (set_radianceMapDirty false) (updateRadianceMap fs w)).
Proof.
  intros (H1 & (Ha & Hb & Hc & Hd) & Hf & Hcube) Hdirty ((F1 & F2 & F3) & Hs & Hco).
  rewrite updateRadianceMap_dirty by congruence.
  destruct (radiance_prelude_core w)
    as ((P1 & P2 & P3 & P4) & (P5 & P6 & P7 & P8) & P9 & P10 & P11 & P12).
  pose proof (radiance_turns (radiance_prelude w) 6) as T.
  cbv zeta in *.
  revert P1 P2 P3 P4 P5 P6 P7 P8 P9 P10 P11 P12 T.
  generalize (radiance_prelude w) as w2.
  intros w2 P1 P2 P3 P4 P5 P6 P7 P8 P9 P10 P11 P12 T.
  specialize (T ltac:(rewrite P5, Ha; lia) ltac:(rewrite P6, Hb; lia)).
  revert T. generalize (fold_left radiance_turn (seq 0 6) w2) as u. intros u T.
  destruct T as (T1 & T2 & (T3 & T4) & T5 & T6 & T7 & T8 & T9 & T10).
  unfold beside_faces, quiet, settings, flags in T10, P9, P10.
  injection T10 as B1 B2 B3 B4 B5 B6 B7 B8 B9 B10 B11 B12 B13
                   B14 B15 B16 B17 B18 B19 B20 B21.
  injection P9 as G1 G2 G3 G4 G5 G6.
  injection P10 as Q1 Q2 Q3 Q4 Q5 Q6 Q7.
  unfold stalled. cbv zeta. simpl.
  split; [repeat split; congruence|]. split; [|rewrite B21, Q7; exact Hco].
  apply Forall_lookup. intros j c Hj.
  destruct (decide (j < length (commands w2))) as [Hlt|Hge].
  - rewrite <- (lookup_take_lt _ _ _ Hlt), T4, P1 in Hj.
    exact (proj1 (Forall_lookup _ _) Hs j c Hj).
  - apply lookup_lt_Some in Hj as Hj'. rewrite T3 in Hj'.
    destruct (T5 (j - length (commands w2)) ltac:(lia))
      as (c' & Hc' & Hp & _).
    replace (length (commands w2) + (j - length (commands w2))) with j
      in Hc' by lia.
    rewrite Hj in Hc'. injection Hc' as <-.
    unfold radiance_callback. now rewrite Hp.
Qed.

Lemma convolution_stage_stalled fs w :
  consistent w -> _convolutionsCommandsDirty (this w) = true ->
  _mipmapLevels (this w) = 1%Z -> stalled w ->
  stalled (on_this (set_convolutionsCommandsDirty false)
             (final_world (updateSpecularMaps fs w))).
Proof.
  intros (H1 & (Ha & Hb & Hc & Hd) & Hf & Hcube) Hdirty Hn
         ((F1 & F2 & F3) & Hs & Hco).
  destruct (_radianceCubeMap (this w)) as [cm|] eqn:Ecm;
    [|specialize (Hcube ltac:(auto)); discriminate].
  destruct (updateSpecularMaps_closed fs w cm Ecm Hc Hd) as (w' & E & C & B).
  pose proof (updateSpecularMaps_quiet fs w) as Q. rewrite E in Q |- *.
  cbn [final_world] in Q |- *. clear E.
  unfold chain_length in C. rewrite Hn in C. cbn [seq map Z.to_nat] in C.
  change (Z.to_nat ((1 - 1) * 6)) with 0 in C. cbn [seq map] in C.
  rewrite !app_nil_r in C.
  unfold chain in C. injection C as C1 C2 C3 C4 C5.
  unfold beside_chain, flags in B.
  injection B as B1 B2 B3 B4 B5 B6 B7 B8 B9 B10 B11 B12 B13.
  unfold quiet, settings in Q. injection Q as Q1 Q2 Q3 Q4 Q5 Q6 Q7.
  unfold stalled. cbv zeta. simpl. rewrite C1.
  split; [repeat split; congruence|]. split; [exact Hs|].
  rewrite Q7. exact Hco.
Qed.

Lemma execute_stalled r w : stalled w -> stalled (execute r w).
Proof.
  intros H. unfold execute.
  destruct (commands w !! r) as [c|] eqn:Er; [|exact H].
  destruct (ComputeCommand.canceled c); [exact H|].
  destruct H as ((F1 & F2 & F3) & Hs & Hco).
  pose proof (proj1 (Forall_lookup _ _) Hs r c Er) as Hr.
  unfold radiance_callback in Hr.
  destruct (ComputeCommand.postExecute c)
    as [index face|cell index texture face level|]; [|contradiction..].
  cbn [runPostExecute]. cbv zeta. unfold stalled.
  destruct (negb _); simpl; auto.
Qed.

Lemma update_stages_stalled fs w :
  consistent w -> _mipmapLevels (this w) = 1%Z -> stalled w ->
  stalled (final_world (update_stages fs w))
  /\ returned (update_stages fs w) <> Some (ReturnBool true).
Proof.
  intros Hc Hn Hs. unfold update_stages.
  destruct (_radianceMapDirty (this w)) eqn:E1.
  { cbv zeta. cbn [final_world returned]. split; [|discriminate].
    now apply radiance_stage_stalled. }
  destruct (_convolutionsCommandsDirty (this w)) eqn:E2.
  { pose proof (convolution_stage_stalled fs w Hc E2 Hn Hs) as H.
    destruct (convolution_stage_consistent fs w Hc E2) as (w' & E & _).
    rewrite E in *. cbn [final_world returned] in *.
    split; [exact H|discriminate]. }
  destruct Hs as ((F1 & F2 & F3) & Hs & Hco).
  rewrite F1. cbv zeta. rewrite F2, F3. cbn [final_world returned].
  split; [|discriminate]. unfold stalled. auto.
Qed.

Lemma update_staleness_stalled fs w :
  stalled w -> stalled (update_staleness fs w).
Proof.
  intros H. unfold update_staleness. destruct (negb _); [|exact H].
  cbv zeta. apply reset_stalled in H. revert H.
  generalize (_reset w) as w1. intros w1 H. exact H.
Qed.

Lemma update_staleness_mipmapLevels fs w :
  _mipmapLevels (this (update_staleness fs w)) = _mipmapLevels (this w).
Proof.
  unfold update_staleness. destruct (negb _); [|reflexivity]. cbv zeta.
  pose proof (reset_quiet w) as H. revert H.
  generalize (_reset w) as w1. intros w1 H.
  unfold quiet, settings in H. simpl. congruence.
Qed.

Lemma update_stalled fs w :
  consistent w -> _mipmapLevels (this w) = 1%Z -> stalled w ->
  stalled (final_world (update fs w))
  /\ returned (update fs w) <> Some (ReturnBool true).
Proof.
  intros Hc Hn Hs. unfold update. destruct (_ || _).
  - cbn [final_world returned]. split; [exact Hs|discriminate].
  - cbv zeta. apply update_stages_stalled.
    + now apply update_staleness_consistent.
    + now rewrite update_staleness_mipmapLevels.
    + now apply update_staleness_stalled.
Qed.


Lemma position_set_mipmapLevels value w :
  _mipmapLevels (this (position_set value w)) = _mipmapLevels (this w).
Proof.
  unfold position_set. destruct (Cartesian3.equalsEpsilon _ _ _); [reflexivity|].
  pose proof (reset_quiet (on_this (set_position value) w)) as H. revert H.
  generalize (_reset (on_this (set_position value) w)) as w1. intros w1 H.
  unfold quiet, settings in H. injection H as _ H _ _ _ _ _. exact H.
Qed.

Lemma update_mipmapLevels fs w :
  _mipmapLevels (this (final_world (update fs w))) = _mipmapLevels (this w).
Proof.
  unfold update. destruct (_ || _); [reflexivity|]. cbv zeta.
  pose proof (update_stages_settings fs (update_staleness fs w)) as H.
  rewrite <- (update_staleness_mipmapLevels fs w). revert H.
  generalize (final_world (update_stages fs (update_staleness fs w))) as w1.
  generalize (update_staleness fs w) as w0.
  intros w0 w1 H. unfold settings in H. congruence.
Qed.

Lemma execute_mipmapLevels r w :
  _mipmapLevels (this (execute r w)) = _mipmapLevels (this w).
Proof.
  pose proof (execute_quiet r w) as H. revert H.
  generalize (execute r w) as w1. intros w1 H.
  unfold quiet, settings in H. congruence.
Qed.

Lemma position_set_stalled value w : stalled w -> stalled (position_set value w).
Proof.
  intros H. unfold position_set. destruct (Cartesian3.equalsEpsilon _ _ _);
    [exact H|].
  apply reset_stalled. exact H.
Qed.

Lemma reachable_stalled w :
  reachable w -> _mipmapLevels (this w) = 1%Z -> stalled w.
Proof.
  induction 1 as [o m Hm|value w Hr IH|b w Hr IH|q w Hr IH|fs w Hr IH|r w Hr IH
                  |w Hr IH]; intros Hn.
  - unfold DynamicEnvironmentMapManager in Hm.
    destruct (_ <? _)%Z; [discriminate|]. injection Hm as <-.
    unfold stalled. cbn. auto.
  - rewrite position_set_mipmapLevels in Hn. apply position_set_stalled; auto.
  - exact (IH Hn).
  - exact (IH Hn).
  - rewrite update_mipmapLevels in Hn.
    apply update_stalled; auto using reachable_consistent.
  - rewrite execute_mipmapLevels in Hn. apply execute_stalled; auto.
  - exact (IH Hn).
Qed.

(** X9.  A manager of a single mip level never completes.  The constructor
    accepts [mipmapLevels = 1] (it is the least value for which the arrays
    can be made); the convolution stage then has no level to convolve and
    builds no task, and since only the callback of a convolution task raises
    the irradiance flag, the later stages never run: in every world such a
    manager can be in, [update] does not return [true], the three later
    flags are clear and the nine coefficients are undefined. *)
Theorem single_level_manager_never_completes (w : World)
  (frameState : FrameState) :
  reachable w ->
  _mipmapLevels (this w) = 1%Z ->
  returned (update frameState w) <> Some (ReturnBool true)
  /\ (_irradianceCommandDirty (this w) = false
      /\ _irradianceTextureDirty (this w) = false
      /\ _sphericalHarmonicCoefficientsDirty (this w) = false)
  /\ _sphericalHarmonicCoefficients (this w) = replicate 9 None.
Proof.
  intros Hr Hn. pose proof (reachable_stalled w Hr Hn) as Hs.
  split.
  - apply update_stalled; auto using reachable_consistent.
  - destruct Hs as (Hf & _ & Hc). auto.
Qed.

Lemma single_level_manager_never_completes_witness :
  let f := sample_frame 5000 in
  let w := runFrame f (runFrame f (runFrame f (sample_world 1))) in
  returned (update f w) <> Some (ReturnBool true)
  /\ (_irradianceCommandDirty (this w) = false
      /\ _irradianceTextureDirty (this w) = false
      /\ _sphericalHarmonicCoefficientsDirty (this w) = false)
  /\ _sphericalHarmonicCoefficients (this w) = replicate 9 None.
Proof.
  cbv zeta.
  apply (single_level_manager_never_completes
           (runFrame (sample_frame 5000)
              (runFrame (sample_frame 5000)
                 (runFrame (sample_frame 5000) (sample_world 1))))
           (sample_frame 5000)).
  - do 3 apply runFrame_reachable. apply reachable_position.
    apply (reachable_new (Some 1%Z)). reflexivity.
  - vm_compute. reflexivity.
Defined.

(** ** Which task is in which slot *)

Lemma slots_typed_core w w' :
  typed_core w' = typed_core w -> slots_typed w -> slots_typed w'.
Proof.
  unfold typed_core, slots_typed. cbv zeta.
  intros H. injection H as -> -> -> ->. auto.
Qed.

Lemma elem_of_replicate_None {A : Type} n (x : A) :
  ~ Some x ∈ replicate n (@None A).
Proof. intros H. apply elem_of_replicate in H as [H _]. discriminate. Qed.

Lemma elem_of_array_set_None {A : Type} (a : list (option A)) i (x : A) :
  i < length a -> Some x ∈ array_set a i None -> Some x ∈ a.
Proof.
  intros Hi H. rewrite array_set_in_range in H by exact Hi.
  apply list_elem_of_lookup in H as [j Hj].
  destruct (decide (j = i)) as [->|Hne].
  - rewrite list_lookup_insert_eq in Hj by exact Hi. discriminate.
  - rewrite list_lookup_insert_ne in Hj by congruence.
    apply list_elem_of_lookup. now exists j.
Qed.

Lemma reset_typed w : slots_typed w -> slots_typed (_reset w).
Proof.
  intros (Hi & Hr & Hc & Hf).
  rewrite reset_closed. unfold slots_typed, reset_result. cbv zeta.
  rewrite Hi.
  cbn [this commands set_commands on_this set_this
       _radianceMapComputeCommands _convolutionComputeCommands
       _irradianceMapComputeCommand
       set_radianceCommandsDirty set_radianceMapDirty
       set_irradianceMapComputeCommand set_convolutionComputeCommands
       set_radianceMapComputeCommands].
  split; [reflexivity|].
  split; [intros r H; now apply elem_of_replicate_None in H|].
  split; [intros r H; now apply elem_of_replicate_None in H|].
  apply Forall_lookup. intros r c Hrc.
  unfold CommandRef in *.
  rewrite !cancel_slots_lookup in Hrc.
  destruct (commands w !! r) as [c0|] eqn:E0; [|discriminate].
  pose proof (proj1 (Forall_lookup _ _) Hf r c0 E0) as Hc0.
  cbn in Hrc. injection Hrc as <-.
  intros Hirr.
  assert (Hirr0 : irradiance_callback c0).
  { revert Hirr. unfold irradiance_callback.
    do 2 destruct (bool_decide _); exact id. }
  rewrite bool_decide_eq_false_2.
  - rewrite bool_decide_eq_false_2; [exact (Hc0 Hirr0)|].
    intros E1. destruct (Hr r E1) as (c1 & Hc1 & Hk).
    assert (c1 = c0) as -> by congruence.
    unfold radiance_callback in Hk. rewrite Hirr0 in Hk. exact Hk.
  - intros E2. destruct (Hc r E2) as (c1 & Hc1 & Hk).
    assert (c1 = c0) as -> by congruence.
    unfold convolution_callback in Hk. rewrite Hirr0 in Hk. exact Hk.
Qed.

Lemma radiance_stage_beside fs w :
  consistent w -> _radianceMapDirty (this w) = true ->
  let w' := on_this (set_radianceMapDirty false) (updateRadianceMap fs w) in
  take (length (commands w)) (commands w') = commands w
  /\ (_convolutionComputeCommands (this w') = _convolutionComputeCommands (this w)
      /\ _specularMapTextures (this w') = _specularMapTextures (this w)
      /\ _irradianceComputeCommand (this w') = _irradianceComputeCommand (this w)
      /\ _irradianceMapComputeCommand (this w')
         = _irradianceMapComputeCommand (this w)
      /\ _irradianceMapTexture (this w') = _irradianceMapTexture (this w))
  /\ (_convolutionsCommandsDirty (this w') = _convolutionsCommandsDirty (this w)
      /\ _irradianceCommandDirty (this w') = _irradianceCommandDirty (this w)
      /\ _irradianceTextureDirty (this w') = _irradianceTextureDirty (this w)
      /\ _sphericalHarmonicCoefficientsDirty (this w')
         = _sphericalHarmonicCoefficientsDirty (this w))
  /\ counters w' = counters w
  /\ quiet w' = quiet w.
Proof.
  intros (H1 & (Ha & Hb & Hc & Hd) & Hf & Hcube) Hdirty.
  rewrite updateRadianceMap_dirty by congruence.
  destruct (radiance_prelude_core w)
    as ((P1 & P2 & P3 & P4) & (P5 & P6 & P7 & P8) & P9 & P10 & P11 & P12).
  pose proof (radiance_turns (radiance_prelude w) 6) as T.
  assert (P13 : _irradianceComputeCommand (this (radiance_prelude w))
                = _irradianceComputeCommand (this w)
                /\ _irradianceMapComputeCommand (this (radiance_prelude w))
                   = _irradianceMapComputeCommand (this w)
                /\ _irradianceMapTexture (this (radiance_prelude w))
                   = _irradianceMapTexture (this w)).
  { unfold radiance_prelude. cbv zeta.
    destruct (defined (_radianceCubeMap _));
      destruct (defined (_radianceMapFS _)); auto. }
  destruct P13 as (P13 & P14 & P15).
  cbv zeta in *.
  revert P1 P2 P3 P4 P5 P6 P7 P8 P9 P10 P11 P12 P13 P14 P15 T.
  generalize (radiance_prelude w) as w2.
  intros w2 P1 P2 P3 P4 P5 P6 P7 P8 P9 P10 P11 P12 P13 P14 P15 T.
  specialize (T ltac:(rewrite P5, Ha; lia) ltac:(rewrite P6, Hb; lia)).
  revert T. generalize (fold_left radiance_turn (seq 0 6) w2) as u. intros u T.
  destruct T as (T1 & T2 & (T3 & T4) & T5 & T6 & T7 & T8 & T9 & T10).
  unfold beside_faces, quiet, settings, flags in T10, P9, P10.
  injection T10 as B1 B2 B3 B4 B5 B6 B7 B8 B9 B10 B11 B12 B13
                   B14 B15 B16 B17 B18 B19 B20 B21.
  injection P9 as G1 G2 G3 G4 G5 G6.
  injection P10 as Q1 Q2 Q3 Q4 Q5 Q6 Q7.
  unfold quiet, settings. simpl. rewrite P1 in T4.
  split; [exact T4|]. split; [repeat split; congruence|].
  split; [repeat split; congruence|]. split; congruence.
Qed.

Lemma lookup_take_prefix {A : Type} (l l' : list A) (r : nat) (x : A) :
  take (length l) l' = l -> l !! r = Some x -> l' !! r = Some x.
Proof.
  intros H Hx. rewrite <- H in Hx.
  apply lookup_take_Some in Hx as [Hx _]. exact Hx.
Qed.

Lemma prefix_canceled (P : ComputeCommand.t -> Prop) cs cs' new :
  take (length cs) cs' = cs -> length cs' = length cs + new ->
  Forall P cs ->
  (forall i, i < new -> exists c, cs' !! (length cs + i) = Some c /\ P c) ->
  Forall P cs'.
Proof.
  intros Ht Hl Hf Hnew. apply Forall_lookup. intros j c Hj.
  destruct (decide (j < length cs)) as [Hlt|Hge].
  - rewrite <- (lookup_take_lt _ _ _ Hlt), Ht in Hj.
    exact (proj1 (Forall_lookup _ _) Hf j c Hj).
  - apply lookup_lt_Some in Hj as Hj'. rewrite Hl in Hj'.
    destruct (Hnew (j - length cs) ltac:(lia)) as (c' & Hc' & Hp).
    replace (length cs + (j - length cs)) with j in Hc' by lia.
    rewrite Hj in Hc'. injection Hc' as <-. exact Hp.
Qed.

Lemma radiance_stage_typed fs w :
  consistent w -> _radianceMapDirty (this w) = true -> slots_typed w ->
  slots_typed (on_this (set_radianceMapDirty false) (updateRadianceMap fs w)).
Proof.
  intros Hc Hdirty (Hi & Hr & Hcv & Hf).
  destruct (radiance_stage_beside fs w Hc Hdirty)
    as (Ht & (B1 & B2 & B3 & B4 & B5) & _ & _ & _).
  destruct (radiance_stage_closed fs w Hc Hdirty)
    as (R1 & R2 & R3 & R4 & _).
  cbv zeta in *. revert Ht B1 B2 B3 B4 B5 R1 R2 R3 R4.
  generalize (on_this (set_radianceMapDirty false) (updateRadianceMap fs w))
    as w'.
  intros w' Ht B1 B2 B3 B4 B5 R1 R2 R3 R4.
  unfold slots_typed. cbv zeta. rewrite B4, B1, R2.
  split; [exact Hi|]. split; [|split].
  - intros r Hin. apply list_elem_of_fmap in Hin as (i & E & Hin).
    injection E as ->. apply elem_of_seq in Hin.
    destruct (R4 i ltac:(lia)) as (c & Hc' & Hp & _).
    exists c. split; [exact Hc'|]. unfold radiance_callback. now rewrite Hp.
  - intros r Hin. destruct (Hcv r Hin) as (c & Hc' & Hk).
    exists c. split; [|exact Hk]. eapply lookup_take_prefix; eauto.
  - apply (prefix_canceled _ (commands w) (commands w') 6 Ht R3 Hf).
    intros i Hi6. destruct (R4 i Hi6) as (c & Hc' & _ & _ & _ & Hcan & _).
    exists c. split; [exact Hc'|]. intros _. exact Hcan.
Qed.

Lemma convolution_stage_typed fs w :
  consistent w -> _convolutionsCommandsDirty (this w) = true -> slots_typed w ->
  slots_typed (on_this (set_convolutionsCommandsDirty false)
                 (final_world (updateSpecularMaps fs w))).
Proof.
  intros (H1 & (Ha & Hb & Hc & Hd) & Hf & Hcube) Hdirty (Hi & Hr & Hcv & Hfc).
  destruct (_radianceCubeMap (this w)) as [cm|] eqn:Ecm;
    [|specialize (Hcube ltac:(auto)); discriminate].
  assert (Hirr : _irradianceMapComputeCommand
                   (this (final_world (updateSpecularMaps fs w)))
                 = _irradianceMapComputeCommand (this w)).
  { rewrite (updateSpecularMaps_flat fs w cm Ecm). cbn [final_world].
    rewrite (fold_left_preserves
               (fun w => _irradianceMapComputeCommand (this w)));
      [reflexivity|].
    intros a b. unfold convolution_turn, convolutionFace.
    unfold new_Texture, new_ComputeCommand, push. cbv zeta.
    destruct (defined (_va _)); destruct (defined (_convolveSP _));
      reflexivity. }
  destruct (updateSpecularMaps_closed fs w cm Ecm Hc Hd) as (w' & E & C & B).
  rewrite E in *. cbn [final_world] in *. clear E.
  unfold chain in C. injection C as C1 C2 C3 C4 C5.
  unfold beside_chain, flags in B.
  injection B as B1 B2 B3 B4 B5 B6 B7 B8 B9 B10 B11 B12 B13.
  unfold slots_typed. cbv zeta. simpl. rewrite C1, C4, Hirr, B10.
  split; [exact Hi|]. split; [|split].
  - intros r Hin. destruct (Hr r Hin) as (c & Hc' & Hk).
    exists c. split; [|exact Hk]. now apply lookup_app_l_Some.
  - intros r Hin. apply list_elem_of_fmap in Hin as (i & E & Hin).
    injection E as ->. apply elem_of_seq in Hin.
    eexists. split.
    + rewrite lookup_app_r by lia.
      replace (length (commands w) + i - length (commands w)) with i by lia.
      rewrite list_lookup_fmap, lookup_seq_lt by lia. reflexivity.
    + exact I.
  - apply Forall_app. split; [exact Hfc|].
    apply Forall_forall. intros c Hin.
    apply list_elem_of_fmap in Hin as (i & -> & _). intros _. reflexivity.
Qed.

Lemma irradiance_stage_typed fs w :
  slots_typed w ->
  slots_typed (on_this (set_irradianceCommandDirty false)
                 (updateIrradianceResources fs w)).
Proof.
  intros (Hi & Hr & Hcv & Hf).
  unfold updateIrradianceResources.
  change (_irradianceMapTexture (this (log IrradianceStage w)))
    with (_irradianceMapTexture (this w)).
  unfold slots_typed in *.
  destruct (_irradianceMapTexture (this w)); cbv zeta beta iota;
    unfold new_Texture, new_ComputeCommand; cbv zeta beta iota;
    (destruct (defined (_irradianceMapFS _)); simpl;
     (split; [exact Hi|]);
     (split; [intros r Hin; destruct (Hr r Hin) as (c & Hc' & Hk);
              exists c; split; [now apply lookup_app_l_Some|exact Hk]|]);
     (split; [intros r Hin; destruct (Hcv r Hin) as (c & Hc' & Hk);
              exists c; split; [now apply lookup_app_l_Some|exact Hk]|]);
     apply Forall_app; (split; [exact Hf|]);
     apply Forall_singleton; reflexivity).
Qed.

Lemma coefficient_stage_typed_core fs w :
  typed_core (updateSphericalHarmonicCoefficients fs w) = typed_core w.
Proof.
  unfold updateSphericalHarmonicCoefficients.
  rewrite (fold_left_preserves typed_core); reflexivity.
Qed.

Lemma typed_core_coefficients_flag b w :
  typed_core (on_this (set_sphericalHarmonicCoefficientsDirty b) w)
  = typed_core w.
Proof. reflexivity. Qed.

Lemma typed_core_lastTime t w :
  typed_core (on_this (set_lastTime t) w) = typed_core w.
Proof. reflexivity. Qed.

Lemma execute_typed r w : consistent w -> slots_typed w -> slots_typed (execute r w).
Proof.
  intros Hc H. unfold execute.
  destruct (commands w !! r) as [c|] eqn:Er; [|exact H].
  destruct (ComputeCommand.canceled c); [exact H|].
  destruct Hc as (_ & _ & Hf & _).
  pose proof (proj1 (Forall_lookup _ _) Hf r c Er) as Hin.
  unfold callback_in_range in Hin.
  destruct H as (Hi & Hr & Hcv & Hfc). unfold slots_typed.
  destruct (ComputeCommand.postExecute c)
    as [index face|cell index texture face level|]; cbn [runPostExecute];
    cbv zeta.
  - destruct (negb _); simpl;
      (split; [exact Hi|]);
      (split; [intros r' Hr'; apply Hr;
               now apply (elem_of_array_set_None _ index)|]);
      (split; [exact Hcv|exact Hfc]).
  - destruct (decide _); simpl;
      (split; [exact Hi|]); (split; [exact Hr|]);
      (split; [intros r' Hr'; apply Hcv;
               now apply (elem_of_array_set_None _ index)|exact Hfc]).
  - simpl. auto.
Qed.

Lemma update_stages_typed fs w :
  consistent w -> slots_typed w ->
  slots_typed (final_world (update_stages fs w)).
Proof.
  intros Hc H. unfold update_stages.
  destruct (_radianceMapDirty (this w)) eqn:E1.
  { cbv zeta. cbn [final_world]. now apply radiance_stage_typed. }
  destruct (_convolutionsCommandsDirty (this w)) eqn:E2.
  { pose proof (convolution_stage_typed fs w Hc E2 H) as H'.
    destruct (convolution_stage_consistent fs w Hc E2) as (w' & E & _).
    rewrite E in *. exact H'. }
  cbv zeta.
  set (w1 := if _irradianceCommandDirty (this w) then _ else w).
  assert (H1 : slots_typed w1).
  { subst w1. destruct (_irradianceCommandDirty (this w)); [|exact H].
    now apply irradiance_stage_typed. }
  clearbody w1.
  destruct (_irradianceTextureDirty (this w1)); [exact H1|].
  destruct (_sphericalHarmonicCoefficientsDirty (this w1)); [|exact H1].
  cbn [final_world].
  eapply slots_typed_core; [apply typed_core_coefficients_flag|].
  eapply slots_typed_core; [apply coefficient_stage_typed_core|exact H1].
Qed.

Lemma update_typed fs w :
  consistent w -> slots_typed w -> slots_typed (final_world (update fs w)).
Proof.
  intros Hc H. unfold update. destruct (_ || _); [exact H|].
  cbv zeta. apply update_stages_typed.
  - now apply update_staleness_consistent.
  - unfold update_staleness. destruct (negb _); [|exact H]. cbv zeta.
    eapply slots_typed_core; [apply typed_core_lastTime|].
    now apply reset_typed.
Qed.

Lemma reachable_typed w : reachable w -> slots_typed w.
Proof.
  induction 1 as [o m Hm|value w Hr IH|b w Hr IH|q w Hr IH|fs w Hr IH|r w Hr IH
                  |w Hr IH].
  - unfold DynamicEnvironmentMapManager in Hm.
    destruct (_ <? _)%Z; [discriminate|]. injection Hm as <-.
    unfold slots_typed, new_World, constructed, new_Array.
    cbn [this commands _irradianceMapComputeCommand
         _radianceMapComputeCommands _convolutionComputeCommands].
    split; [reflexivity|].
    split; [intros r H; now apply elem_of_replicate_None in H|].
    split; [intros r H; now apply elem_of_replicate_None in H|].
    constructor.
  - unfold position_set. destruct (Cartesian3.equalsEpsilon _ _ _); [exact IH|].
    apply reset_typed. eapply slots_typed_core; [|exact IH]. reflexivity.
  - eapply slots_typed_core; [|exact IH]. reflexivity.
  - eapply slots_typed_core; [|exact IH]. reflexivity.
  - apply update_typed; auto using reachable_consistent.
  - apply execute_typed; auto using reachable_consistent.
  - eapply slots_typed_core; [|exact IH]. reflexivity.
Qed.

(** ** Teardown *)

Lemma destroy_slots_snoc slots slot ts :
  destroy_slots (slots ++ [slot]) ts
  = match slot with
    | Some texture => alter released texture (destroy_slots slots ts)
    | None => destroy_slots slots ts
    end.
Proof. unfold destroy_slots. now rewrite fold_left_app. Qed.

Lemma skip_next {A : Type} (a : list (option A)) (k : nat) :
  a !! k = Some None ->
  replicate k None ++ drop k a = replicate (S k) None ++ drop (S k) a.
Proof.
  intros H. rewrite (drop_S _ _ _ H), replicate_S_end, <- app_assoc.
  reflexivity.
Qed.

Lemma cancel_radiance_loop w k :
  k <= length (_radianceMapComputeCommands (this w)) ->
  fold_left (fun w i => cancel_radiance_command i w) (seq 0 k) w
  = set_commands
      (cancel_slots (take k (_radianceMapComputeCommands (this w))) (commands w))
      w.
Proof.
  induction k as [|k IH]; intros Hk.
  - cbn [seq fold_left take cancel_slots]. destruct_world w. reflexivity.
  - rewrite seq_S, fold_left_app, IH by lia. cbn [plus fold_left].
    destruct (lookup_lt_is_Some_2 _ k Hk) as [x Hx].
    rewrite (take_S_r _ _ _ Hx), cancel_slots_snoc.
    unfold cancel_radiance_command, cancel.
    cbn [this commands set_commands]. unfold array_get. rewrite Hx.
    cbn [mjoin option_join]. destruct x; destruct_world w; reflexivity.
Qed.

Lemma cancel_convolution_loop w k :
  k <= length (_convolutionComputeCommands (this w)) ->
  fold_left (fun w i => cancel_convolution_command i w) (seq 0 k) w
  = set_commands
      (cancel_slots (take k (_convolutionComputeCommands (this w))) (commands w))
      w.
Proof.
  induction k as [|k IH]; intros Hk.
  - cbn [seq fold_left take cancel_slots]. destruct_world w. reflexivity.
  - rewrite seq_S, fold_left_app, IH by lia. cbn [plus fold_left].
    destruct (lookup_lt_is_Some_2 _ k Hk) as [x Hx].
    rewrite (take_S_r _ _ _ Hx), cancel_slots_snoc.
    unfold cancel_convolution_command, cancel.
    cbn [this commands set_commands]. unfold array_get. rewrite Hx.
    cbn [mjoin option_join]. destruct x; destruct_world w; reflexivity.
Qed.

Lemma destroy_radiance_loop w k :
  k <= length (_radianceMapTextures (this w)) ->
  fold_left destroy_radiance_texture (seq 0 k) w
  = set_textures
      (destroy_slots (take k (_radianceMapTextures (this w))) (textures w))
      (on_this (set_radianceMapTextures
                  (replicate k None ++ drop k (_radianceMapTextures (this w))))
               w).
Proof.
  induction k as [|k IH]; intros Hk.
  - cbn [seq fold_left take replicate app destroy_slots]. rewrite drop_0.
    destruct_world w. reflexivity.
  - rewrite seq_S, fold_left_app, IH by lia. cbn [plus fold_left].
    destruct (lookup_lt_is_Some_2 _ k Hk) as [x Hx].
    rewrite (take_S_r _ _ _ Hx), destroy_slots_snoc.
    unfold destroy_radiance_texture, destroy_Texture.
    cbn [this textures set_textures on_this set_this
         _radianceMapTextures set_radianceMapTextures].
    rewrite array_get_cleared.
    unfold array_get. rewrite Hx. cbn [mjoin option_join].
    destruct x as [t|].
    + clear IH Hx. destruct_world w;
        cbn [this textures set_textures on_this set_this
             _radianceMapTextures set_radianceMapTextures] in *.
      unfold on_this, set_textures, set_this, set_radianceMapTextures;
        cbn; rewrite clear_next by lia; reflexivity.
    + rewrite <- (skip_next _ _ Hx). reflexivity.
Qed.

Lemma destroy_specular_loop w k :
  k <= length (_specularMapTextures (this w)) ->
  fold_left destroy_specular_texture (seq 0 k) w
  = set_textures
      (destroy_slots (take k (_specularMapTextures (this w))) (textures w))
      (on_this (set_specularMapTextures
                  (replicate k None ++ drop k (_specularMapTextures (this w))))
               w).
Proof.
  induction k as [|k IH]; intros Hk.
  - cbn [seq fold_left take replicate app destroy_slots]. rewrite drop_0.
    destruct_world w. reflexivity.
  - rewrite seq_S, fold_left_app, IH by lia. cbn [plus fold_left].
    destruct (lookup_lt_is_Some_2 _ k Hk) as [x Hx].
    rewrite (take_S_r _ _ _ Hx), destroy_slots_snoc.
    unfold destroy_specular_texture, destroy_Texture.
    cbn [this textures set_textures on_this set_this
         _specularMapTextures set_specularMapTextures].
    rewrite array_get_cleared.
    unfold array_get. rewrite Hx. cbn [mjoin option_join].
    destruct x as [t|].
    + clear IH Hx. destruct_world w;
        cbn [this textures set_textures on_this set_this
             _specularMapTextures set_specularMapTextures] in *.
      unfold on_this, set_textures, set_this, set_specularMapTextures;
        cbn; rewrite clear_next by lia; reflexivity.
    + rewrite <- (skip_next _ _ Hx). reflexivity.
Qed.

Lemma destroy_closed w : destroy w = destroy_result w.
Proof.
  unfold destroy. cbv zeta.
  rewrite cancel_radiance_loop by lia. rewrite take_ge by lia.
  set (w1 := set_commands _ w).
  assert (E1 : _convolutionComputeCommands (this w1)
               = _convolutionComputeCommands (this w)) by reflexivity.
  rewrite cancel_convolution_loop by lia. rewrite take_ge by lia.
  rewrite E1. clear E1.
  set (w2 := set_commands _ w1).
  assert (E2 : _irradianceMapComputeCommand (this w2)
               = _irradianceMapComputeCommand (this w)) by reflexivity.
  rewrite E2. clear E2.
  set (w3 := match _irradianceMapComputeCommand (this w) with
             | Some command => cancel command w2
             | None => w2
             end).
  assert (E3 : _radianceMapTextures (this w3) = _radianceMapTextures (this w))
    by (subst w3; destruct (_irradianceMapComputeCommand (this w)); reflexivity).
  rewrite destroy_radiance_loop by lia.
  rewrite take_ge, drop_ge, app_nil_r by lia. rewrite E3. clear E3.
  set (w4 := set_textures _ _).
  assert (E4 : _specularMapTextures (this w4) = _specularMapTextures (this w))
    by (subst w4 w3; destruct (_irradianceMapComputeCommand (this w));
        reflexivity).
  rewrite destroy_specular_loop by lia.
  rewrite take_ge, drop_ge, app_nil_r by lia. rewrite E4. clear E4.
  subst w4 w3 w2 w1. unfold destroy_result. destruct_world w.
  cbn [this commands textures _radianceMapComputeCommands
       _convolutionComputeCommands _irradianceMapComputeCommand
       _radianceMapTextures _specularMapTextures _irradianceMapTexture].
  destruct m_irrmap; destruct m_itex; reflexivity.
Qed.

Lemma destroy_slots_lookup (slots : list (option nat)) ts (t : nat) :
  destroy_slots slots ts !! t
  = (if bool_decide (Some t ∈ slots) then released else id) <$> ts !! t.
Proof.
  induction slots as [|slot slots IH] using rev_ind.
  - cbn. now destruct (ts !! t).
  - rewrite destroy_slots_snoc.
    assert (Hin : Some t ∈ slots ++ [slot] <-> Some t ∈ slots \/ slot = Some t).
    { rewrite elem_of_app, list_elem_of_singleton. intuition congruence. }
    destruct slot as [t'|].
    + rewrite list_lookup_alter.
      destruct (decide (t' = t)) as [->|Hne]; rewrite IH.
      * rewrite (bool_decide_eq_true_2 (Some t ∈ slots ++ [Some t]))
          by (apply Hin; auto).
        destruct (ts !! t); [|reflexivity]. cbn.
        destruct (bool_decide _); reflexivity.
      * apply (f_equal (fun b : bool => (if b then released else id)
                                          <$> ts !! t)).
        apply bool_decide_ext. rewrite Hin. intuition congruence.
    + rewrite IH.
      apply (f_equal (fun b : bool => (if b then released else id)
                                        <$> ts !! t)).
      apply bool_decide_ext. rewrite Hin. intuition congruence.
Qed.

Lemma destroy_slots_length slots ts : length (destroy_slots slots ts) = length ts.
Proof.
  revert ts. induction slots as [|[r|] slots IH]; intros ts; cbn; auto.
  now rewrite IH, length_alter.
Qed.

(** X10.  In any world, [destroy] releases exactly the textures that the
    manager still refers to, those in a slot of the two texture arrays and
    the irradiance texture, and no other texture object (so not a texture
    whose reference an earlier cycle dropped); it empties the texture slots,
    the arrays keeping their lengths, and drops the cube map and the
    irradiance texture.  It cancels exactly the tasks in a slot of the two
    task arrays (and the one the property [_irradianceMapComputeCommand]
    referred to, were that property ever set), and leaves the task slots,
    the property [_irradianceComputeCommand] and the six flags as they
    were. *)
Theorem destroy_releases_and_cancels (w : World) :
  let m := this w in
  let m' := this (destroy w) in
  (_radianceMapTextures m' = replicate (length (_radianceMapTextures m)) None
   /\ _specularMapTextures m'
      = replicate (length (_specularMapTextures m)) None
   /\ _radianceCubeMap m' = None
   /\ _irradianceMapTexture m' = None)
  /\ (length (textures (destroy w)) = length (textures w)
      /\ forall t : nat,
           textures (destroy w) !! t
           = (if bool_decide (Some t ∈ _radianceMapTextures m
                              \/ Some t ∈ _specularMapTextures m
                              \/ _irradianceMapTexture m = Some t)
              then released else id) <$> textures w !! t)
  /\ (length (commands (destroy w)) = length (commands w)
      /\ forall r : nat,
           commands (destroy w) !! r
           = (if bool_decide (Some r ∈ _radianceMapComputeCommands m
                              \/ Some r ∈ _convolutionComputeCommands m
                              \/ _irradianceMapComputeCommand m = Some r)
              then ComputeCommand.cancel else id) <$> commands w !! r)
  /\ (_radianceMapComputeCommands m' = _radianceMapComputeCommands m
      /\ _convolutionComputeCommands m' = _convolutionComputeCommands m
      /\ _irradianceComputeCommand m' = _irradianceComputeCommand m
      /\ flags m' = flags m).
Proof.
  cbv zeta. rewrite destroy_closed. unfold destroy_result.
  cbn [this commands textures set_commands set_textures on_this set_this
       _radianceMapComputeCommands _convolutionComputeCommands
       _radianceMapTextures _specularMapTextures _radianceCubeMap
       _irradianceMapTexture _irradianceComputeCommand
       set_irradianceMapTexture set_radianceCubeMap set_specularMapTextures
       set_radianceMapTextures].
  split; [repeat split; reflexivity|]. split; [|split].
  - split.
    + destruct (_irradianceMapTexture (this w));
        rewrite ?length_alter, !destroy_slots_length; reflexivity.
    + intros t. unfold TextureRef in *. rewrite !bool_decide_or.
      destruct (_irradianceMapTexture (this w)) as [c|].
      * rewrite list_lookup_alter. case_decide as E.
        -- rewrite (bool_decide_eq_true_2 (Some c = Some t))
             by (f_equal; exact E).
           subst c. rewrite !destroy_slots_lookup, !orb_true_r.
           destruct (textures w !! t); [|reflexivity]. cbn.
           do 2 destruct (bool_decide _); reflexivity.
        -- rewrite (bool_decide_eq_false_2 (Some c = Some t))
             by (intros H; injection H as H; contradiction).
           rewrite !destroy_slots_lookup, !orb_false_r.
           destruct (textures w !! t); [|reflexivity]. cbn.
           do 2 destruct (bool_decide _); reflexivity.
      * rewrite (bool_decide_eq_false_2 (None = Some t)) by discriminate.
        rewrite !destroy_slots_lookup, !orb_false_r.
        destruct (textures w !! t); [|reflexivity]. cbn.
        do 2 destruct (bool_decide _); reflexivity.
  - split.
    + destruct (_irradianceMapComputeCommand (this w));
        rewrite ?length_alter, !cancel_slots_length; reflexivity.
    + intros r. unfold CommandRef in *. rewrite !bool_decide_or.
      destruct (_irradianceMapComputeCommand (this w)) as [c|].
      * rewrite list_lookup_alter. case_decide as E.
        -- rewrite (bool_decide_eq_true_2 (Some c = Some r))
             by (f_equal; exact E).
           subst c. rewrite !cancel_slots_lookup, !orb_true_r.
           destruct (commands w !! r); [|reflexivity]. cbn.
           do 2 destruct (bool_decide _); reflexivity.
        -- rewrite (bool_decide_eq_false_2 (Some c = Some r))
             by (intros H; injection H as H; contradiction).
           rewrite !cancel_slots_lookup, !orb_false_r.
           destruct (commands w !! r); [|reflexivity]. cbn.
           do 2 destruct (bool_decide _); reflexivity.
      * rewrite (bool_decide_eq_false_2 (None = Some r)) by discriminate.
        rewrite !cancel_slots_lookup, !orb_false_r.
        destruct (commands w !! r); [|reflexivity]. cbn.
        do 2 destruct (bool_decide _); reflexivity.
  - repeat split; reflexivity.
Qed.

(** ** The irradiance task and invalidation *)

Lemma typed_not_in_slots w r c :
  slots_typed w -> commands w !! r = Some c -> irradiance_callback c ->
  cancel_slots (_convolutionComputeCommands (this w))
    (cancel_slots (_radianceMapComputeCommands (this w)) (commands w)) !! r
  = Some c.
Proof.
  intros (Hi & Hr & Hcv & Hf) Hc Hirr. unfold CommandRef in *.
  rewrite !cancel_slots_lookup, Hc.
  rewrite bool_decide_eq_false_2.
  - rewrite bool_decide_eq_false_2; [reflexivity|].
    intros E1. destruct (Hr r E1) as (c1 & Hc1 & Hk).
    assert (c1 = c) as -> by congruence.
    unfold radiance_callback in Hk. rewrite Hirr in Hk. exact Hk.
  - intros E2. destruct (Hcv r E2) as (c1 & Hc1 & Hk).
    assert (c1 = c) as -> by congruence.
    unfold convolution_callback in Hk. rewrite Hirr in Hk. exact Hk.
Qed.

(** X11.  No irradiance task is ever canceled.  In every world the manager
    can be in, the property [_irradianceMapComputeCommand], which [_reset]
    and [destroy] test, is unset (the task is kept in
    [_irradianceComputeCommand]); every irradiance task there is, is not
    canceled; and neither [_reset] nor [destroy] touches it.  So the callback
    of an irradiance task, once the task is issued, is due to run, whatever
    invalidation or teardown comes first. *)
Theorem irradiance_task_is_never_canceled (w : World) (r : CommandRef) :
  reachable w ->
  ComputeCommand.postExecute <$> commands w !! r = Some IrradiancePostExecute ->
  _irradianceMapComputeCommand (this w) = None
  /\ ComputeCommand.canceled <$> commands w !! r = Some false
  /\ commands (_reset w) !! r = commands w !! r
  /\ commands (destroy w) !! r = commands w !! r.
Proof.
  intros Hr Hp. pose proof (reachable_typed w Hr) as Ht.
  destruct (commands w !! r) as [c|] eqn:Ec; [|discriminate].
  cbn in Hp. injection Hp as Hp.
  pose proof (typed_not_in_slots w r c Ht Ec Hp) as Hn.
  destruct Ht as (Hi & _ & _ & Hf).
  split; [exact Hi|]. split; [|split].
  - cbn. f_equal. exact (proj1 (Forall_lookup _ _) Hf r c Ec Hp).
  - rewrite reset_closed. unfold reset_result. cbn [commands set_commands].
    rewrite Hi. exact Hn.
  - rewrite destroy_closed. unfold destroy_result.
    cbn [commands set_commands set_textures]. rewrite Hi. exact Hn.
Qed.

Lemma irradiance_task_is_never_canceled_witness :
  let f := sample_frame 5000 in
  let w := final_world (update f (runFrame f (runFrame f (sample_world 2)))) in
  _irradianceMapComputeCommand (this w) = None
  /\ ComputeCommand.canceled <$> commands w !! 12 = Some false
  /\ commands (_reset w) !! 12 = commands w !! 12
  /\ commands (destroy w) !! 12 = commands w !! 12.
Proof.
  cbv zeta.
  apply (irradiance_task_is_never_canceled
           (final_world
              (update (sample_frame 5000)
                 (runFrame (sample_frame 5000)
                    (runFrame (sample_frame 5000) (sample_world 2)))))
           12).
  - apply reachable_update. do 2 apply runFrame_reachable.
    exact sample_world_reachable.
  - vm_compute. reflexivity.
Defined.

(** ** A whole cycle, for any number of levels *)

Lemma beside_callbacks_parts u w :
  beside_callbacks u = beside_callbacks w ->
  commands u = commands w /\ commandList u = commandList w
  /\ _radianceCommandsDirty (this u) = _radianceCommandsDirty (this w)
  /\ _radianceMapDirty (this u) = _radianceMapDirty (this w)
  /\ quiet u = quiet w.
Proof.
  unfold beside_callbacks. intros H.
  pose proof (f_equal snd H) as H5.
  pose proof (f_equal (fun t => snd (fst t)) H) as H4.
  pose proof (f_equal (fun t => snd (fst (fst t))) H) as H3.
  pose proof (f_equal (fun t => snd (fst (fst (fst t)))) H) as H2.
  pose proof (f_equal (fun t => fst (fst (fst (fst t)))) H) as H1.
  auto.
Qed.

Lemma runPostExecute_beside p w :
  beside_callbacks (runPostExecute p w) = beside_callbacks w.
Proof.
  destruct p as [index face|c index texture face level|]; cbn [runPostExecute].
  - cbv zeta. destruct (negb _); reflexivity.
  - cbv zeta. destruct (decide _); reflexivity.
  - reflexivity.
Qed.

Lemma execute_beside r w : beside_callbacks (execute r w) = beside_callbacks w.
Proof.
  unfold execute. destruct (commands w !! r) as [c|]; [|reflexivity].
  destruct (ComputeCommand.canceled c); [reflexivity|].
  apply runPostExecute_beside.
Qed.

Lemma executeEach_beside rs w :
  beside_callbacks (executeEach rs w) = beside_callbacks w.
Proof.
  unfold executeEach. apply fold_left_preserves.
  intros a b. apply execute_beside.
Qed.

Lemma executeEach_consistent rs w :
  consistent w -> consistent (executeEach rs w).
Proof.
  revert w. induction rs as [|r rs IH]; intros w H; [exact H|].
  apply IH. now apply execute_consistent.
Qed.

Lemma executeAll_each w :
  executeAll w = executeEach (commandList w) (set_commandList [] w).
Proof. reflexivity. Qed.

(** A property of the world that the callbacks of the tasks [rs] keep, keeps
    through their completion. *)
Lemma executeEach_preserved {X : Type} (g : World -> X) rs w :
  (forall u r, r ∈ rs -> commands u = commands w ->
               g (execute r u) = g u) ->
  g (executeEach rs w) = g w.
Proof.
  induction rs as [|r rs IH] using rev_ind; intros H; [reflexivity|].
  rewrite executeEach_snoc. rewrite H.
  - apply IH. intros u r' Hr'. apply H. apply elem_of_app. now left.
  - apply elem_of_app. right. now apply list_elem_of_singleton.
  - apply (beside_callbacks_parts _ _ (executeEach_beside rs w)).
Qed.

Lemma executeEach_radiance first done u :
  Forall (fun i => i < length (_radianceMapComputeCommands (this u))) done ->
  (forall i, i ∈ done ->
     exists c, commands u !! (first + i) = Some c
               /\ ComputeCommand.postExecute c = RadiancePostExecute i (face_at i)
               /\ ComputeCommand.canceled c = false) ->
  executeEach (map (fun i => first + i) done) u = radiance_completions done u.
Proof.
  induction done as [|i done IH] using rev_ind; intros Hall H; [reflexivity|].
  apply Forall_app in Hall as [Hall Hi].
  rewrite map_app. cbn [map]. rewrite executeEach_snoc, radiance_completions_snoc.
  rewrite IH; [|exact Hall|intros j Hj; apply H, elem_of_app; now left].
  destruct (radiance_completions_state u done Hall) as (_ & _ & Ec).
  cbv zeta in Ec. unfold execute. cbv beta. rewrite Ec.
  destruct (H i) as (c & Hc & Hp & Hcan).
  { apply elem_of_app. right. now apply list_elem_of_singleton. }
  unfold CommandRef in *. rewrite Hc, Hcan, Hp. reflexivity.
Qed.

Lemma all_cleared {A : Type} (a : list (option A)) :
  some_defined (cleared (seq 0 (length a)) a) = false.
Proof.
  apply some_defined_false. intros i Hi. rewrite cleared_length in Hi.
  rewrite cleared_lookup by exact Hi.
  rewrite bool_decide_eq_true_2; [reflexivity|]. apply elem_of_seq. lia.
Qed.

Lemma radiance_completions_later_flags done w :
  let u := radiance_completions done w in
  _irradianceCommandDirty (this u) = _irradianceCommandDirty (this w)
  /\ _irradianceTextureDirty (this u) = _irradianceTextureDirty (this w)
  /\ _sphericalHarmonicCoefficientsDirty (this u)
     = _sphericalHarmonicCoefficientsDirty (this w).
Proof.
  cbv zeta. unfold radiance_completions.
  assert (H : (fun w => (_irradianceCommandDirty (this w),
                         _irradianceTextureDirty (this w),
                         _sphericalHarmonicCoefficientsDirty (this w)))
                (fold_left
                   (fun w index =>
                      runPostExecute (RadiancePostExecute index (face_at index)) w)
                   done w)
              = (_irradianceCommandDirty (this w),
                 _irradianceTextureDirty (this w),
                 _sphericalHarmonicCoefficientsDirty (this w))).
  { apply (fold_left_preserves
             (fun w => (_irradianceCommandDirty (this w),
                        _irradianceTextureDirty (this w),
                        _sphericalHarmonicCoefficientsDirty (this w)))).
    intros a b. cbn [runPostExecute]. cbv zeta. destruct (negb _); reflexivity. }
  injection H as H1 H2 H3. split; [exact H1|]. split; [exact H2|exact H3].
Qed.

Lemma radiance_frame fs w :
  consistent w -> commandList w = [] ->
  flags (this w) = [true; true; false; false; false; false] ->
  let s := update_stages fs w in
  let w' := executeAll (final_world s) in
  returned s = Some (ReturnBool false)
  /\ length (commandList (final_world s)) = 6
  /\ (consistent w' /\ commandList w' = [])
  /\ flags (this w') = [false; false; true; false; false; false]
  /\ quiet w' = quiet w
  /\ length (commands w') = length (commands w) + 6.
Proof.
  intros Hc Hl Hf. unfold flags in Hf. injection Hf as F1 F2 F3 F4 F5 F6.
  cbv zeta. unfold update_stages. rewrite F2. cbv zeta.
  cbn [final_world returned].
  pose proof (radiance_stage_consistent fs w Hc F2) as Hc'.
  destruct (radiance_stage_beside fs w Hc F2)
    as (_ & _ & (G3 & G4 & G5 & G6) & _ & Hq).
  destruct (radiance_stage_closed fs w Hc F2)
    as (R1 & R2 & R3 & R4 & _ & _ & _ & R8 & R9).
  cbv zeta in *. revert Hc' G3 G4 G5 G6 Hq R1 R2 R3 R4 R8 R9.
  generalize (on_this (set_radianceMapDirty false) (updateRadianceMap fs w))
    as wS.
  intros wS Hc' G3 G4 G5 G6 Hq R1 R2 R3 R4 R8 R9.
  rewrite Hl in R1. cbn [app] in R1.
  split; [reflexivity|]. split; [now rewrite R1, length_seq|].
  rewrite executeAll_each, R1, <- map_add_seq.
  set (u0 := set_commandList [] wS).
  assert (Hu : this u0 = this wS /\ commands u0 = commands wS
               /\ commandList u0 = [] /\ quiet u0 = quiet wS) by auto.
  assert (Hcu : consistent u0)
    by (eapply consistent_core; [|exact Hc']; reflexivity).
  clearbody u0. destruct Hu as (U1 & U2 & U3 & U4).
  assert (Hlen : length (_radianceMapComputeCommands (this u0)) = 6).
  { rewrite U1, R2, length_map, length_seq. reflexivity. }
  assert (Hall : Forall (fun i => i < length (_radianceMapComputeCommands
                                                (this u0))) (seq 0 6)).
  { rewrite Hlen. apply Forall_forall. intros i Hi. apply elem_of_seq in Hi.
    lia. }
  pose proof (executeEach_consistent (map (fun i => length (commands w) + i)
                                          (seq 0 6)) u0 Hcu) as Hcons.
  pose proof (executeEach_beside (map (fun i => length (commands w) + i)
                                      (seq 0 6)) u0) as Hb.
  rewrite executeEach_radiance in Hcons, Hb |- *; try exact Hall;
    try (intros i Hi; apply elem_of_seq in Hi;
         destruct (R4 i ltac:(lia)) as (c & E1 & E2 & _ & _ & E3 & _);
         exists c; rewrite U2; auto).
  destruct (radiance_completions_state u0 (seq 0 6) Hall) as (S1 & S2 & S3).
  destruct (radiance_completions_later_flags (seq 0 6) u0) as (L1 & L2 & L3).
  cbv zeta in *. revert Hcons Hb S1 S2 S3 L1 L2 L3.
  generalize (radiance_completions (seq 0 6) u0) as w'.
  intros w' Hcons Hb S1 S2 S3 L1 L2 L3.
  apply beside_callbacks_parts in Hb as (B1 & B2 & B3 & B4 & B5).
  rewrite S1 in S2.
  rewrite bool_decide_eq_false_2 in S2 by discriminate.
  replace (seq 0 6)
    with (seq 0 (length (_radianceMapComputeCommands (this u0)))) in S2
    by (now rewrite Hlen).
  rewrite all_cleared in S2.
  cbn [negb andb] in S2. rewrite orb_true_r in S2.
  split; [split; [exact Hcons|congruence]|].
  split; [|split; [rewrite B5, U4; exact Hq|]].
  - unfold flags. rewrite B3, B4, S2, L1, L2, L3, U1, R8, R9, G4, G5, G6.
    rewrite F4, F5, F6. reflexivity.
  - rewrite B1, U2, R3. reflexivity.
Qed.

Lemma convolution_frame fs w :
  consistent w -> commandList w = [] ->
  flags (this w) = [false; false; true; false; false; false] ->
  1 <= chain_length (this w) ->
  let s := update_stages fs w in
  let w' := executeAll (final_world s) in
  returned s = Some (ReturnBool false)
  /\ length (commandList (final_world s)) = chain_length (this w)
  /\ (consistent w' /\ commandList w' = [])
  /\ flags (this w') = [false; false; false; true; false; false]
  /\ quiet w' = quiet w
  /\ length (commands w') = length (commands w) + chain_length (this w).
Proof.
  intros Hc Hl Hf Hn. unfold flags in Hf. injection Hf as F1 F2 F3 F4 F5 F6.
  cbv zeta. unfold update_stages. rewrite F2, F3.
  destruct (convolution_stage_consistent fs w Hc F3) as (w1 & E & Hc').
  pose proof (updateSpecularMaps_quiet fs w) as Hq.
  destruct Hc as (H1 & (Ha & Hb & Hcl & Hd) & Hfr & Hcube).
  destruct (_radianceCubeMap (this w)) as [cm|] eqn:Ecm;
    [|specialize (Hcube ltac:(auto)); discriminate].
  destruct (updateSpecularMaps_closed fs w cm Ecm Hcl Hd) as (w1' & E' & C & B).
  rewrite E in E', Hq |- *. injection E' as <-.
  cbn [final_world returned] in Hq |- *. clear E.
  unfold chain in C. injection C as C1 C2 C3 C4 C5.
  unfold beside_chain, flags in B.
  injection B as B1 B2 B3 B4 B5 B6 B7 B8 B9 B10 B11 B12 B13.
  set (total := chain_length (this w)) in *.
  set (wS := on_this (set_convolutionsCommandsDirty false) w1) in *.
  assert (HS : commandList wS = commandList w1 /\ commands wS = commands w1
               /\ counters wS = counters w1
               /\ _specularMapTextures (this wS) = _specularMapTextures (this w1)
               /\ _radianceCubeMap (this wS) = _radianceCubeMap (this w1)
               /\ flags (this wS)
                  = [_radianceCommandsDirty (this w1);
                     _radianceMapDirty (this w1); false;
                     _irradianceCommandDirty (this w1);
                     _irradianceTextureDirty (this w1);
                     _sphericalHarmonicCoefficientsDirty (this w1)]
               /\ quiet wS = quiet w1) by (repeat split; reflexivity).
  clearbody wS. destruct HS as (S1 & S2 & S3 & S4 & S5 & S6 & S7).
  rewrite Hl in C3. cbn [app] in C3.
  split; [reflexivity|].
  split; [now rewrite S1, C3, length_map, length_seq|].
  rewrite executeAll_each, S1, C3.
  set (u0 := set_commandList [] wS).
  assert (Hu : this u0 = this wS /\ commands u0 = commands wS
               /\ counters u0 = counters wS
               /\ commandList u0 = [] /\ quiet u0 = quiet wS) by auto.
  assert (Hcu : consistent u0)
    by (eapply consistent_core; [|exact Hc']; reflexivity).
  clearbody u0. destruct Hu as (U1 & U2 & U3 & U4 & U5).
  set (rs := map (fun i => length (commands w) + i) (seq 0 total)).
  assert (Hrs : Forall (fun r => length (commands w) <= r
                                 < length (commands w) + total) rs).
  { subst rs. apply Forall_forall. intros r Hr.
    apply list_elem_of_fmap in Hr as (i & -> & Hi). apply elem_of_seq in Hi.
    lia. }
  assert (H0 : batch_state (length (counters w)) total
                 (commands w
                    ++ map (convolution_command (length (counters w))
                              (_mipmapLevels (this w)) (length (textures w)))
                           (seq 0 total))
                 false (CubeMap.sampler (CubeMap.generateMipmap cm)) 0 u0).
  { unfold batch_state. rewrite U2, S2, C1, U3, S3, B1, U1, S4, C5, S5, B3.
    rewrite length_map, length_seq.
    rewrite lookup_app_r, Nat.sub_diag by lia.
    replace ((1 <=? total) && (total <=? 0)) with false
      by (destruct total as [|[|?]]; reflexivity).
    unfold flags in S6. injection S6 as _ _ _ S6 _ _.
    rewrite S6, B7, F4. repeat split; reflexivity. }
  pose proof (batch_completions _ _ _ _ _ _ _ rs u0 H0 Hrs)
    as (K1 & _ & _ & K4 & _).
  assert (Hlen : length rs = total)
    by (subst rs; now rewrite length_map, length_seq).
  rewrite Hlen in K4.
  replace ((1 <=? total) && (total <=? total)) with true in K4
    by (symmetry; apply andb_true_iff; split; apply Nat.leb_le; lia).
  cbn [orb] in K4.
  pose proof (executeEach_consistent rs u0 Hcu) as Hcons.
  destruct (beside_callbacks_parts _ _ (executeEach_beside rs u0))
    as (E1 & E2 & E3 & E4 & E5).
  assert (Hg : (fun u => (_convolutionsCommandsDirty (this u),
                          _irradianceTextureDirty (this u),
                          _sphericalHarmonicCoefficientsDirty (this u)))
                 (executeEach rs u0)
               = (_convolutionsCommandsDirty (this u0),
                  _irradianceTextureDirty (this u0),
                  _sphericalHarmonicCoefficientsDirty (this u0))).
  { apply (executeEach_preserved
             (fun u => (_convolutionsCommandsDirty (this u),
                        _irradianceTextureDirty (this u),
                        _sphericalHarmonicCoefficientsDirty (this u)))).
    intros u r Hr Hu. subst rs.
    apply list_elem_of_fmap in Hr as (i & -> & Hi). apply elem_of_seq in Hi.
    unfold execute. rewrite Hu, U2, S2, C1.
    rewrite lookup_app_r by lia.
    replace (length (commands w) + i - length (commands w)) with i by lia.
    rewrite lookup_map_seq by lia.
    cbn [ComputeCommand.canceled ComputeCommand.postExecute
         convolution_command runPostExecute].
    cbv zeta. destruct (decide _); reflexivity. }
  injection Hg as G1 G2 G3.
  revert Hcons K1 K4 E1 E2 E3 E4 E5 G1 G2 G3.
  generalize (executeEach rs u0) as w'.
  intros w' Hcons K1 K4 E1 E2 E3 E4 E5 G1 G2 G3.
  unfold flags in S6. injection S6 as T1 T2 T3 T4 T5 T6.
  split; [split; [exact Hcons|congruence]|].
  split; [|split].
  - unfold flags. rewrite E3, E4, G1, K4, G2, G3, U1.
    rewrite T1, T2, T3, T5, T6, B4, B5, B8, B9, F1, F2, F5, F6. reflexivity.
  - rewrite E5, U5, S7. exact Hq.
  - rewrite K1, length_app, length_map, length_seq. reflexivity.
Qed.

Lemma irradiance_stage_issues fs w :
  let wS := on_this (set_irradianceCommandDirty false)
              (updateIrradianceResources fs w) in
  exists texture,
    commands wS
    = commands w
        ++ [{| ComputeCommand.outputTexture := texture;
               ComputeCommand.uniformMap := IrradianceUniforms;
               ComputeCommand.persists := false;
               ComputeCommand.canceled := false;
               ComputeCommand.postExecute := IrradiancePostExecute |}]
    /\ commandList wS = commandList w ++ [length (commands w)]
    /\ flags (this wS)
       = [_radianceCommandsDirty (this w); _radianceMapDirty (this w);
          _convolutionsCommandsDirty (this w); false; true;
          _sphericalHarmonicCoefficientsDirty (this w)]
    /\ _irradianceComputeCommand (this wS) = Some (length (commands w))
    /\ _irradianceMapTexture (this wS) = Some texture
    /\ texture = default (length (textures w)) (_irradianceMapTexture (this w))
    /\ textures wS
       = textures w
           ++ match _irradianceMapTexture (this w) with
              | Some _ => []
              | None => [Texture.Build 3 3 FLOAT false]
              end.
Proof.
  cbv zeta. unfold updateIrradianceResources.
  change (_irradianceMapTexture (this (log IrradianceStage w)))
    with (_irradianceMapTexture (this w)).
  exists (default (length (textures w)) (_irradianceMapTexture (this w))).
  destruct (_irradianceMapTexture (this w)) as [t|] eqn:E; cbv zeta beta iota;
    unfold new_Texture, new_ComputeCommand, push; cbv zeta beta iota;
    (destruct (defined (_irradianceMapFS _)); simpl; rewrite ?E, ?app_nil_r;
     repeat split; reflexivity).
Qed.

Lemma irradiance_frame fs w :
  consistent w -> commandList w = [] ->
  flags (this w) = [false; false; false; true; false; false] ->
  let s := update_stages fs w in
  let w' := executeAll (final_world s) in
  returned s = Some (ReturnBool false)
  /\ length (commandList (final_world s)) = 1
  /\ (consistent w' /\ commandList w' = [])
  /\ flags (this w') = [false; false; false; false; false; true]
  /\ quiet w' = quiet w
  /\ length (commands w') = length (commands w) + 1.
Proof.
  intros Hc Hl Hf. unfold flags in Hf. injection Hf as F1 F2 F3 F4 F5 F6.
  cbv zeta. unfold update_stages. rewrite F2, F3, F4. cbv zeta.
  pose proof (irradiance_stage_consistent fs w Hc F4) as Hc'.
  pose proof (updateIrradianceResources_quiet fs w) as Hq.
  destruct (irradiance_stage_issues fs w) as (t & I1 & I2 & I3 & _).
  cbv zeta in I1, I2, I3.
  assert (Hq' : quiet (on_this (set_irradianceCommandDirty false)
                         (updateIrradianceResources fs w)) = quiet w)
    by (rewrite quiet_on_this by reflexivity; exact Hq).
  clear Hq. revert Hc' Hq' I1 I2 I3.
  generalize (on_this (set_irradianceCommandDirty false)
                (updateIrradianceResources fs w)) as wS.
  intros wS Hc' Hq I1 I2 I3.
  unfold flags in I3. injection I3 as T1 T2 T3 T4 T5 T6.
  rewrite T5. cbn [final_world returned].
  rewrite Hl in I2. cbn [app] in I2.
  split; [reflexivity|]. split; [now rewrite I2|].
  rewrite executeAll_each, I2. cbn [executeEach fold_left].
  unfold executeEach. cbn [fold_left].
  set (u0 := set_commandList [] wS).
  assert (Hu : this u0 = this wS /\ commands u0 = commands wS
               /\ commandList u0 = [] /\ quiet u0 = quiet wS) by auto.
  assert (Hcu : consistent u0)
    by (eapply consistent_core; [|exact Hc']; reflexivity).
  clearbody u0. destruct Hu as (U1 & U2 & U3 & U4).
  pose proof (execute_consistent (length (commands w)) u0 Hcu) as Hcons.
  revert Hcons. unfold execute. unfold CommandRef in *. rewrite U2, I1.
  rewrite list_lookup_middle by reflexivity.
  cbn [ComputeCommand.canceled ComputeCommand.postExecute runPostExecute].
  cbv zeta. intros Hcons.
  split; [split; [exact Hcons|exact U3]|].
  split; [|split].
  - unfold flags. simpl. rewrite U1, T1, T2, T3, T4, F1, F2, F3. reflexivity.
  - rewrite !quiet_on_this by reflexivity. now rewrite U4.
  - simpl. rewrite U2, I1, length_app. reflexivity.
Qed.

Lemma coefficient_frame fs w :
  consistent w -> commandList w = [] ->
  flags (this w) = [false; false; false; false; false; true] ->
  let s := update_stages fs w in
  let w' := executeAll (final_world s) in
  returned s = Some (ReturnBool true)
  /\ length (commandList (final_world s)) = 0
  /\ (consistent w' /\ commandList w' = [])
  /\ flags (this w') = [false; false; false; false; false; false]
  /\ settings (this w') = settings (this w)
  /\ _sphericalHarmonicCoefficients (this w')
     = unpack_all (context_readPixels fs) (_sphericalHarmonicCoefficients (this w))
  /\ commands w' = commands w.
Proof.
  intros Hc Hl Hf. unfold flags in Hf. injection Hf as F1 F2 F3 F4 F5 F6.
  cbv zeta. unfold update_stages. rewrite F2, F3, F4. cbv zeta.
  rewrite F5, F6. cbn [final_world returned].
  pose proof (updateSphericalHarmonicCoefficients_array fs w) as Ha.
  pose proof (updateSphericalHarmonicCoefficients_settings fs w) as Hs.
  assert (Hk : (fun w => (flags (this w), commandList w, commands w))
                 (updateSphericalHarmonicCoefficients fs w)
               = (flags (this w), commandList w, commands w)).
  { unfold updateSphericalHarmonicCoefficients.
    rewrite (fold_left_preserves
               (fun w => (flags (this w), commandList w, commands w)));
      reflexivity. }
  pose proof (f_equal (fun t => fst (fst t)) Hk) as K1.
  pose proof (f_equal (fun t => snd (fst t)) Hk) as K2.
  pose proof (f_equal snd Hk) as K3. cbv beta in K1, K2, K3.
  cbn [fst snd] in K1, K2, K3. clear Hk.
  assert (Hc' : consistent (updateSphericalHarmonicCoefficients fs w))
    by (eapply consistent_core; [apply coefficient_stage_core|exact Hc]).
  revert Ha Hs K1 K2 K3 Hc'.
  generalize (updateSphericalHarmonicCoefficients fs w) as w1.
  intros w1 Ha Hs K1 K2 K3 Hc'.
  unfold flags in K1. injection K1 as T1 T2 T3 T4 T5 T6.
  cbn [commandList on_this set_this].
  split; [reflexivity|]. split; [now rewrite K2, Hl|].
  rewrite executeAll_each. cbn [commandList on_this set_this]. rewrite K2, Hl.
  unfold executeEach. cbn [fold_left].
  split; [split; [|reflexivity]|].
  { eapply consistent_core; [|exact Hc']. reflexivity. }
  split; [|split; [|split]].
  - unfold flags. simpl. rewrite T1, T2, T3, T4, T5, F1, F2, F3, F4, F5.
    reflexivity.
  - simpl. exact Hs.
  - simpl. exact Ha.
  - simpl. exact K3.
Qed.

Lemma constructor_accepts (N : Z) :
  (1 <= N)%Z -> DynamicEnvironmentMapManager (Some N) = Some (constructed N).
Proof.
  intros H. unfold DynamicEnvironmentMapManager. cbv zeta.
  change (default 10%Z (Some N)) with N.
  destruct (Z.ltb_spec ((N - 1) * 6) 0); [lia|reflexivity].
Qed.

Lemma reset_between w :
  let w' := _reset w in
  commandList w' = commandList w
  /\ flags (this w')
     = [true; true; _convolutionsCommandsDirty (this w);
        _irradianceCommandDirty (this w); _irradianceTextureDirty (this w);
        _sphericalHarmonicCoefficientsDirty (this w)]
  /\ length (commands w') = length (commands w)
  /\ quiet w' = quiet w.
Proof.
  cbv zeta. pose proof (reset_outside w) as H. pose proof (reset_quiet w) as Hq.
  destruct (reset_core w) as (E1 & E2 & _). cbv zeta in E1, E2.
  assert (Hl : length (commands (_reset w)) = length (commands w)).
  { rewrite reset_closed. unfold reset_result. cbn [commands set_commands].
    destruct (_irradianceMapComputeCommand (this w));
      rewrite ?length_alter, !cancel_slots_length; reflexivity. }
  revert H Hq E1 E2 Hl. generalize (_reset w) as w'. intros w' H Hq E1 E2 Hl.
  unfold outside_reset in H. cbv zeta in H. unfold flags.
  rewrite E1, E2. repeat split; try assumption; congruence.
Qed.

Lemma fresh_world (N : Z) (p : Cartesian3.t) (f : FrameState) :
  (1 <= N)%Z ->
  let w0 := update_staleness f (position_set (Some p) (new_World (constructed N))) in
  (consistent w0 /\ commandList w0 = [])
  /\ flags (this w0) = [true; true; false; false; false; false]
  /\ length (commands w0) = 0
  /\ (enabled (this w0) = true /\ _position (this w0) = Some p
      /\ _mipmapLevels (this w0) = N)
  /\ _sphericalHarmonicCoefficients (this w0) = replicate 9 None.
Proof.
  intros HN. cbv zeta.
  assert (Hr : reachable (position_set (Some p) (new_World (constructed N)))).
  { apply reachable_position, (reachable_new (Some N)).
    now apply constructor_accepts. }
  pose proof (update_staleness_consistent f _ (reachable_consistent _ Hr)) as Hc.
  clear Hr. revert Hc. unfold position_set.
  change (Cartesian3.equalsEpsilon (Some p)
            (_position (this (new_World (constructed N)))) CesiumMath.EPSILON8)
    with false. cbv iota.
  set (v := on_this (set_position (Some p)) (new_World (constructed N))).
  destruct (reset_between v) as (A1 & A2 & A3 & A4). cbv zeta in *.
  change (commandList v) with (@nil CommandRef) in A1.
  change (length (commands v)) with 0 in A3.
  cbn [v on_this set_this this new_World constructed set_position
       _convolutionsCommandsDirty _irradianceCommandDirty
       _irradianceTextureDirty _sphericalHarmonicCoefficientsDirty] in A2.
  assert (A5 : quiet v = ((Some p, N, JulianDate.new,
                           Cartesian2.Build (Qpower 2 (N - 1)) (Qpower 2 (N - 1)),
                           true, 60 * 20)%Q, replicate 9 None))
    by reflexivity.
  rewrite A5 in A4. clear A5. clearbody v.
  revert A1 A2 A3 A4. generalize (_reset v) as w. clear v.
  intros w A1 A2 A3 A4. unfold update_staleness.
  destruct (negb _).
  - cbv zeta. intros Hc.
    destruct (reset_between w) as (B1 & B2 & B3 & B4). cbv zeta in *.
    unfold flags in A2. injection A2 as F1 F2 F3 F4 F5 F6.
    rewrite F3, F4, F5, F6 in B2. rewrite A1 in B1. rewrite A3 in B3.
    rewrite A4 in B4. revert Hc B1 B2 B3 B4. generalize (_reset w) as w'.
    intros w' Hc B1 B2 B3 B4. unfold quiet, settings in B4.
    injection B4 as Q1 Q2 Q3 Q4 Q5 Q6 Q7.
    split; [split; [exact Hc|exact B1]|].
    split; [exact B2|]. split; [exact B3|]. simpl. auto.
  - intros Hc. unfold quiet, settings in A4.
    injection A4 as Q1 Q2 Q3 Q4 Q5 Q6 Q7. auto 10.
Qed.

Lemma first_update_active (N : Z) (p : Cartesian3.t) (f : FrameState) :
  let w0 := position_set (Some p) (new_World (constructed N)) in
  update f w0 = update_stages f (update_staleness f w0).
Proof.
  cbv zeta. apply update_active.
  - unfold position_set.
    change (Cartesian3.equalsEpsilon (Some p)
              (_position (this (new_World (constructed N)))) CesiumMath.EPSILON8)
      with false. cbv iota.
    pose proof (reset_quiet (on_this (set_position (Some p))
                               (new_World (constructed N)))) as H.
    revert H. generalize (_reset (on_this (set_position (Some p))
                                    (new_World (constructed N)))) as w.
    intros w H. unfold quiet, settings in H.
    injection H as Q1 Q2 Q3 Q4 Q5 Q6 Q7. exact Q5.
  - unfold position_set.
    change (Cartesian3.equalsEpsilon (Some p)
              (_position (this (new_World (constructed N)))) CesiumMath.EPSILON8)
      with false. cbv iota.
    pose proof (reset_quiet (on_this (set_position (Some p))
                               (new_World (constructed N)))) as H.
    revert H. generalize (_reset (on_this (set_position (Some p))
                                    (new_World (constructed N)))) as w.
    intros w H. unfold quiet, settings in H.
    injection H as Q1 Q2 Q3 Q4 Q5 Q6 Q7. now rewrite Q1.
Qed.

Lemma quiet_parts w' w :
  quiet w' = quiet w ->
  (enabled (this w') = enabled (this w)
   /\ _position (this w') = _position (this w)
   /\ _mipmapLevels (this w') = _mipmapLevels (this w))
  /\ (_lastTime (this w') = _lastTime (this w)
      /\ maximumSecondsDifference (this w') = maximumSecondsDifference (this w))
  /\ _sphericalHarmonicCoefficients (this w')
     = _sphericalHarmonicCoefficients (this w).
Proof.
  unfold quiet, settings. intros H. injection H as Q1 Q2 Q3 Q4 Q5 Q6 Q7. auto 10.
Qed.

Lemma settings_parts m' m :
  settings m' = settings m ->
  enabled m' = enabled m /\ _position m' = _position m
  /\ _mipmapLevels m' = _mipmapLevels m.
Proof. unfold settings. intros H. injection H as Q1 Q2 Q3 Q4 Q5 Q6. auto. Qed.

(** X12.  The whole pipeline, for any number of levels from 2 on.  A new
    manager of N levels is given a position and taken through four frames,
    each an [update] followed by the engine running the tasks of the frame,
    none of the later three further than the threshold from the time the
    first recorded.  The four calls issue 6, 6 (N - 1), 1 and 0 tasks, which
    are all the command objects there are at the end, 6 N + 1 of them; they
    return [false], [false], [false] and [true]; at the end all six flags
    are clear and the coefficient array holds what the nine reads of the
    fourth frame's readback give. *)
Theorem full_run_of_any_levels (N : Z) (p : Cartesian3.t)
  (f1 f2 f3 f4 : FrameState) :
  (2 <= N)%Z ->
  let w0 := position_set (Some p) (new_World (constructed N)) in
  let w1 := runFrame f1 w0 in
  let w2 := runFrame f2 w1 in
  let w3 := runFrame f3 w2 in
  let w4 := runFrame f4 w3 in
  let fresh f :=
    JulianDate.equalsEpsilon (time f) (_lastTime (this w1))
                             (maximumSecondsDifference (this w1)) in
  fresh f2 = true -> fresh f3 = true -> fresh f4 = true ->
  [issued f1 w0; issued f2 w1; issued f3 w2; issued f4 w3]
  = [6; Z.to_nat ((N - 1) * 6); 1; 0]
  /\ length (commands w4) = Z.to_nat (6 * N + 1)
  /\ [returned (update f1 w0); returned (update f2 w1);
      returned (update f3 w2); returned (update f4 w3)]
     = [Some (ReturnBool false); Some (ReturnBool false);
        Some (ReturnBool false); Some (ReturnBool true)]
  /\ flags (this w4) = [false; false; false; false; false; false]
  /\ _sphericalHarmonicCoefficients (this w4)
     = unpack_all (context_readPixels f4) (replicate 9 None).
Proof.
  intros HN. cbv zeta. unfold runFrame, issued.
  rewrite (first_update_active N p f1).
  destruct (fresh_world N p f1 ltac:(lia))
    as ((A1 & A2) & A3 & A4 & (A5 & A6 & A7) & A8). cbv zeta in *.
  revert A1 A2 A3 A4 A5 A6 A7 A8.
  generalize (update_staleness f1
                (position_set (Some p) (new_World (constructed N)))) as v0.
  intros v0 A1 A2 A3 A4 A5 A6 A7 A8.
  destruct (radiance_frame f1 v0 A1 A2 A3)
    as (R1 & R2 & (R3 & R4) & R5 & R6 & R7). cbv zeta in *.
  revert R3 R4 R5 R6 R7.
  generalize (executeAll (final_world (update_stages f1 v0))) as w1.
  intros w1 R3 R4 R5 R6 R7 H2 H3 H4.
  destruct (quiet_parts _ _ R6) as ((E1 & E2 & E3) & _ & E4).
  rewrite (runFrame_not_stale f2 w1) by (rewrite ?E1, ?E2, ?A6; auto).
  assert (Hchain : chain_length (this w1) = Z.to_nat ((N - 1) * 6))
    by (unfold chain_length; rewrite E3, A7; reflexivity).
  destruct (convolution_frame f2 w1 R3 R4 R5 ltac:(rewrite Hchain; lia))
    as (C1 & C2 & (C3 & C4) & C5 & C6 & C7). cbv zeta in *.
  revert C3 C4 C5 C6 C7.
  generalize (executeAll (final_world (update_stages f2 w1))) as w2.
  intros w2 C3 C4 C5 C6 C7.
  destruct (quiet_parts _ _ C6) as ((G1 & G2 & G3) & (G4 & G5) & G6).
  rewrite (runFrame_not_stale f3 w2)
    by (rewrite ?G1, ?G2, ?G4, ?G5, ?E1, ?E2, ?A6; auto).
  destruct (irradiance_frame f3 w2 C3 C4 C5)
    as (I1 & I2 & (I3 & I4) & I5 & I6 & I7). cbv zeta in *.
  revert I3 I4 I5 I6 I7.
  generalize (executeAll (final_world (update_stages f3 w2))) as w3.
  intros w3 I3 I4 I5 I6 I7.
  destruct (quiet_parts _ _ I6) as ((J1 & J2 & J3) & (J4 & J5) & J6).
  rewrite (runFrame_not_stale f4 w3)
    by (rewrite ?J1, ?J2, ?J4, ?J5, ?G1, ?G2, ?G4, ?G5, ?E1, ?E2, ?A6; auto).
  destruct (coefficient_frame f4 w3 I3 I4 I5)
    as (K1 & K2 & (K3 & K4) & K5 & K6 & K7 & K8). cbv zeta in *.
  revert K3 K4 K5 K6 K7 K8.
  generalize (executeAll (final_world (update_stages f4 w3))) as w4.
  intros w4 K3 K4 K5 K6 K7 K8.
  split; [rewrite R2, C2, I2, K2, Hchain; reflexivity|].
  split; [rewrite K8, I7, C7, R7, A4, Hchain; lia|].
  split; [rewrite R1, C1, I1, K1; reflexivity|].
  split; [exact K5|].
  rewrite K7, J6, G6, E4, A8. reflexivity.
Qed.

Lemma full_run_of_any_levels_witness :
  let f := sample_frame 5000 in
  let w0 := sample_world 3 in
  let w1 := runFrame f w0 in
  let w2 := runFrame f w1 in
  let w3 := runFrame f w2 in
  let w4 := runFrame f w3 in
  [issued f w0; issued f w1; issued f w2; issued f w3] = [6; 12; 1; 0]
  /\ length (commands w4) = 19
  /\ [returned (update f w0); returned (update f w1);
      returned (update f w2); returned (update f w3)]
     = [Some (ReturnBool false); Some (ReturnBool false);
        Some (ReturnBool false); Some (ReturnBool true)]
  /\ flags (this w4) = [false; false; false; false; false; false]
  /\ _sphericalHarmonicCoefficients (this w4)
     = unpack_all (context_readPixels f) (replicate 9 None).
Proof.
  cbv zeta. unfold sample_world.
  apply (full_run_of_any_levels 3 sample_position (sample_frame 5000)
           (sample_frame 5000) (sample_frame 5000) (sample_frame 5000)).
  - lia.
  - vm_compute. reflexivity.
  - vm_compute. reflexivity.
  - vm_compute. reflexivity.
Defined.

(** ** Textures across cycles *)

Lemma convolution_selected_not_stale fs w :
  selected_stage (this (update_staleness fs w)) = Some ConvolutionStage ->
  update_staleness fs w = w
  /\ _radianceMapDirty (this w) = false
  /\ _convolutionsCommandsDirty (this w) = true.
Proof.
  unfold update_staleness. destruct (negb _).
  - cbv zeta. destruct (reset_core w) as (E & _). cbv zeta in E.
    revert E. generalize (_reset w) as w1. intros w1 E.
    unfold selected_stage. simpl. rewrite E. discriminate.
  - unfold selected_stage. intros H. split; [reflexivity|].
    destruct (_radianceMapDirty (this w)); [discriminate|].
    destruct (_convolutionsCommandsDirty (this w)); [auto|].
    destruct (_irradianceCommandDirty (this w)); [discriminate|].
    destruct (_irradianceTextureDirty (this w)); [discriminate|].
    destruct (_sphericalHarmonicCoefficientsDirty (this w)); discriminate.
Qed.

(** X13.  The convolution stage, in any world the manager can be in.  An
    [update] of an enabled manager with a position whose flags select the
    convolution stage returns [false], having built the 6 (N - 1) tasks of
    the stage and, for every one of them, a new texture object: after it
    every slot of the mip-chain array refers to a texture made in this call,
    whatever the slot held before, so a texture of an earlier cycle is
    referred to by no slot any more.  The texture objects there were are all
    still there, none of them released. *)
Theorem convolution_stage_makes_new_textures (w : World)
  (frameState : FrameState) :
  reachable w ->
  enabled (this w) = true ->
  defined (_position (this w)) = true ->
  selected_stage (this (update_staleness frameState w)) = Some ConvolutionStage ->
  let total := Z.to_nat ((_mipmapLevels (this w) - 1) * 6) in
  let first := length (commands w) in
  let firstTexture := length (textures w) in
  let w' := final_world (update frameState w) in
  update frameState w = Normal (ReturnBool false) w'
  /\ (commandList w' = commandList w ++ seq first total
      /\ _convolutionComputeCommands (this w')
         = map (fun i => Some (first + i)) (seq 0 total))
  /\ (_specularMapTextures (this w')
      = map (fun i => Some (firstTexture + i)) (seq 0 total)
      /\ forall t, t < firstTexture -> ~ Some t ∈ _specularMapTextures (this w'))
  /\ (length (textures w') = firstTexture + total
      /\ take firstTexture (textures w') = textures w)
  /\ _convolutionsCommandsDirty (this w') = false.
Proof.
  intros Hr He Hp Hs. cbv zeta.
  rewrite update_active by assumption.
  destruct (convolution_selected_not_stale frameState w Hs) as (-> & F1 & F2).
  unfold update_stages. rewrite F1, F2.
  destruct (reachable_consistent w Hr) as (H1 & (Ha & Hb & Hc & Hd) & Hf & Hcube).
  destruct (_radianceCubeMap (this w)) as [cm|] eqn:Ecm;
    [|specialize (Hcube ltac:(auto)); discriminate].
  destruct (updateSpecularMaps_closed frameState w cm Ecm Hc Hd)
    as (w1 & E & C & B).
  rewrite E. cbn [final_world]. clear E.
  unfold chain in C. injection C as C1 C2 C3 C4 C5.
  fold (chain_length (this w)).
  set (total := chain_length (this w)) in *.
  split; [reflexivity|]. simpl.
  rewrite C2, C3, C4, C5, map_add_seq.
  split; [split; reflexivity|]. split; [split; [reflexivity|]|split].
  - intros t Ht Hin. apply list_elem_of_fmap in Hin as (i & E & _).
    injection E as ->. lia.
  - rewrite length_app, length_map, length_seq, take_app_length. auto.
  - reflexivity.
Qed.

Lemma convolution_stage_makes_new_textures_witness :
  let f := sample_frame 5000 in
  let w := runFrame f (sample_world 2) in
  let w' := final_world (update f w) in
  update f w = Normal (ReturnBool false) w'
  /\ (commandList w' = commandList w ++ seq (length (commands w)) 6
      /\ _convolutionComputeCommands (this w')
         = map (fun i => Some (length (commands w) + i)) (seq 0 6))
  /\ (_specularMapTextures (this w')
      = map (fun i => Some (length (textures w) + i)) (seq 0 6)
      /\ forall t, t < length (textures w) ->
                   ~ Some t ∈ _specularMapTextures (this w'))
  /\ (length (textures w') = length (textures w) + 6
      /\ take (length (textures w)) (textures w') = textures w)
  /\ _convolutionsCommandsDirty (this w') = false.
Proof.
  cbv zeta.
  apply (convolution_stage_makes_new_textures
           (runFrame (sample_frame 5000) (sample_world 2)) (sample_frame 5000)).
  - apply runFrame_reachable, sample_world_reachable.
  - vm_compute. reflexivity.
  - vm_compute. reflexivity.
  - vm_compute. reflexivity.
Defined.

Lemma runPostExecute_textures p w :
  (textures (runPostExecute p w), _irradianceMapTexture (this (runPostExecute p w)),
   _radianceMapTextures (this (runPostExecute p w)))
  = (textures w, _irradianceMapTexture (this w), _radianceMapTextures (this w)).
Proof.
  destruct p as [index face|c index texture face level|]; cbn [runPostExecute].
  - cbv zeta. destruct (negb _); reflexivity.
  - cbv zeta. destruct (decide _); reflexivity.
  - reflexivity.
Qed.

Lemma execute_textures r w :
  textures (execute r w) = textures w
  /\ _irradianceMapTexture (this (execute r w)) = _irradianceMapTexture (this w)
  /\ _radianceMapTextures (this (execute r w)) = _radianceMapTextures (this w).
Proof.
  unfold execute. destruct (commands w !! r) as [c|]; [|auto].
  destruct (ComputeCommand.canceled c); [auto|].
  pose proof (runPostExecute_textures (ComputeCommand.postExecute c) w) as H.
  revert H. generalize (runPostExecute (ComputeCommand.postExecute c) w) as u.
  intros u H. injection H as H1 H2 H3. auto.
Qed.

Lemma reset_textures w :
  textures (_reset w) = textures w
  /\ _irradianceMapTexture (this (_reset w)) = _irradianceMapTexture (this w)
  /\ _radianceMapTextures (this (_reset w)) = _radianceMapTextures (this w).
Proof.
  pose proof (reset_outside w) as H. revert H. generalize (_reset w) as u.
  intros u H. unfold outside_reset in H. cbv zeta in H.
  repeat split; congruence.
Qed.

Lemma update_staleness_textures fs w :
  textures (update_staleness fs w) = textures w
  /\ _irradianceMapTexture (this (update_staleness fs w))
     = _irradianceMapTexture (this w)
  /\ _radianceMapTextures (this (update_staleness fs w))
     = _radianceMapTextures (this w).
Proof.
  unfold update_staleness. destruct (negb _); [|auto]. cbv zeta.
  destruct (reset_textures w) as (H1 & H2 & H3). revert H1 H2 H3.
  generalize (_reset w) as u. intros u H1 H2 H3. simpl. auto.
Qed.

Lemma position_set_textures value w :
  textures (position_set value w) = textures w
  /\ _irradianceMapTexture (this (position_set value w))
     = _irradianceMapTexture (this w)
  /\ _radianceMapTextures (this (position_set value w))
     = _radianceMapTextures (this w).
Proof.
  unfold position_set. destruct (Cartesian3.equalsEpsilon _ _ _); [auto|].
  apply (reset_textures (on_this (set_position value) w)).
Qed.

Lemma coefficient_stage_textures fs w :
  let u := updateSphericalHarmonicCoefficients fs w in
  textures u = textures w
  /\ _irradianceMapTexture (this u) = _irradianceMapTexture (this w)
  /\ _radianceMapTextures (this u) = _radianceMapTextures (this w).
Proof.
  cbv zeta.
  assert (H : (fun w => (textures w, _irradianceMapTexture (this w),
                         _radianceMapTextures (this w)))
                (updateSphericalHarmonicCoefficients fs w)
              = (textures w, _irradianceMapTexture (this w),
                 _radianceMapTextures (this w))).
  { unfold updateSphericalHarmonicCoefficients.
    rewrite (fold_left_preserves
               (fun w => (textures w, _irradianceMapTexture (this w),
                          _radianceMapTextures (this w)))); reflexivity. }
  pose proof (f_equal (fun t => fst (fst t)) H) as K1.
  pose proof (f_equal (fun t => snd (fst t)) H) as K2.
  pose proof (f_equal snd H) as K3. auto.
Qed.

Lemma irradiance_stage_face_textures fs w :
  _radianceMapTextures (this (updateIrradianceResources fs w))
  = _radianceMapTextures (this w).
Proof.
  unfold updateIrradianceResources.
  destruct (_irradianceMapTexture _); cbv zeta beta iota;
    unfold new_Texture, new_ComputeCommand; cbv zeta beta iota;
    destruct (defined (_irradianceMapFS _)); reflexivity.
Qed.

(** What the stage that [update_stages] runs does to the texture store, the
    irradiance texture and the face textures. *)
Lemma update_stages_textures fs w :
  consistent w ->
  let w' := final_world (update_stages fs w) in
  (exists new,
     textures w' = textures w ++ new
     /\ (Forall (fun t => Texture.pixelDatatype t = UNSIGNED_BYTE) new
         /\ _irradianceMapTexture (this w') = _irradianceMapTexture (this w)
         \/ _irradianceMapTexture (this w) = None
            /\ new = [Texture.Build 3 3 FLOAT false]
            /\ _irradianceMapTexture (this w') = Some (length (textures w))))
  /\ forall i t, array_get (_radianceMapTextures (this w)) i = Some t ->
                 array_get (_radianceMapTextures (this w')) i = Some t.
Proof.
  intros Hc. cbv zeta. unfold update_stages.
  destruct (_radianceMapDirty (this w)) eqn:E1.
  { cbv zeta. cbn [final_world].
    destruct (radiance_stage_beside fs w Hc E1)
      as (_ & (_ & _ & _ & _ & B5) & _).
    destruct (radiance_stage_closed fs w Hc E1)
      as (_ & _ & _ & _ & R5 & (new & R6 & _ & R7 & _) & _).
    cbv zeta in *. split; [|exact R5].
    exists new. split; [exact R6|]. left. split; [|exact B5].
    eapply Forall_impl; [exact R7|]. intros t ->. reflexivity. }
  destruct (_convolutionsCommandsDirty (this w)) eqn:E2.
  { destruct Hc as (H1 & (Ha & Hb & Hcl & Hd) & Hf & Hcube).
    destruct (_radianceCubeMap (this w)) as [cm|] eqn:Ecm;
      [|specialize (Hcube ltac:(auto)); discriminate].
    destruct (updateSpecularMaps_closed fs w cm Ecm Hcl Hd) as (w1 & E & C & B).
    rewrite E. cbn [final_world]. clear E.
    unfold chain in C. injection C as C1 C2 C3 C4 C5.
    unfold beside_chain, flags in B.
    injection B as B1 B2 B3 B4 B5 B6 B7 B8 B9 B10 B11 B12 B13.
    simpl. rewrite C2, B11, B13. split; [|auto].
    eexists. split; [reflexivity|]. left. split; [|reflexivity].
    apply Forall_forall. intros t Ht.
    apply list_elem_of_fmap in Ht as (i & -> & _). reflexivity. }
  cbv zeta.
  set (w1 := if _irradianceCommandDirty (this w) then _ else w).
  assert (H1 : (exists new,
     textures w1 = textures w ++ new
     /\ (Forall (fun t => Texture.pixelDatatype t = UNSIGNED_BYTE) new
         /\ _irradianceMapTexture (this w1) = _irradianceMapTexture (this w)
         \/ _irradianceMapTexture (this w) = None
            /\ new = [Texture.Build 3 3 FLOAT false]
            /\ _irradianceMapTexture (this w1) = Some (length (textures w))))
     /\ _radianceMapTextures (this w1) = _radianceMapTextures (this w)).
  { subst w1. destruct (_irradianceCommandDirty (this w)).
    - destruct (irradiance_stage_issues fs w)
        as (t & _ & _ & _ & _ & I5 & I6 & I7). cbv zeta in *.
      pose proof (irradiance_stage_face_textures fs w) as I8.
      split; [|exact I8].
      destruct (_irradianceMapTexture (this w)) as [t0|] eqn:Et.
      + exists []. split; [exact I7|]. left. split; [constructor|].
        rewrite I5, I6. reflexivity.
      + eexists. split; [exact I7|]. right. rewrite I5, I6. auto.
    - split; [|reflexivity]. exists []. rewrite app_nil_r.
      split; [reflexivity|]. left. split; [constructor|reflexivity]. }
  clearbody w1. destruct H1 as (H1 & H2).
  assert (H3 : forall i t, array_get (_radianceMapTextures (this w)) i = Some t ->
                 array_get (_radianceMapTextures (this w1)) i = Some t)
    by (rewrite H2; auto).
  destruct (_irradianceTextureDirty (this w1)); [auto|].
  destruct (_sphericalHarmonicCoefficientsDirty (this w1)); [|auto].
  cbn [final_world].
  destruct (coefficient_stage_textures fs w1) as (K1 & K2 & K3).
  cbv zeta in *. revert K1 K2 K3.
  generalize (updateSphericalHarmonicCoefficients fs w1) as w2.
  intros w2 K1 K2 K3. simpl. rewrite K1, K2, K3. auto.
Qed.

Lemma one_irradiance_texture_same w' w :
  textures w' = textures w ->
  _irradianceMapTexture (this w') = _irradianceMapTexture (this w) ->
  one_irradiance_texture w -> one_irradiance_texture w'.
Proof. unfold one_irradiance_texture. intros -> ->. auto. Qed.

Lemma update_stages_one_irradiance_texture fs w :
  consistent w -> one_irradiance_texture w ->
  one_irradiance_texture (final_world (update_stages fs w)).
Proof.
  intros Hc H. destruct (update_stages_textures fs w Hc) as ((new & E & Hn) & _).
  cbv zeta in *. revert E Hn.
  generalize (final_world (update_stages fs w)) as w'. intros w' E Hn.
  unfold one_irradiance_texture in *. intros t T Ht HT. rewrite E in Ht.
  apply lookup_app_Some in Ht as [Ht|[Hge Ht]].
  - destruct (H t T Ht HT) as (H1 & H2). split; [|exact H2].
    destruct Hn as [(_ & ->)|(Hnone & _)]; [exact H1|congruence].
  - destruct Hn as [(Hub & _)|(_ & -> & Hs)].
    + exfalso. apply list_elem_of_lookup_2 in Ht.
      rewrite Forall_forall in Hub. specialize (Hub T Ht). congruence.
    + destruct (t - length (textures w)) as [|k] eqn:Ek; [|discriminate].
      injection Ht as <-. split; [|reflexivity]. rewrite Hs. f_equal. lia.
Qed.

Lemma reachable_one_irradiance_texture w :
  reachable w -> one_irradiance_texture w.
Proof.
  induction 1 as [o m Hm|value w Hr IH|b w Hr IH|q w Hr IH|fs w Hr IH|r w Hr IH
                  |w Hr IH].
  - intros t T Ht. discriminate.
  - destruct (position_set_textures value w) as (E1 & E2 & _).
    exact (one_irradiance_texture_same _ _ E1 E2 IH).
  - exact IH.
  - exact IH.
  - unfold update. destruct (_ || _); [exact IH|]. cbv zeta.
    apply update_stages_one_irradiance_texture.
    + apply update_staleness_consistent, reachable_consistent, Hr.
    + destruct (update_staleness_textures fs w) as (E1 & E2 & _).
      exact (one_irradiance_texture_same _ _ E1 E2 IH).
  - destruct (execute_textures r w) as (E1 & E2 & _).
    exact (one_irradiance_texture_same _ _ E1 E2 IH).
  - exact IH.
Qed.

(** X14.  The irradiance texture is made once.  In every world the manager
    can be in, whatever the number of cycles it has run, there is at most
    one texture of floats among all the texture objects ever made: it is
    the 3 by 3 texture that [_irradianceMapTexture] refers to, and it has not
    been released. *)
Theorem irradiance_texture_is_made_once (w : World) (t1 t2 : TextureRef) :
  reachable w ->
  Texture.pixelDatatype <$> textures w !! t1 = Some FLOAT ->
  Texture.pixelDatatype <$> textures w !! t2 = Some FLOAT ->
  t1 = t2
  /\ _irradianceMapTexture (this w) = Some t1
  /\ textures w !! t1 = Some (Texture.Build 3 3 FLOAT false).
Proof.
  intros Hr H1 H2. pose proof (reachable_one_irradiance_texture w Hr) as H.
  unfold TextureRef in *.
  destruct (textures w !! t1) as [T1|] eqn:E1; [|discriminate].
  destruct (textures w !! t2) as [T2|] eqn:E2; [|discriminate].
  cbn in H1, H2. injection H1 as H1. injection H2 as H2.
  destruct (H t1 T1 E1 H1) as (S1 & ->).
  destruct (H t2 T2 E2 H2) as (S2 & _).
  split; [congruence|]. split; [exact S1|reflexivity].
Qed.

Lemma irradiance_texture_is_made_once_witness :
  let f := sample_frame 5000 in
  let w := runFrame f (runFrame f (runFrame f
             (position_set (Some sample_position_far) sample_completed))) in
  12 = 12
  /\ _irradianceMapTexture (this w) = Some 12
  /\ textures w !! 12 = Some (Texture.Build 3 3 FLOAT false).
Proof.
  cbv zeta.
  apply (irradiance_texture_is_made_once
           (runFrame (sample_frame 5000)
              (runFrame (sample_frame 5000)
                 (runFrame (sample_frame 5000)
                    (position_set (Some sample_position_far) sample_completed))))
           12 12).
  - do 3 apply runFrame_reachable. apply reachable_position.
    unfold sample_completed. do 4 apply runFrame_reachable.
    exact sample_world_reachable.
  - vm_compute. reflexivity.
  - vm_compute. reflexivity.
Defined.

(** X15.  A face texture, once made, stays.  In every world the manager can
    be in, a slot of the radiance texture array that refers to a texture
    refers to the same texture after any [update], after any assignment to
    [position] and after the completion of any task.  (With the radiance
    stage making a texture only for an empty slot, each face texture is made
    at most once.) *)
Theorem face_textures_are_kept (w : World) (i : nat) (t : TextureRef) :
  reachable w ->
  array_get (_radianceMapTextures (this w)) i = Some t ->
  (forall frameState,
     array_get (_radianceMapTextures (this (final_world (update frameState w)))) i
     = Some t)
  /\ (forall value,
        array_get (_radianceMapTextures (this (position_set value w))) i = Some t)
  /\ (forall command,
        array_get (_radianceMapTextures (this (execute command w))) i = Some t).
Proof.
  intros Hr Ht. split; [|split].
  - intros fs. unfold update. destruct (_ || _); [exact Ht|]. cbv zeta.
    apply (update_stages_textures fs (update_staleness fs w)).
    + apply update_staleness_consistent, reachable_consistent, Hr.
    + destruct (update_staleness_textures fs w) as (_ & _ & ->). exact Ht.
  - intros v. destruct (position_set_textures v w) as (_ & _ & ->). exact Ht.
  - intros r. destruct (execute_textures r w) as (_ & _ & ->). exact Ht.
Qed.

Lemma face_textures_are_kept_witness :
  let w := runFrame (sample_frame 5000) (sample_world 2) in
  (forall frameState,
     array_get (_radianceMapTextures (this (final_world (update frameState w)))) 3
     = Some 3)
  /\ (forall value,
        array_get (_radianceMapTextures (this (position_set value w))) 3 = Some 3)
  /\ (forall command,
        array_get (_radianceMapTextures (this (execute command w))) 3 = Some 3).
Proof.
  cbv zeta.
  apply (face_textures_are_kept (runFrame (sample_frame 5000) (sample_world 2))
                                3 3).
  - apply runFrame_reachable, sample_world_reachable.
  - vm_compute. reflexivity.
Defined.

(** ** The irradiance stage *)

Lemma clean_not_stale fs w :
  _radianceMapDirty (this (update_staleness fs w)) = false ->
  update_staleness fs w = w.
Proof.
  unfold update_staleness. destruct (negb _); [|reflexivity].
  cbv zeta. destruct (reset_core w) as (E & _). cbv zeta in E.
  revert E. generalize (_reset w) as w1. intros w1 E.
  simpl. rewrite E. discriminate.
Qed.

Lemma irradiance_selected fs w :
  selected_stage (this (update_staleness fs w)) = Some IrradianceStage ->
  update_staleness fs w = w
  /\ _radianceMapDirty (this w) = false
  /\ _convolutionsCommandsDirty (this w) = false
  /\ _irradianceCommandDirty (this w) = true.
Proof.
  intros H.
  assert (E : update_staleness fs w = w).
  { apply clean_not_stale. unfold selected_stage in H.
    destruct (_radianceMapDirty _); [discriminate|reflexivity]. }
  rewrite E in H. split; [exact E|]. unfold selected_stage in H.
  destruct (_radianceMapDirty (this w)); [discriminate|].
  destruct (_convolutionsCommandsDirty (this w)); [discriminate|].
  destruct (_irradianceCommandDirty (this w)); [auto|].
  destruct (_irradianceTextureDirty (this w)); [discriminate|].
  destruct (_sphericalHarmonicCoefficientsDirty (this w)); discriminate.
Qed.

(** X16.  The irradiance stage and its task.  An [update] of an enabled
    manager with a position whose flags select the irradiance stage returns
    [false], having built one task and appended it to the frame's list: it
    is kept in [_irradianceComputeCommand], is not canceled, and writes to
    the irradiance texture, which is the one the manager had or, if it had
    none, a new 3 by 3 texture of floats.  Until the task completes, an
    [update] at a time within the threshold returns [false] and changes
    nothing.  When the engine completes the task, the slot is emptied, and
    the next such [update] returns [true]. *)
Theorem irradiance_stage_awaits_its_task (w : World)
  (frameState later : FrameState) :
  enabled (this w) = true ->
  defined (_position (this w)) = true ->
  selected_stage (this (update_staleness frameState w)) = Some IrradianceStage ->
  JulianDate.equalsEpsilon (time later) (_lastTime (this w))
                           (maximumSecondsDifference (this w)) = true ->
  let task := length (commands w) in
  let texture := default (length (textures w)) (_irradianceMapTexture (this w)) in
  let w' := final_world (update frameState w) in
  let u := execute task w' in
  (update frameState w = Normal (ReturnBool false) w'
   /\ commandList w' = commandList w ++ [task]
   /\ commands w'
      = commands w
          ++ [{| ComputeCommand.outputTexture := texture;
                 ComputeCommand.uniformMap := IrradianceUniforms;
                 ComputeCommand.persists := false;
                 ComputeCommand.canceled := false;
                 ComputeCommand.postExecute := IrradiancePostExecute |}]
   /\ _irradianceComputeCommand (this w') = Some task
   /\ _irradianceMapTexture (this w') = Some texture
   /\ textures w'
      = textures w ++ match _irradianceMapTexture (this w) with
                      | Some _ => []
                      | None => [Texture.Build 3 3 FLOAT false]
                      end)
  /\ update later w' = Normal (ReturnBool false) w'
  /\ (_irradianceComputeCommand (this u) = None
      /\ returned (update later u) = Some (ReturnBool true)).
Proof.
  intros He Hp Hs Hl. cbv zeta.
  rewrite update_active by assumption.
  destruct (irradiance_selected frameState w Hs) as (-> & F1 & F2 & F3).
  destruct (irradiance_stage_issues frameState w)
    as (t & I1 & I2 & I3 & I4 & I5 & I6 & I7). cbv zeta in *.
  pose proof (updateIrradianceResources_quiet frameState w) as Hq.
  assert (Hq' : quiet (on_this (set_irradianceCommandDirty false)
                         (updateIrradianceResources frameState w)) = quiet w)
    by (rewrite quiet_on_this by reflexivity; exact Hq).
  clear Hq. rename Hq' into Hq.
  remember (on_this (set_irradianceCommandDirty false)
              (updateIrradianceResources frameState w)) as wS eqn:EwS.
  unfold flags in I3. injection I3 as T1 T2 T3 T4 T5 T6.
  assert (E : update_stages frameState w = Normal (ReturnBool false) wS).
  { unfold update_stages. rewrite F1, F2, F3. cbv zeta. rewrite <- EwS, T5.
    reflexivity. }
  rewrite E. clear E EwS. cbn [final_world]. subst t.
  destruct (quiet_parts _ _ Hq) as ((Q1 & Q2 & Q3) & (Q4 & Q5) & _).
  split; [auto 10|].
  assert (Hlater : forall v, quiet v = quiet wS ->
                     update later v = update_stages later v).
  { intros v Hv. destruct (quiet_parts _ _ Hv) as ((V1 & V2 & V3) & (V4 & V5) & _).
    apply runFrame_not_stale; rewrite ?V1, ?V2, ?V4, ?V5, ?Q1, ?Q2, ?Q4, ?Q5;
      assumption. }
  split.
  - rewrite Hlater by reflexivity. unfold update_stages.
    rewrite T2, T3, T4, T5, F1, F2. reflexivity.
  - unfold execute. unfold CommandRef in *. rewrite I1.
    rewrite list_lookup_middle by reflexivity.
    cbn [ComputeCommand.canceled ComputeCommand.postExecute runPostExecute].
    cbv zeta. split; [reflexivity|].
    rewrite Hlater by (rewrite !quiet_on_this by reflexivity; reflexivity).
    unfold update_stages. simpl. rewrite T2, T3, T4, F1, F2. reflexivity.
Qed.

Lemma irradiance_stage_awaits_its_task_witness :
  let f := sample_frame 5000 in
  let w := runFrame f (runFrame f (sample_world 2)) in
  let task := length (commands w) in
  let texture := default (length (textures w)) (_irradianceMapTexture (this w)) in
  let w' := final_world (update f w) in
  let u := execute task w' in
  (update f w = Normal (ReturnBool false) w'
   /\ commandList w' = commandList w ++ [task]
   /\ commands w'
      = commands w
          ++ [{| ComputeCommand.outputTexture := texture;
                 ComputeCommand.uniformMap := IrradianceUniforms;
                 ComputeCommand.persists := false;
                 ComputeCommand.canceled := false;
                 ComputeCommand.postExecute := IrradiancePostExecute |}]
   /\ _irradianceComputeCommand (this w') = Some task
   /\ _irradianceMapTexture (this w') = Some texture
   /\ textures w'
      = textures w ++ match _irradianceMapTexture (this w) with
                      | Some _ => []
                      | None => [Texture.Build 3 3 FLOAT false]
                      end)
  /\ update f w' = Normal (ReturnBool false) w'
  /\ (_irradianceComputeCommand (this u) = None
      /\ returned (update f u) = Some (ReturnBool true)).
Proof.
  cbv zeta.
  apply (irradiance_stage_awaits_its_task
           (runFrame (sample_frame 5000)
              (runFrame (sample_frame 5000) (sample_world 2)))
           (sample_frame 5000) (sample_frame 5000)).
  - vm_compute. reflexivity.
  - vm_compute. reflexivity.
  - vm_compute. reflexivity.
  - vm_compute. reflexivity.
Defined.

(** ** The position, present or absent *)

Lemma position_set_by_model value w :
  position_set_by Cartesian3.equalsEpsilon value w = position_set value w.
Proof. reflexivity. Qed.




